(** * The WiredTiger sorted-index adapter (wiredtiger_index.cpp)

    A shallow embedding of the index adapter: the standard and the unique
    index, their cursors and their bulk builders, over a model of the
    ordered key/value engine and of the KeyString codec the adapter uses. *)

From Stdlib Require Import ZArith Lia Bool.
From Stdlib.Strings Require Import Byte.
From stdpp Require Import base option list gmap fin_maps countable strings sorting.

Local Open Scope Z_scope.

(** ** Byte strings and their order *)

Abbreviation bytes := (list Byte.byte).

#[global] Instance byte_eq_dec : EqDecision Byte.byte := Byte.byte_eq_dec.

#[global] Instance byte_countable : Countable Byte.byte :=
  inj_countable Byte.to_N Byte.of_N Byte.of_to_N.

(** The engine's default collation and [KeyString::compare]: bytewise
    comparison, a proper prefix sorts first. *)
Fixpoint lex_compare (a b : bytes) : comparison :=
  match a, b with
  | [], [] => Eq
  | [], _ :: _ => Lt
  | _ :: _, [] => Gt
  | x :: a', y :: b' =>
      match N.compare (Byte.to_N x) (Byte.to_N y) with
      | Eq => lex_compare a' b'
      | c => c
      end
  end.

Definition lex_ltb (a b : bytes) : bool :=
  match lex_compare a b with Lt => true | _ => false end.

(** [v.empty()] of a vector, [!br.remaining()] of a buffer reader. *)
Definition empty_b {A} (l : list A) : bool :=
  match l with
  | [] => true
  | _ :: _ => false
  end.

(** ** The ordered key/value engine

    Modelled from the spec: the WiredTiger table and cursor calls the adapter
    consumes (set_key, insert, search, search_near, update, remove, next,
    prev, reset); their code is not part of the adapter's source.  A table is
    a finite map from key bytes to value bytes, ordered by [lex_compare].
    Index cursors are opened with [overwrite=false]: [insert] refuses an
    existing key and [update] a missing one. *)

Abbreviation Table := (gmap bytes bytes).

Inductive wt_ret := WT_OK | WT_NOTFOUND | WT_DUPLICATE_KEY.

#[global] Instance wt_ret_eq_dec : EqDecision wt_ret.
Proof. solve_decision. Defined.

Definition wt_insert (t : Table) (k v : bytes) : wt_ret * Table :=
  match t !! k with
  | Some _ => (WT_DUPLICATE_KEY, t)
  | None => (WT_OK, <[k:=v]> t)
  end.

(** [search] followed by [get_value]. *)
Definition wt_search (t : Table) (k : bytes) : wt_ret * bytes :=
  match t !! k with
  | Some v => (WT_OK, v)
  | None => (WT_NOTFOUND, [])
  end.

Definition wt_update (t : Table) (k v : bytes) : wt_ret * Table :=
  match t !! k with
  | Some _ => (WT_OK, <[k:=v]> t)
  | None => (WT_NOTFOUND, t)
  end.

Definition wt_remove (t : Table) (k : bytes) : wt_ret * Table :=
  match t !! k with
  | Some _ => (WT_OK, delete k t)
  | None => (WT_NOTFOUND, t)
  end.

(** The bulk cursor (and the plain cursor the builder falls back to, opened
    without [overwrite=false]) appends the row. *)
Definition wt_bulk_insert (t : Table) (k v : bytes) : wt_ret * Table :=
  (WT_OK, <[k:=v]> t).

(** The smaller of two candidate keys, and the larger. *)
Definition pick_min (k : bytes) (acc : option bytes) : option bytes :=
  match acc with
  | None => Some k
  | Some m => if lex_ltb k m then Some k else Some m
  end.

Definition pick_max (k : bytes) (acc : option bytes) : option bytes :=
  match acc with
  | None => Some k
  | Some m => if lex_ltb m k then Some k else Some m
  end.

Definition keys_of (t : Table) : list bytes := (map_to_list t).*1.

(** The least key of the table strictly above [q], the greatest strictly
    below, the first and the last key. *)
Definition least_above (q : bytes) (t : Table) : option bytes :=
  foldr (fun k acc => if lex_ltb q k then pick_min k acc else acc) None (keys_of t).

Definition greatest_below (q : bytes) (t : Table) : option bytes :=
  foldr (fun k acc => if lex_ltb k q then pick_max k acc else acc) None (keys_of t).

Definition first_key (t : Table) : option bytes :=
  foldr pick_min None (keys_of t).

Definition last_key (t : Table) : option bytes :=
  foldr pick_max None (keys_of t).

(** An engine cursor is positioned on a key or unpositioned. [next] from an
    unpositioned cursor goes to the first row, [prev] to the last; a move that
    finds no row leaves the cursor unpositioned and returns WT_NOTFOUND. *)
Definition wt_next (t : Table) (pos : option bytes) : option bytes :=
  match pos with
  | Some k => least_above k t
  | None => first_key t
  end.

Definition wt_prev (t : Table) (pos : option bytes) : option bytes :=
  match pos with
  | Some k => greatest_below k t
  | None => last_key t
  end.

(** [search_near]: the row of the key when there is one (exact = 0),
    otherwise an adjacent row: the greatest below (exact < 0) or the least
    above (exact > 0).  Which of the two the engine picks when both exist is
    not specified; [preferBelow] stands for that choice. *)
Definition wt_search_near (t : Table) (q : bytes) (preferBelow : bool)
  : option (bytes * Z) :=
  match t !! q with
  | Some _ => Some (q, 0)
  | None =>
      match greatest_below q t, least_above q t with
      | None, None => None
      | Some lo, None => Some (lo, -1)
      | None, Some hi => Some (hi, 1)
      | Some lo, Some hi => if preferBelow then Some (lo, -1) else Some (hi, 1)
      end
  end.

(** ** Structured keys

    A BSON object is its sequence of elements, each a field name and a typed
    value.  Index keys carry empty field names. *)

Section BSON.
Context {V : Type}.

Definition BSONElement : Type := string * V.

(** [e.fieldName()[0]]: the name is not the empty string. *)
Definition has_name (e : string * V) : bool :=
  match e.1 with
  | EmptyString => false
  | String _ _ => true
  end.

Definition hasFieldNames (obj : list (string * V)) : bool :=
  existsb has_name obj.

(** [bb.appendAs(e, StringData())] for every element. *)
Definition stripFieldNames (query : list (string * V)) : list (string * V) :=
  if negb (hasFieldNames query) then query
  else map (fun e => (EmptyString, e.2)) query.

Definition isEmpty (obj : list (string * V)) : bool :=
  match obj with
  | [] => true
  | _ :: _ => false
  end.
End BSON.

(** A record id is a signed 64-bit integer that the adapter only compares;
    0 is the null id. *)
Abbreviation RecordId := Z.

(** Modelled from the spec: [RecordId::isNormal], neither null nor one of the
    reserved sentinels (the minimum and the maximum 64-bit value). *)
Definition isNormal (loc : RecordId) : bool :=
  (0 <? loc) && (loc <? 2 ^ 63 - 1).

Inductive Discriminator := kInclusive | kExclusiveBefore | kExclusiveAfter.

(** ** The order-preserving key codec

    Modelled from the spec: [KeyString] and its [TypeBits], the codec the
    adapter treats as a black box (section 6.2 of the specification), together
    with [BSONObj::objsize] and [BSONObj::woCompare] under the index's
    ordering.  The laws are the contract the adapter relies on. *)
Class KeyStringCodec := {
  BSONValue : Type;
  TypeBits : Type;
  objsize : list (string * BSONValue) -> Z;
  woCompare : list (string * BSONValue) -> list (string * BSONValue) -> comparison;
  (** [KeyString(key, ordering, discriminator)]: the buffer and the type bits *)
  ks_encode : list (string * BSONValue) -> Discriminator -> bytes;
  ks_typeBits : list (string * BSONValue) -> TypeBits;
  (** [KeyString::toBson] *)
  toBson : bytes -> TypeBits -> option (list (string * BSONValue));
  appendRecordId : RecordId -> bytes;
  decodeRecordId : bytes -> option (RecordId * bytes);
  decodeRecordIdAtEnd : bytes -> option RecordId;
  tbAllZeros : TypeBits;
  isAllZeros : TypeBits -> bool;
  (** [getBuffer()/getSize()], [KeyString::appendTypeBits] and
      [TypeBits::fromBuffer] *)
  tb_getBuffer : TypeBits -> bytes;
  appendTypeBits : TypeBits -> bytes;
  fromBuffer : bytes -> option (TypeBits * bytes);

  decodeRecordId_append : forall r rest,
    decodeRecordId (appendRecordId r ++ rest) = Some (r, rest);
  decodeRecordIdAtEnd_append : forall k r,
    decodeRecordIdAtEnd (k ++ appendRecordId r) = Some r;
  isAllZeros_tbAllZeros : isAllZeros tbAllZeros = true;
  isAllZeros_canon : forall tb, isAllZeros tb = true -> tb = tbAllZeros;
  fromBuffer_nil : fromBuffer [] = Some (tbAllZeros, []);
  fromBuffer_append : forall tb rest,
    fromBuffer (appendTypeBits tb ++ rest) = Some (tb, rest);
  fromBuffer_getBuffer : forall tb,
    isAllZeros tb = false -> fromBuffer (tb_getBuffer tb) = Some (tb, []);
  (** byte order is the logical order, and the exclusive discriminators sit
      strictly between the keys, whatever follows the inclusive encoding *)
  ks_compare : forall a b,
    hasFieldNames a = false -> hasFieldNames b = false ->
    lex_compare (ks_encode a kInclusive) (ks_encode b kInclusive) = woCompare a b;
  ks_mono : forall a b s s',
    hasFieldNames a = false -> hasFieldNames b = false ->
    woCompare a b = Lt ->
    lex_compare (ks_encode a kInclusive ++ s) (ks_encode b kInclusive ++ s') = Lt;
  ks_before : forall a b s,
    hasFieldNames a = false -> hasFieldNames b = false ->
    lex_compare (ks_encode a kInclusive ++ s) (ks_encode b kExclusiveBefore)
    = match woCompare a b with Lt => Lt | _ => Gt end;
  ks_after : forall a b s,
    hasFieldNames a = false -> hasFieldNames b = false ->
    lex_compare (ks_encode a kInclusive ++ s) (ks_encode b kExclusiveAfter)
    = match woCompare a b with Gt => Gt | _ => Lt end;
  toBson_encode : forall a s,
    hasFieldNames a = false ->
    toBson (ks_encode a kInclusive ++ s) (ks_typeBits a) = Some a
}.

Abbreviation BSONObj := (list (string * BSONValue)).

(** ** Statuses *)

Inductive Status := OK | KeyTooLong | DuplicateKey | UnknownError.

#[global] Instance Status_eq_dec : EqDecision Status.
Proof. solve_decision. Defined.

Definition isOK (s : Status) : bool :=
  match s with OK => true | _ => false end.

(** Modelled from the spec: [wtRCToStatus], Ok for a zero return code and an
    error status for the others. *)
Definition wtRCToStatus (ret : wt_ret) : Status :=
  match ret with WT_OK => OK | _ => UnknownError end.

Definition TempKeyMaxSize : Z := 1024.

Inductive Flavor := Standard | Unique.

Section Index.
Context `{KeyStringCodec}.

Definition checkKeySize (key : BSONObj) : Status :=
  if objsize key >=? TempKeyMaxSize then KeyTooLong else OK.

(** [WiredTigerIndex::dupKeyError] *)
Definition dupKeyError (key : BSONObj) : Status := DuplicateKey.

(** *** The unique index *)

(** Result of the scan of the old value in [_insert]: the loc was found, or
    the value was rebuilt ([insertedLoc] and the new value so far). *)
Inductive InsertScan :=
| AlreadyInIndex
| Rebuilt (insertedLoc : bool) (value : bytes).

(** The loop [while (br.remaining())] of [WiredTigerIndexUnique::_insert].
    A decoder that fails stands for the exception of the buffer reader. *)
Fixpoint insert_scan (fuel : nat) (loc : RecordId) (tb : TypeBits)
    (br : bytes) (insertedLoc : bool) (value : bytes) : option InsertScan :=
  match br with
  | [] => Some (Rebuilt insertedLoc value)
  | _ :: _ =>
      match fuel with
      | O => None
      | S fuel' =>
          match decodeRecordId br with
          | None => None
          | Some (locInIndex, br1) =>
              if loc =? locInIndex then Some AlreadyInIndex
              else
                let '(insertedLoc1, value1) :=
                  if negb insertedLoc && (loc <? locInIndex)
                  then (true, value ++ appendRecordId loc ++ appendTypeBits tb)
                  else (insertedLoc, value) in
                match fromBuffer br1 with
                | None => None
                | Some (tbInIndex, br2) =>
                    insert_scan fuel' loc tb br2 insertedLoc1
                      (value1 ++ appendRecordId locInIndex ++ appendTypeBits tbInIndex)
                end
          end
      end
  end.

(** [WiredTigerIndexUnique::_insert].  [None] is a failed invariant. *)
Definition unique_insert (t : Table) (key : BSONObj) (loc : RecordId)
    (dupsAllowed : bool) : option (Status * Table) :=
  let data := ks_encode key kInclusive in
  let tb := ks_typeBits key in
  let value := appendRecordId loc ++ (if isAllZeros tb then [] else appendTypeBits tb) in
  let '(ret, t1) := wt_insert t data value in
  if negb (bool_decide (ret = WT_DUPLICATE_KEY)) then Some (wtRCToStatus ret, t1)
  else
    let '(ret, old) := wt_search t1 data in
    if negb (bool_decide (ret = WT_OK)) then None
    else
      match insert_scan (length old) loc tb old false [] with
      | None => None
      | Some AlreadyInIndex => Some (OK, t1)
      | Some (Rebuilt insertedLoc value) =>
          if negb dupsAllowed then Some (dupKeyError key, t1)
          else
            let value :=
              if negb insertedLoc
              then value ++ appendRecordId loc ++ appendTypeBits tb
              else value in
            let '(ret, t2) := wt_update t1 data value in
            Some (wtRCToStatus ret, t2)
      end.

(** The value written for a list of records, as [_unindex] and the bulk
    builder's [doInsert] build it: all-zero type bits are left out when the
    record is the only one. *)
Definition encode_records (records : list (RecordId * TypeBits)) : bytes :=
  flat_map (fun r =>
    appendRecordId r.1 ++
    (if negb (isAllZeros r.2 && (length records =? 1)%nat)
     then appendTypeBits r.2 else [])) records.

Inductive UnindexScan :=
| RemoveWholeEntry
| Scanned (foundLoc : bool) (records : list (RecordId * TypeBits)).

(** The loop [while (br.remaining())] of [WiredTigerIndexUnique::_unindex]. *)
Fixpoint unindex_scan (fuel : nat) (loc : RecordId) (br : bytes)
    (foundLoc : bool) (records : list (RecordId * TypeBits)) : option UnindexScan :=
  match br with
  | [] => Some (Scanned foundLoc records)
  | _ :: _ =>
      match fuel with
      | O => None
      | S fuel' =>
          match decodeRecordId br with
          | None => None
          | Some (locInIndex, br1) =>
              match fromBuffer br1 with
              | None => None
              | Some (typeBits, br2) =>
                  if loc =? locInIndex then
                    if empty_b records && empty_b br2 then Some RemoveWholeEntry
                    else unindex_scan fuel' loc br2 true records
                  else unindex_scan fuel' loc br2 foundLoc
                         (records ++ [(locInIndex, typeBits)])
              end
          end
      end
  end.

(** [WiredTigerIndexUnique::_unindex] *)
Definition unique_unindex (t : Table) (key : BSONObj) (loc : RecordId)
    (dupsAllowed : bool) : option Table :=
  let data := ks_encode key kInclusive in
  if negb dupsAllowed then Some (wt_remove t data).2
  else
    let '(ret, old) := wt_search t data in
    if bool_decide (ret = WT_NOTFOUND) then Some t
    else
      match unindex_scan (length old) loc old false [] with
      | None => None
      | Some RemoveWholeEntry =>
          let '(ret, t1) := wt_remove t data in
          if bool_decide (ret = WT_OK) then Some t1 else None
      | Some (Scanned foundLoc records) =>
          if negb foundLoc then Some t
          else if empty_b records then None
          else
            let '(ret, t1) := wt_update t data (encode_records records) in
            if bool_decide (ret = WT_OK) then Some t1 else None
      end.

(** *** The standard index *)

(** The row of [(key, loc)]: [KeyString(key, ordering, loc)] and its type
    bits, empty when all zero. *)
Definition standard_key (key : BSONObj) (loc : RecordId) : bytes :=
  ks_encode key kInclusive ++ appendRecordId loc.

Definition standard_value (key : BSONObj) : bytes :=
  if isAllZeros (ks_typeBits key) then [] else tb_getBuffer (ks_typeBits key).

(** [WiredTigerIndexStandard::_insert] *)
Definition standard_insert (t : Table) (keyBson : BSONObj) (loc : RecordId)
    (dupsAllowed : bool) : option (Status * Table) :=
  if negb dupsAllowed then None
  else
    let '(ret, t1) := wt_insert t (standard_key keyBson loc) (standard_value keyBson) in
    if negb (bool_decide (ret = WT_DUPLICATE_KEY)) then Some (wtRCToStatus ret, t1)
    else Some (OK, t1).

(** [WiredTigerIndexStandard::_unindex] *)
Definition standard_unindex (t : Table) (key : BSONObj) (loc : RecordId)
    (dupsAllowed : bool) : option Table :=
  if negb dupsAllowed then None
  else Some (wt_remove t (standard_key key loc)).2.

(** *** The operations of both flavors *)

Definition _insert (fl : Flavor) :=
  match fl with Standard => standard_insert | Unique => unique_insert end.

Definition _unindex (fl : Flavor) :=
  match fl with Standard => standard_unindex | Unique => unique_unindex end.

(** [WiredTigerIndex::insert].  The invariant on the loc and the debug
    assertion on the field names abort ([None]). *)
Definition insert (fl : Flavor) (t : Table) (key : BSONObj) (loc : RecordId)
    (dupsAllowed : bool) : option (Status * Table) :=
  if negb (isNormal loc) then None
  else if hasFieldNames key then None
  else
    let s := checkKeySize key in
    if negb (isOK s) then Some (s, t)
    else _insert fl t key loc dupsAllowed.

(** [WiredTigerIndex::unindex] *)
Definition unindex (fl : Flavor) (t : Table) (key : BSONObj) (loc : RecordId)
    (dupsAllowed : bool) : option Table :=
  if negb (isNormal loc) then None
  else if hasFieldNames key then None
  else _unindex fl t key loc dupsAllowed.

(** [WiredTigerIndex::isDup] and [dupKeyCheck] *)
Fixpoint isDup_scan (fuel : nat) (loc : RecordId) (br : bytes) : option bool :=
  match br with
  | [] => Some true
  | _ :: _ =>
      match fuel with
      | O => None
      | S fuel' =>
          match decodeRecordId br with
          | None => None
          | Some (locInIndex, br1) =>
              if locInIndex =? loc then Some false
              else
                match fromBuffer br1 with
                | None => None
                | Some (_, br2) => isDup_scan fuel' loc br2
                end
          end
      end
  end.

Definition isDup (t : Table) (key : BSONObj) (loc : RecordId) : option bool :=
  let '(ret, value) := wt_search t (ks_encode key kInclusive) in
  if bool_decide (ret = WT_NOTFOUND) then Some false
  else isDup_scan (length value) loc value.

Definition dupKeyCheck (t : Table) (key : BSONObj) (loc : RecordId)
  : option Status :=
  if hasFieldNames key then None
  else
    match isDup t key loc with
    | None => None
    | Some true => Some (dupKeyError key)
    | Some false => Some OK
    end.
End Index.

(** ** The bulk builders *)

Module StandardBulkBuilder.
Section Builder.
Context `{KeyStringCodec}.

(** [StandardBulkBuilder::addKey] *)
Definition addKey (t : Table) (key : BSONObj) (loc : RecordId)
  : option (Status * Table) :=
  let s := checkKeySize key in
  if negb (isOK s) then Some (s, t)
  else
    let '(ret, t1) := wt_bulk_insert t (standard_key key loc) (standard_value key) in
    if bool_decide (ret = WT_OK) then Some (OK, t1) else None.

Definition commit (t : Table) : Table := t.
End Builder.
End StandardBulkBuilder.

Module UniqueBulkBuilder.
Section Builder.
Context `{KeyStringCodec}.

(** The builder's members; [_keyString] is the buffer of the key string. *)
Record State := {
  _dupsAllowed : bool;
  _key : BSONObj;
  _keyString : bytes;
  _records : list (RecordId * TypeBits)
}.

(** A new builder: an empty [_key], an empty key string, no records. *)
Definition init (dupsAllowed : bool) : State :=
  {| _dupsAllowed := dupsAllowed; _key := []; _keyString := []; _records := [] |}.

(** [UniqueBulkBuilder::doInsert] *)
Definition doInsert (t : Table) (b : State) : option (Table * State) :=
  if empty_b (_records b) then None
  else
    let value := encode_records (_records b) in
    let '(ret, t1) := wt_bulk_insert t (_keyString b) value in
    if bool_decide (ret = WT_OK)
    then Some (t1, {| _dupsAllowed := _dupsAllowed b; _key := _key b;
                      _keyString := _keyString b; _records := [] |})
    else None.

(** The tail of [addKey]: the new key replaces [_key] and the record is
    pushed. *)
Definition push (b : State) (newKey : BSONObj) (loc : RecordId) : State :=
  {| _dupsAllowed := _dupsAllowed b;
     _key := newKey;
     _keyString := ks_encode newKey kInclusive;
     _records := _records b ++ [(loc, ks_typeBits newKey)] |}.

(** [UniqueBulkBuilder::addKey] *)
Definition addKey (t : Table) (b : State) (newKey : BSONObj) (loc : RecordId)
  : option (Status * Table * State) :=
  let s := checkKeySize newKey in
  if negb (isOK s) then Some (s, t, b)
  else
    match woCompare newKey (_key b) with
    | Eq =>
        if negb (_dupsAllowed b) then Some (dupKeyError newKey, t, b)
        else Some (OK, t, push b newKey loc)
    | cmp =>
        let flushed :=
          if negb (isEmpty (_key b)) then
            match cmp with
            | Gt => doInsert t b
            | _ => None
            end
          else Some (t, b) in
        match flushed with
        | None => None
        | Some (t1, b1) =>
            if negb (empty_b (_records b1)) then None
            else Some (OK, t1, push b1 newKey loc)
        end
    end.

(** [UniqueBulkBuilder::commit] *)
Definition commit (t : Table) (b : State) : option (Table * State) :=
  if negb (empty_b (_records b)) then doInsert t b else Some (t, b).

(** Feeding a list of keys to the builder, stopping at the first status
    that is not Ok. *)
Fixpoint addKeys (t : Table) (b : State) (kvs : list (BSONObj * RecordId))
  : option (Status * Table * State) :=
  match kvs with
  | [] => Some (OK, t, b)
  | (k, loc) :: kvs' =>
      match addKey t b k loc with
      | None => None
      | Some (OK, t1, b1) => addKeys t1 b1 kvs'
      | Some r => Some r
      end
  end.
End Builder.
End UniqueBulkBuilder.

(** ** The index cursor *)

Module Cursor.
Section Cursor.
Context `{KeyStringCodec}.

(** The members of [WiredTigerIndexCursorBase]; [_cursor] is the position
    of the engine cursor, [None] when it is not on a row. *)
Record State := {
  _forward : bool;
  _cursor : option bytes;
  _key : bytes;
  _typeBits : TypeBits;
  _loc : RecordId;
  _eof : bool;
  _cursorAtEof : bool;
  _lastMoveWasRestore : bool;
  _query : bytes;
  _endPosition : option bytes
}.

(** A new cursor. *)
Definition init (forward : bool) : State :=
  {| _forward := forward; _cursor := None; _key := []; _typeBits := tbAllZeros;
     _loc := 0; _eof := false; _cursorAtEof := false;
     _lastMoveWasRestore := false; _query := []; _endPosition := None |}.

Definition set_engine (c : State) (pos : option bytes) (atEof : bool) : State :=
  {| _forward := _forward c; _cursor := pos; _key := _key c;
     _typeBits := _typeBits c; _loc := _loc c; _eof := _eof c;
     _cursorAtEof := atEof; _lastMoveWasRestore := _lastMoveWasRestore c;
     _query := _query c; _endPosition := _endPosition c |}.

Definition set_key (c : State) (k : bytes) : State :=
  {| _forward := _forward c; _cursor := _cursor c; _key := k;
     _typeBits := _typeBits c; _loc := _loc c; _eof := _eof c;
     _cursorAtEof := _cursorAtEof c; _lastMoveWasRestore := _lastMoveWasRestore c;
     _query := _query c; _endPosition := _endPosition c |}.

Definition set_loc (c : State) (loc : RecordId) : State :=
  {| _forward := _forward c; _cursor := _cursor c; _key := _key c;
     _typeBits := _typeBits c; _loc := loc; _eof := _eof c;
     _cursorAtEof := _cursorAtEof c; _lastMoveWasRestore := _lastMoveWasRestore c;
     _query := _query c; _endPosition := _endPosition c |}.

Definition set_typeBits (c : State) (tb : TypeBits) : State :=
  {| _forward := _forward c; _cursor := _cursor c; _key := _key c;
     _typeBits := tb; _loc := _loc c; _eof := _eof c;
     _cursorAtEof := _cursorAtEof c; _lastMoveWasRestore := _lastMoveWasRestore c;
     _query := _query c; _endPosition := _endPosition c |}.

Definition set_eof (c : State) (eof : bool) : State :=
  {| _forward := _forward c; _cursor := _cursor c; _key := _key c;
     _typeBits := _typeBits c; _loc := _loc c; _eof := eof;
     _cursorAtEof := _cursorAtEof c; _lastMoveWasRestore := _lastMoveWasRestore c;
     _query := _query c; _endPosition := _endPosition c |}.

Definition set_lastMoveWasRestore (c : State) (b : bool) : State :=
  {| _forward := _forward c; _cursor := _cursor c; _key := _key c;
     _typeBits := _typeBits c; _loc := _loc c; _eof := _eof c;
     _cursorAtEof := _cursorAtEof c; _lastMoveWasRestore := b;
     _query := _query c; _endPosition := _endPosition c |}.

Definition set_query (c : State) (q : bytes) : State :=
  {| _forward := _forward c; _cursor := _cursor c; _key := _key c;
     _typeBits := _typeBits c; _loc := _loc c; _eof := _eof c;
     _cursorAtEof := _cursorAtEof c; _lastMoveWasRestore := _lastMoveWasRestore c;
     _query := q; _endPosition := _endPosition c |}.

Definition set_endPosition (c : State) (e : option bytes) : State :=
  {| _forward := _forward c; _cursor := _cursor c; _key := _key c;
     _typeBits := _typeBits c; _loc := _loc c; _eof := _eof c;
     _cursorAtEof := _cursorAtEof c; _lastMoveWasRestore := _lastMoveWasRestore c;
     _query := _query c; _endPosition := e |}.

(** [IndexKeyEntry] *)
Definition IndexKeyEntry : Type := BSONObj * RecordId.

(** [atOrPastEndPointAfterSeeking]; the debug assertion [cmp != 0] aborts. *)
Definition atOrPastEndPointAfterSeeking (c : State) : option bool :=
  if _eof c then Some true
  else
    match _endPosition c with
    | None => Some false
    | Some e =>
        match lex_compare (_key c) e with
        | Eq => None
        | Gt => Some (_forward c)
        | Lt => Some (negb (_forward c))
        end
    end.

(** [curr]; [wantKey] is [parts & kWantKey]. *)
Definition curr (c : State) (wantKey : bool) : option (option IndexKeyEntry) :=
  if _eof c then Some None
  else
    match atOrPastEndPointAfterSeeking c with
    | Some false =>
        if _loc c =? 0 then None
        else if wantKey then
          match toBson (_key c) (_typeBits c) with
          | Some bson => Some (Some (bson, _loc c))
          | None => None
          end
        else Some (Some ([], _loc c))
    | _ => None
    end.

(** [advanceWTCursor] *)
Definition advanceWTCursor (t : Table) (c : State) : State :=
  match (if _forward c then wt_next t (_cursor c) else wt_prev t (_cursor c)) with
  | None => set_engine c None true
  | Some k => set_engine c (Some k) false
  end.

(** [seekWTCursor]: returns true on an exact match. *)
Definition seekWTCursor (t : Table) (c : State) (query : bytes)
    (preferBelow : bool) : State * bool :=
  match wt_search_near t query preferBelow with
  | None => (set_engine c None true, false)
  | Some (k, cmp) =>
      let c1 := set_engine c (Some k) false in
      if cmp =? 0 then (c1, true)
      else if (if _forward c then cmp <? 0 else cmp >? 0)
           then (advanceWTCursor t c1, false)
           else (c1, false)
  end.

(** [get_value] of the engine cursor. *)
Definition get_value (t : Table) (c : State) : option bytes :=
  match _cursor c with
  | Some k => t !! k
  | None => None
  end.

(** [updateLocAndTypeBits] of the standard and of the unique cursor; a
    unique cursor that sees more than one record at a key aborts. *)
Definition updateLocAndTypeBits (fl : Flavor) (t : Table) (c : State)
  : option State :=
  match fl with
  | Standard =>
      match decodeRecordIdAtEnd (_key c), get_value t c with
      | Some loc, Some item =>
          match fromBuffer item with
          | Some (tb, _) => Some (set_typeBits (set_loc c loc) tb)
          | None => None
          end
      | _, _ => None
      end
  | Unique =>
      match get_value t c with
      | Some item =>
          match decodeRecordId item with
          | Some (loc, br1) =>
              match fromBuffer br1 with
              | Some (tb, br2) =>
                  if negb (empty_b br2) then None
                  else Some (set_typeBits (set_loc c loc) tb)
              | None => None
              end
          | None => None
          end
      | None => None
      end
  end.

(** [updatePosition] *)
Definition updatePosition (fl : Flavor) (t : Table) (c : State) : option State :=
  let c := set_lastMoveWasRestore c false in
  if _cursorAtEof c then Some (set_loc (set_eof c true) 0)
  else
    let c := set_eof c false in
    match _cursor c with
    | None => None
    | Some item =>
        let c := set_key c item in
        match atOrPastEndPointAfterSeeking c with
        | None => None
        | Some true => Some (set_eof c true)
        | Some false => updateLocAndTypeBits fl t c
        end
    end.

(** [next] *)
Definition next (fl : Flavor) (t : Table) (c : State) (wantKey : bool)
  : option (State * option IndexKeyEntry) :=
  if _eof c then Some (c, None)
  else
    let c1 := if negb (_lastMoveWasRestore c) then advanceWTCursor t c else c in
    match updatePosition fl t c1 with
    | None => None
    | Some c2 =>
        match curr c2 wantKey with
        | None => None
        | Some r => Some (c2, r)
        end
    end.

(** [setEndPosition] *)
Definition setEndPosition (c : State) (key : BSONObj) (inclusive : bool) : State :=
  if isEmpty key then set_endPosition c None
  else
    let discriminator :=
      if eqb (_forward c) inclusive then kExclusiveAfter else kExclusiveBefore in
    set_endPosition c (Some (ks_encode (stripFieldNames key) discriminator)).

(** [seek(key, inclusive, parts)] *)
Definition seek (fl : Flavor) (t : Table) (c : State) (key : BSONObj)
    (inclusive wantKey preferBelow : bool)
  : option (State * option IndexKeyEntry) :=
  let finalKey := stripFieldNames key in
  let discriminator :=
    if eqb (_forward c) inclusive then kExclusiveBefore else kExclusiveAfter in
  let c := set_query c (ks_encode finalKey discriminator) in
  let '(c1, _) := seekWTCursor t c (_query c) preferBelow in
  match updatePosition fl t c1 with
  | None => None
  | Some c2 =>
      match curr c2 wantKey with
      | None => None
      | Some r => Some (c2, r)
      end
  end.

(** [savePositioned] resets the engine cursor; [saveUnpositioned] *)
Definition savePositioned (c : State) : State :=
  set_engine c None (_cursorAtEof c).

Definition saveUnpositioned (c : State) : State :=
  set_eof (savePositioned c) true.

(** [WiredTigerIndexCursorBase::restore] *)
Definition restoreBase (t : Table) (c : State) (preferBelow : bool) : State :=
  if negb (_eof c) then
    let '(c1, exact) := seekWTCursor t c (_key c) preferBelow in
    set_lastMoveWasRestore c1 (negb exact)
  else c.

(** [WiredTigerIndexUniqueCursor::restore] *)
Definition restoreUnique (t : Table) (c : State) (preferBelow : bool)
  : option State :=
  let c := restoreBase t c preferBelow in
  if _lastMoveWasRestore c then Some c
  else if _eof c then Some c
  else
    match get_value t c with
    | None => None
    | Some item =>
        match decodeRecordId item with
        | None => None
        | Some (locInIndex, _) =>
            if locInIndex =? _loc c then Some c
            else
              let c := set_lastMoveWasRestore c true in
              let c := if _forward c && (locInIndex <? _loc c)
                       then advanceWTCursor t c else c in
              let c := if negb (_forward c) && (locInIndex >? _loc c)
                       then advanceWTCursor t c else c in
              Some c
        end
    end.

Definition restore (fl : Flavor) (t : Table) (c : State) (preferBelow : bool)
  : option State :=
  match fl with
  | Standard => Some (restoreBase t c preferBelow)
  | Unique => restoreUnique t c preferBelow
  end.
End Cursor.
End Cursor.

(** ** A small codec

    An instance of the codec contract, used to run the adapter on concrete
    tables.  A value is a string of [n] letters [a], stored as a string or as
    a symbol; both encode alike and the type bits tell them apart.  Numbers
    are written in unary, so that the byte order is the logical order. *)

Module Toy.
Definition Value : Type := nat * bool.
Definition Obj : Type := list (string * Value).

(** BSON layout: 4 bytes of length, the elements, a final zero byte; a
    string element is a type byte, the name, a zero byte, 4 bytes of
    length, the letters and a zero byte. *)
Definition objsize (o : Obj) : Z :=
  5 + fold_right (fun e acc =>
        7 + Z.of_nat (String.length e.1) + Z.of_nat e.2.1 + acc) 0 o.

Fixpoint woCompare (a b : Obj) : comparison :=
  match a, b with
  | [], [] => Eq
  | [], _ :: _ => Lt
  | _ :: _, [] => Gt
  | x :: a', y :: b' =>
      match Nat.compare x.2.1 y.2.1 with
      | Eq => woCompare a' b'
      | c => c
      end
  end.

Definition disc_byte (d : Discriminator) : byte :=
  match d with
  | kExclusiveBefore => x01
  | kInclusive => x04
  | kExclusiveAfter => x05
  end.

Definition enc_value (v : Value) : bytes := x3c :: repeat x61 v.1 ++ [x00].

Definition enc_fields (o : Obj) : bytes := flat_map (fun e => enc_value e.2) o.

Definition encode (o : Obj) (d : Discriminator) : bytes :=
  enc_fields o ++ [disc_byte d].

Fixpoint typeBits (o : Obj) : N :=
  match o with
  | [] => 0%N
  | e :: o' => (N.b2n e.2.2 + 2 * typeBits o')%N
  end.

(** Reads the fields back; [cur] is the count of letters of the field
    being read. *)
Fixpoint parse (b : bytes) (cur : option nat) (tb : N) : option Obj :=
  match b with
  | [] => None
  | x :: b' =>
      match cur with
      | None =>
          if bool_decide (x = x3c) then parse b' (Some O) tb
          else if bool_decide (x = x01 \/ x = x04 \/ x = x05) then Some []
          else None
      | Some n =>
          if bool_decide (x = x61) then parse b' (Some (S n)) tb
          else if bool_decide (x = x00) then
            match parse b' None (N.div2 tb) with
            | Some o => Some ((EmptyString, (n, N.odd tb)) :: o)
            | None => None
            end
          else None
      end
  end.

Definition toBson (b : bytes) (tb : N) : option Obj := parse b None tb.

(** A record id: a sign byte, the magnitude in unary, a zero byte. *)
Definition appendRecordId (r : RecordId) : bytes :=
  (if r <? 0 then x03 else x02) :: repeat x01 (Z.abs_nat r) ++ [x00].

Fixpoint count_ones (b : bytes) (n : nat) : option (nat * bytes) :=
  match b with
  | [] => None
  | x :: b' =>
      if bool_decide (x = x01) then count_ones b' (S n)
      else if bool_decide (x = x00) then Some (n, b')
      else None
  end.

Definition decodeRecordId (b : bytes) : option (RecordId * bytes) :=
  match b with
  | x :: b' =>
      if bool_decide (x = x02) then
        match count_ones b' O with
        | Some (n, rest) => Some (Z.of_nat n, rest)
        | None => None
        end
      else if bool_decide (x = x03) then
        match count_ones b' O with
        | Some (n, rest) => Some (- Z.of_nat n, rest)
        | None => None
        end
      else None
  | [] => None
  end.

(** From the end of the buffer: the zero byte, the ones, the sign byte. *)
Fixpoint ones_back (b : bytes) (n : nat) : option RecordId :=
  match b with
  | [] => None
  | x :: b' =>
      if bool_decide (x = x01) then ones_back b' (S n)
      else if bool_decide (x = x02) then Some (Z.of_nat n)
      else if bool_decide (x = x03) then Some (- Z.of_nat n)
      else None
  end.

Definition decodeRecordIdAtEnd (b : bytes) : option RecordId :=
  match rev b with
  | x :: b' => if bool_decide (x = x00) then ones_back b' O else None
  | [] => None
  end.

Definition appendTypeBits (tb : N) : bytes := repeat x01 (N.to_nat tb) ++ [x00].

Definition fromBuffer (b : bytes) : option (N * bytes) :=
  match b with
  | [] => Some (0%N, [])
  | _ :: _ =>
      match count_ones b O with
      | Some (n, rest) => Some (N.of_nat n, rest)
      | None => None
      end
  end.
End Toy.

(** * Properties *)

(** ** The byte order is a total order *)

Lemma byte_to_N_inj (x y : byte) : Byte.to_N x = Byte.to_N y -> x = y.
Proof.
  intros E. apply (f_equal Byte.of_N) in E.
  rewrite !Byte.of_to_N in E. congruence.
Qed.

Lemma lex_compare_refl (a : bytes) : lex_compare a a = Eq.
Proof.
  induction a as [|x a IH]; simpl; [reflexivity|].
  rewrite N.compare_refl. exact IH.
Qed.

Lemma lex_compare_eq (a b : bytes) : lex_compare a b = Eq -> a = b.
Proof.
  revert b. induction a as [|x a IH]; intros [|y b]; simpl; try congruence.
  destruct (N.compare_spec (Byte.to_N x) (Byte.to_N y)) as [E| |]; try congruence.
  intros Hab. f_equal; [apply byte_to_N_inj, E | apply IH, Hab].
Qed.

Lemma lex_compare_antisym (a b : bytes) :
  lex_compare b a = CompOpp (lex_compare a b).
Proof.
  revert b. induction a as [|x a IH]; intros [|y b]; simpl; try reflexivity.
  rewrite (N.compare_antisym (Byte.to_N x) (Byte.to_N y)).
  destruct (Byte.to_N x ?= Byte.to_N y)%N; simpl; auto.
Qed.

Lemma lex_compare_trans (a b c : bytes) :
  lex_compare a b = Lt -> lex_compare b c = Lt -> lex_compare a c = Lt.
Proof.
  revert b c. induction a as [|x a IH]; intros [|y b] [|z c]; simpl; try congruence.
  destruct (N.compare_spec (Byte.to_N x) (Byte.to_N y)) as [E|L|G]; try congruence;
  destruct (N.compare_spec (Byte.to_N y) (Byte.to_N z)) as [E'|L'|G']; try congruence;
  intros H1 H2.
  - rewrite E, E', N.compare_refl. eapply IH; eassumption.
  - rewrite E. destruct (N.compare_spec (Byte.to_N y) (Byte.to_N z)); [lia|reflexivity|lia].
  - rewrite <- E'. destruct (N.compare_spec (Byte.to_N x) (Byte.to_N y)); [lia|reflexivity|lia].
  - destruct (N.compare_spec (Byte.to_N x) (Byte.to_N z)); [lia|reflexivity|lia].
Qed.

Lemma lex_compare_Gt_Lt (a b : bytes) :
  lex_compare a b = Gt <-> lex_compare b a = Lt.
Proof.
  rewrite (lex_compare_antisym a b).
  destruct (lex_compare a b); simpl; split; congruence.
Qed.

Lemma lex_ltb_Lt (a b : bytes) : lex_ltb a b = true <-> lex_compare a b = Lt.
Proof. unfold lex_ltb. destruct (lex_compare a b); split; congruence. Qed.

Lemma lex_ltb_irrefl (a : bytes) : lex_ltb a a = false.
Proof. unfold lex_ltb. rewrite lex_compare_refl. reflexivity. Qed.

(** [a <= b] in the byte order. *)
Definition lex_le (a b : bytes) : Prop := lex_compare a b <> Gt.

Lemma lex_le_refl (a : bytes) : lex_le a a.
Proof. unfold lex_le. rewrite lex_compare_refl. discriminate. Qed.

Lemma lex_lt_le (a b : bytes) : lex_compare a b = Lt -> lex_le a b.
Proof. unfold lex_le. congruence. Qed.

Lemma lex_le_lt_trans (a b c : bytes) :
  lex_le a b -> lex_compare b c = Lt -> lex_compare a c = Lt.
Proof.
  unfold lex_le. intros Hab Hbc.
  destruct (lex_compare a b) eqn:E; [|eauto using lex_compare_trans|congruence].
  apply lex_compare_eq in E. subst. exact Hbc.
Qed.

Lemma lex_lt_le_trans (a b c : bytes) :
  lex_compare a b = Lt -> lex_le b c -> lex_compare a c = Lt.
Proof.
  unfold lex_le. intros Hab Hbc.
  destruct (lex_compare b c) eqn:E; [|eauto using lex_compare_trans|congruence].
  apply lex_compare_eq in E. subst. exact Hab.
Qed.

Lemma lex_le_trans (a b c : bytes) : lex_le a b -> lex_le b c -> lex_le a c.
Proof.
  intros Hab Hbc. destruct (lex_compare b c) eqn:E.
  - apply lex_compare_eq in E. subst. exact Hab.
  - apply lex_lt_le. eapply lex_le_lt_trans; eassumption.
  - contradiction.
Qed.

Lemma lex_not_lt_le (a b : bytes) : lex_ltb a b = false -> lex_le b a.
Proof.
  unfold lex_ltb, lex_le. rewrite (lex_compare_antisym a b).
  destruct (lex_compare a b); simpl; congruence.
Qed.

(** ** The engine's ordered searches *)

Lemma elem_of_keys_of (t : gmap bytes bytes) (k : bytes) :
  k ∈ keys_of t <-> is_Some (t !! k).
Proof.
  unfold keys_of. rewrite list_elem_of_fmap. split.
  - intros [[k' v] [-> Hin]]. apply elem_of_map_to_list in Hin. simpl. eauto.
  - intros [v Hv]. exists (k, v). split; [reflexivity|].
    apply elem_of_map_to_list. exact Hv.
Qed.

Section ListSearch.
Variable q : bytes.

Definition above_step (k : bytes) (acc : option bytes) : option bytes :=
  if lex_ltb q k then pick_min k acc else acc.

Definition below_step (k : bytes) (acc : option bytes) : option bytes :=
  if lex_ltb k q then pick_max k acc else acc.

Lemma pick_min_Some (k : bytes) (acc : option bytes) : is_Some (pick_min k acc).
Proof. destruct acc as [m|]; simpl; [destruct (lex_ltb k m)|]; eauto. Qed.

Lemma pick_max_Some (k : bytes) (acc : option bytes) : is_Some (pick_max k acc).
Proof. destruct acc as [m|]; simpl; [destruct (lex_ltb m k)|]; eauto. Qed.

Lemma foldr_above_None (l : list bytes) :
  foldr above_step None l = None ->
  forall k', k' ∈ l -> lex_compare q k' <> Lt.
Proof.
  induction l as [|x l IH]; simpl; intros Hn k' Hk'; [inversion Hk'|].
  unfold above_step at 1 in Hn.
  destruct (lex_ltb q x) eqn:Hqx.
  - destruct (pick_min_Some x (foldr above_step None l)) as [m Hm]. congruence.
  - apply elem_of_cons in Hk' as [Hk'|Hk']; [subst k'|auto].
    intros Hlt. apply lex_ltb_Lt in Hlt. congruence.
Qed.

Lemma foldr_above_Some (l : list bytes) (k : bytes) :
  foldr above_step None l = Some k ->
  k ∈ l /\ lex_compare q k = Lt /\
  forall k', k' ∈ l -> lex_compare q k' = Lt -> lex_le k k'.
Proof.
  revert k. induction l as [|x l IH]; simpl; intros k Hk; [discriminate|].
  unfold above_step at 1 in Hk.
  destruct (lex_ltb q x) eqn:Hqx.
  - apply lex_ltb_Lt in Hqx.
    destruct (foldr above_step None l) as [m|] eqn:Hm; simpl in Hk.
    + destruct (IH m eq_refl) as (Hin & Hqm & Hmin).
      destruct (lex_ltb x m) eqn:Hxm; inversion Hk; subst k; clear Hk.
      * apply lex_ltb_Lt in Hxm. split; [left|split; [assumption|]].
        intros k' Hk' Hq'. apply elem_of_cons in Hk' as [Hk'|Hk'].
        -- subst k'. apply lex_le_refl.
        -- apply lex_lt_le. eapply lex_lt_le_trans; eauto.
      * apply lex_not_lt_le in Hxm. split; [right; assumption|split; [assumption|]].
        intros k' Hk' Hq'. apply elem_of_cons in Hk' as [Hk'|Hk']; [subst k'|]; auto.
    + inversion Hk; subst k. split; [left|split; [assumption|]].
      intros k' Hk' Hq'. apply elem_of_cons in Hk' as [Hk'|Hk'].
      * subst k'. apply lex_le_refl.
      * exfalso. exact (foldr_above_None l Hm k' Hk' Hq').
  - destruct (IH k Hk) as (Hin & Hqk & Hmin).
    split; [right; assumption|split; [assumption|]].
    intros k' Hk' Hq'. apply elem_of_cons in Hk' as [Hk'|Hk']; [subst k'|]; auto.
    apply lex_ltb_Lt in Hq'. congruence.
Qed.

Lemma foldr_below_None (l : list bytes) :
  foldr below_step None l = None ->
  forall k', k' ∈ l -> lex_compare k' q <> Lt.
Proof.
  induction l as [|x l IH]; simpl; intros Hn k' Hk'; [inversion Hk'|].
  unfold below_step at 1 in Hn.
  destruct (lex_ltb x q) eqn:Hqx.
  - destruct (pick_max_Some x (foldr below_step None l)) as [m Hm]. congruence.
  - apply elem_of_cons in Hk' as [Hk'|Hk']; [subst k'|auto].
    intros Hlt. apply lex_ltb_Lt in Hlt. congruence.
Qed.

Lemma foldr_below_Some (l : list bytes) (k : bytes) :
  foldr below_step None l = Some k ->
  k ∈ l /\ lex_compare k q = Lt /\
  forall k', k' ∈ l -> lex_compare k' q = Lt -> lex_le k' k.
Proof.
  revert k. induction l as [|x l IH]; simpl; intros k Hk; [discriminate|].
  unfold below_step at 1 in Hk.
  destruct (lex_ltb x q) eqn:Hqx.
  - apply lex_ltb_Lt in Hqx.
    destruct (foldr below_step None l) as [m|] eqn:Hm; simpl in Hk.
    + destruct (IH m eq_refl) as (Hin & Hqm & Hmax).
      destruct (lex_ltb m x) eqn:Hxm; inversion Hk; subst k; clear Hk.
      * apply lex_ltb_Lt in Hxm. split; [left|split; [assumption|]].
        intros k' Hk' Hq'. apply elem_of_cons in Hk' as [Hk'|Hk'].
        -- subst k'. apply lex_le_refl.
        -- apply lex_lt_le. eapply lex_le_lt_trans; eauto.
      * apply lex_not_lt_le in Hxm. split; [right; assumption|split; [assumption|]].
        intros k' Hk' Hq'. apply elem_of_cons in Hk' as [Hk'|Hk']; [subst k'|]; auto.
    + inversion Hk; subst k. split; [left|split; [assumption|]].
      intros k' Hk' Hq'. apply elem_of_cons in Hk' as [Hk'|Hk'].
      * subst k'. apply lex_le_refl.
      * exfalso. exact (foldr_below_None l Hm k' Hk' Hq').
  - destruct (IH k Hk) as (Hin & Hqk & Hmax).
    split; [right; assumption|split; [assumption|]].
    intros k' Hk' Hq'. apply elem_of_cons in Hk' as [Hk'|Hk']; [subst k'|]; auto.
    apply lex_ltb_Lt in Hq'. congruence.
Qed.
End ListSearch.

Lemma least_above_Some (q : bytes) (t : gmap bytes bytes) (k : bytes) :
  least_above q t = Some k ->
  is_Some (t !! k) /\ lex_compare q k = Lt /\
  forall k', is_Some (t !! k') -> lex_compare q k' = Lt -> lex_le k k'.
Proof.
  intros Hk. apply (foldr_above_Some q) in Hk as (Hin & Hq & Hmin).
  split; [apply elem_of_keys_of, Hin|split; [exact Hq|]].
  intros k' Hk'. apply Hmin, elem_of_keys_of, Hk'.
Qed.

Lemma least_above_None (q : bytes) (t : gmap bytes bytes) :
  least_above q t = None ->
  forall k', is_Some (t !! k') -> lex_compare q k' <> Lt.
Proof.
  intros Hn k' Hk'. apply (foldr_above_None q _ Hn), elem_of_keys_of, Hk'.
Qed.

Lemma greatest_below_Some (q : bytes) (t : gmap bytes bytes) (k : bytes) :
  greatest_below q t = Some k ->
  is_Some (t !! k) /\ lex_compare k q = Lt /\
  forall k', is_Some (t !! k') -> lex_compare k' q = Lt -> lex_le k' k.
Proof.
  intros Hk. apply (foldr_below_Some q) in Hk as (Hin & Hq & Hmax).
  split; [apply elem_of_keys_of, Hin|split; [exact Hq|]].
  intros k' Hk'. apply Hmax, elem_of_keys_of, Hk'.
Qed.

Lemma greatest_below_None (q : bytes) (t : gmap bytes bytes) :
  greatest_below q t = None ->
  forall k', is_Some (t !! k') -> lex_compare k' q <> Lt.
Proof.
  intros Hn k' Hk'. apply (foldr_below_None q _ Hn), elem_of_keys_of, Hk'.
Qed.


(** ** Duplicate lists and their encoding *)

Section DuplicateList.
Context `{KeyStringCodec}.

(** The records written one after the other, each with its type bits. *)
Definition encode_full (records : list (RecordId * TypeBits)) : bytes :=
  flat_map (fun r => appendRecordId r.1 ++ appendTypeBits r.2) records.

(** [decodes v records]: the value [v] reads back as [records].  The last
    record may come without type bits, which then read as all zero. *)
Inductive decodes : bytes -> list (RecordId * TypeBits) -> Prop :=
| decodes_nil : decodes [] []
| decodes_bare l : decodes (appendRecordId l) [(l, tbAllZeros)]
| decodes_cons l tb v records :
    decodes v records ->
    decodes (appendRecordId l ++ appendTypeBits tb ++ v) ((l, tb) :: records).

Lemma appendRecordId_nonempty (r : RecordId) : appendRecordId r <> [].
Proof.
  intros E.
  pose proof (decodeRecordId_append r (appendRecordId (r + 1))) as H1.
  pose proof (decodeRecordId_append (r + 1) []) as H2.
  rewrite E in H1. simpl in H1. rewrite app_nil_r in H2.
  rewrite H1 in H2. inversion H2. lia.
Qed.

Lemma appendRecordId_cons (r : RecordId) :
  exists x b, appendRecordId r = x :: b.
Proof.
  pose proof (appendRecordId_nonempty r).
  destruct (appendRecordId r) as [|x b]; [congruence|eauto].
Qed.

Lemma encode_full_app (a b : list (RecordId * TypeBits)) :
  encode_full (a ++ b) = encode_full a ++ encode_full b.
Proof. unfold encode_full. apply flat_map_app. Qed.

Lemma encode_full_one (l : RecordId) (tb : TypeBits) :
  encode_full [(l, tb)] = appendRecordId l ++ appendTypeBits tb.
Proof. unfold encode_full. simpl. rewrite app_nil_r. reflexivity. Qed.

Lemma decodes_encode_full (records : list (RecordId * TypeBits)) :
  decodes (encode_full records) records.
Proof.
  induction records as [|[l tb] records IH]; simpl; [constructor|].
  rewrite <- app_assoc. constructor. exact IH.
Qed.

Lemma encode_records_full (records : list (RecordId * TypeBits)) :
  (forall l tb, records = [(l, tb)] -> isAllZeros tb = false) ->
  encode_records records = encode_full records.
Proof.
  intros Hne. unfold encode_records, encode_full.
  destruct records as [|[l tb] [|r2 records]]; [reflexivity| |].
  - simpl. rewrite (Hne l tb eq_refl). reflexivity.
  - apply flat_map_ext. intros [l' tb'].
    simpl. rewrite andb_false_r. reflexivity.
Qed.

Lemma encode_records_bare (l : RecordId) (tb : TypeBits) :
  isAllZeros tb = true -> encode_records [(l, tb)] = appendRecordId l.
Proof.
  intros Hz. unfold encode_records. simpl. rewrite Hz. simpl.
  rewrite !app_nil_r. reflexivity.
Qed.

Lemma decodes_encode_records (records : list (RecordId * TypeBits)) :
  decodes (encode_records records) records.
Proof.
  destruct records as [|[l tb] [|r2 records]].
  - constructor.
  - destruct (isAllZeros tb) eqn:Hz.
    + rewrite encode_records_bare by assumption.
      rewrite (isAllZeros_canon tb Hz). constructor.
    + rewrite encode_records_full; [apply decodes_encode_full|].
      intros ? ? E. inversion E; subst. assumption.
  - rewrite encode_records_full; [apply decodes_encode_full|].
    intros ? ? E. inversion E.
Qed.

Lemma decodes_length (v : bytes) (records : list (RecordId * TypeBits)) :
  decodes v records -> (length records <= length v)%nat.
Proof.
  induction 1 as [|l|l tb v records Hd IH]; simpl.
  - lia.
  - destruct (appendRecordId_cons l) as (x & b & ->). simpl. lia.
  - destruct (appendRecordId_cons l) as (x & b & ->). simpl.
    rewrite length_app, length_app. lia.
Qed.

Lemma decodes_nil_inv (records : list (RecordId * TypeBits)) :
  decodes [] records -> records = [].
Proof.
  inversion 1 as [|l E|l tb v rs Hd E]; [reflexivity| |].
  - exfalso. apply (appendRecordId_nonempty l). congruence.
  - destruct (appendRecordId_cons l) as (x & b & Hx). rewrite Hx in E. discriminate.
Qed.

(** *** The scan of [_insert] *)

(** What the scan computes, on the decoded records. *)
Fixpoint insert_spec (loc : RecordId) (tb : TypeBits)
    (records : list (RecordId * TypeBits)) (insertedLoc : bool)
    (acc : list (RecordId * TypeBits)) : option (bool * list (RecordId * TypeBits)) :=
  match records with
  | [] => Some (insertedLoc, acc)
  | (l, b) :: rs =>
      if loc =? l then None
      else if negb insertedLoc && (loc <? l)
           then insert_spec loc tb rs true (acc ++ [(loc, tb); (l, b)])
           else insert_spec loc tb rs insertedLoc (acc ++ [(l, b)])
  end.

Definition insert_result (r : option (bool * list (RecordId * TypeBits))) : InsertScan :=
  match r with
  | None => AlreadyInIndex
  | Some (i, rs) => Rebuilt i (encode_full rs)
  end.

Lemma insert_scan_decodes (v : bytes) (records : list (RecordId * TypeBits)) :
  decodes v records ->
  forall fuel loc tb insertedLoc acc,
    (length records <= fuel)%nat ->
    insert_scan fuel loc tb v insertedLoc (encode_full acc)
    = Some (insert_result (insert_spec loc tb records insertedLoc acc)).
Proof.
  induction 1 as [|l|l b v records Hd IH]; intros fuel loc tb ins acc Hfuel.
  - destruct fuel; reflexivity.
  - simpl in Hfuel. destruct fuel as [|fuel]; [lia|].
    destruct (appendRecordId_cons l) as (x & bs & Hx).
    simpl. rewrite Hx. rewrite <- Hx.
    rewrite <- (app_nil_r (appendRecordId l)) at 1.
    rewrite decodeRecordId_append.
    destruct (loc =? l); [reflexivity|].
    rewrite fromBuffer_nil.
    destruct (negb ins && (loc <? l)); simpl;
      (destruct fuel; simpl; rewrite !encode_full_app; unfold encode_full; simpl;
       rewrite ?app_nil_r, <- ?app_assoc; reflexivity).
  - simpl in Hfuel. destruct fuel as [|fuel]; [lia|].
    destruct (appendRecordId_cons l) as (x & bs & Hx).
    simpl. rewrite Hx. simpl. rewrite app_comm_cons, <- Hx.
    rewrite decodeRecordId_append.
    destruct (loc =? l); [reflexivity|].
    rewrite fromBuffer_append.
    destruct (negb ins && (loc <? l)); simpl.
    + rewrite <- (IH fuel loc tb true (acc ++ [(loc, tb); (l, b)])) by lia.
      f_equal. rewrite !encode_full_app. unfold encode_full at 3. simpl.
      rewrite ?app_nil_r, <- ?app_assoc. reflexivity.
    + rewrite <- (IH fuel loc tb ins (acc ++ [(l, b)])) by lia.
      f_equal. rewrite !encode_full_app, encode_full_one.
      rewrite <- ?app_assoc. reflexivity.
Qed.
End DuplicateList.

(** ** The unique index: insert *)

Section UniqueInsert.
Context `{KeyStringCodec}.

(** The loc spliced in before the first stored loc greater than it, or
    appended at the end. *)
Fixpoint insert_sorted (loc : RecordId) (tb : TypeBits)
    (records : list (RecordId * TypeBits)) : list (RecordId * TypeBits) :=
  match records with
  | [] => [(loc, tb)]
  | (l, b) :: rs =>
      if loc <? l then (loc, tb) :: (l, b) :: rs
      else (l, b) :: insert_sorted loc tb rs
  end.

Lemma insert_spec_found loc tb records ins acc :
  loc ∈ records.*1 -> insert_spec loc tb records ins acc = None.
Proof.
  revert ins acc. induction records as [|[l b] rs IH]; intros ins acc Hin.
  - inversion Hin.
  - simpl in *. destruct (Z.eqb_spec loc l) as [|Hne]; [reflexivity|].
    apply elem_of_cons in Hin as [Hin|Hin]; [contradiction|].
    destruct (negb ins && (loc <? l)); apply IH, Hin.
Qed.

Lemma insert_spec_inserted loc tb records acc :
  loc ∉ records.*1 ->
  insert_spec loc tb records true acc = Some (true, acc ++ records).
Proof.
  revert acc. induction records as [|[l b] rs IH]; intros acc Hin; simpl.
  - rewrite app_nil_r. reflexivity.
  - simpl in Hin. apply not_elem_of_cons in Hin as [Hne Hin].
    destruct (Z.eqb_spec loc l) as [|_]; [contradiction|].
    rewrite IH by assumption. rewrite <- app_assoc. reflexivity.
Qed.

(** The value [_insert] writes is the old list with the loc spliced in. *)
Lemma insert_spec_sorted loc tb records acc :
  loc ∉ records.*1 ->
  exists i rs,
    insert_spec loc tb records false acc = Some (i, rs) /\
    (if i then rs else rs ++ [(loc, tb)]) = acc ++ insert_sorted loc tb records.
Proof.
  revert acc. induction records as [|[l b] rs IH]; intros acc Hin; simpl.
  - eauto.
  - simpl in Hin. apply not_elem_of_cons in Hin as [Hne Hin].
    destruct (Z.eqb_spec loc l) as [|_]; [contradiction|].
    destruct (loc <? l); simpl.
    + rewrite insert_spec_inserted by assumption.
      eexists _, _. split; [reflexivity|].
      rewrite <- app_assoc. reflexivity.
    + destruct (IH (acc ++ [(l, b)]) Hin) as (i & rs' & -> & Hrs).
      eexists _, _. split; [reflexivity|].
      rewrite Hrs, <- app_assoc. reflexivity.
Qed.

Lemma insert_sorted_locs loc tb records l :
  l ∈ (insert_sorted loc tb records).*1 <-> l = loc \/ l ∈ records.*1.
Proof.
  induction records as [|[l' b] rs IH]; simpl.
  - rewrite elem_of_cons. reflexivity.
  - destruct (loc <? l'); simpl; rewrite !elem_of_cons; [tauto|].
    rewrite IH. tauto.
Qed.

Lemma insert_sorted_typeBits loc tb records (P : TypeBits -> Prop) :
  P tb -> Forall (fun r => P r.2) records ->
  Forall (fun r => P r.2) (insert_sorted loc tb records).
Proof.
  intros Htb. induction 1 as [|[l b] rs Hb Hrs IH]; simpl.
  - constructor; [exact Htb|constructor].
  - destruct (loc <? l); repeat constructor; assumption.
Qed.

Lemma insert_sorted_length loc tb records :
  length (insert_sorted loc tb records) = S (length records).
Proof.
  induction records as [|[l b] rs IH]; simpl; [reflexivity|].
  destruct (loc <? l); simpl; congruence.
Qed.

(** Ascending and distinct. *)
Definition ascending (locs : list RecordId) : Prop := StronglySorted Z.lt locs.

Lemma insert_sorted_ascending loc tb records :
  loc ∉ records.*1 ->
  ascending records.*1 -> ascending (insert_sorted loc tb records).*1.
Proof.
  unfold ascending. induction records as [|[l b] rs IH]; simpl; intros Hin Hs.
  - repeat constructor.
  - apply not_elem_of_cons in Hin as [Hne Hin].
    apply StronglySorted_inv in Hs as [Hs Hall].
    destruct (Z.ltb_spec loc l) as [Hlt|Hge]; simpl.
    + constructor; [constructor; assumption|].
      constructor; [exact Hlt|].
      eapply Forall_impl; [exact Hall|]. simpl. intros; lia.
    + constructor; [apply IH; assumption|].
      apply Forall_forall. intros x Hx.
      apply insert_sorted_locs in Hx as [->|Hx]; [lia|].
      rewrite Forall_forall in Hall. apply Hall, Hx.
Qed.

Lemma ascending_NoDup (locs : list RecordId) : ascending locs -> NoDup locs.
Proof.
  induction 1 as [|x l Hs IH Hall]; constructor; [|assumption].
  intros Hin. rewrite Forall_forall in Hall. specialize (Hall x Hin). lia.
Qed.

(** [insert] on legal arguments is [_insert]. *)
Lemma insert_legal (fl : Flavor) (t : gmap bytes bytes) (key : BSONObj)
    (loc : RecordId) (dupsAllowed : bool) :
  isNormal loc = true -> hasFieldNames key = false ->
  objsize key < TempKeyMaxSize ->
  insert fl t key loc dupsAllowed = _insert fl t key loc dupsAllowed.
Proof.
  intros Hn Hf Hs. unfold insert, checkKeySize. rewrite Hn, Hf. simpl.
  destruct (Z.geb_spec (objsize key) TempKeyMaxSize); [lia|reflexivity].
Qed.

(** No row at the key: the row of the single record is written. *)
Lemma unique_insert_fresh (t : gmap bytes bytes) (key : BSONObj)
    (loc : RecordId) (dupsAllowed : bool) :
  t !! ks_encode key kInclusive = None ->
  unique_insert t key loc dupsAllowed
  = Some (OK, <[ks_encode key kInclusive := encode_records [(loc, ks_typeBits key)]]> t).
Proof.
  intros Hnone. unfold unique_insert, wt_insert. rewrite Hnone. simpl.
  do 3 f_equal. unfold encode_records. simpl.
  destruct (isAllZeros (ks_typeBits key)); simpl; rewrite ?app_nil_r; reflexivity.
Qed.

(** A row at the key: the scan decides. *)
Lemma unique_insert_existing (t : gmap bytes bytes) (key : BSONObj)
    (loc : RecordId) (dupsAllowed : bool) (v : bytes)
    (records : list (RecordId * TypeBits)) :
  t !! ks_encode key kInclusive = Some v ->
  decodes v records ->
  unique_insert t key loc dupsAllowed
  = Some (if bool_decide (loc ∈ records.*1) then (OK, t)
          else if negb dupsAllowed then (DuplicateKey, t)
          else (OK, <[ks_encode key kInclusive :=
                        encode_full (insert_sorted loc (ks_typeBits key) records)]> t)).
Proof.
  intros Hv Hd. unfold unique_insert, wt_insert, wt_search.
  rewrite Hv. simpl. rewrite Hv. simpl.
  change (@nil byte) with (encode_full []).
  rewrite (insert_scan_decodes v records Hd) by (apply decodes_length, Hd).
  case_bool_decide as Hin.
  - rewrite insert_spec_found by assumption. reflexivity.
  - destruct (insert_spec_sorted loc (ks_typeBits key) records [] Hin)
      as (i & rs & -> & Hrs).
    simpl in *. destruct dupsAllowed; simpl; [|reflexivity].
    unfold wt_update. rewrite Hv. simpl. do 3 f_equal.
    rewrite <- Hrs. destruct i; simpl; [reflexivity|].
    rewrite encode_full_app, encode_full_one. reflexivity.
Qed.
End UniqueInsert.

(** ** The small codec meets the contract *)

Module ToyLaws.
Import Toy.

#[local] Arguments N.compare : simpl never.

Lemma count_ones_repeat (n k : nat) (rest : bytes) :
  count_ones (repeat x01 n ++ x00 :: rest) k = Some ((n + k)%nat, rest).
Proof.
  revert k. induction n as [|n IH]; intros k; simpl; [reflexivity|].
  rewrite IH. replace (n + S k)%nat with (S (n + k)) by lia. reflexivity.
Qed.

Lemma decodeRecordId_append (r : RecordId) (rest : bytes) :
  decodeRecordId (appendRecordId r ++ rest) = Some (r, rest).
Proof.
  unfold appendRecordId, decodeRecordId.
  destruct (Z.ltb_spec r 0); simpl; rewrite <- app_assoc; simpl;
    rewrite count_ones_repeat; do 2 f_equal; lia.
Qed.

Lemma ones_back_repeat (n k : nat) (sign : byte) (rest : bytes) :
  sign = x02 \/ sign = x03 ->
  ones_back (repeat x01 n ++ sign :: rest) k
  = Some (if bool_decide (sign = x02) then Z.of_nat (n + k) else - Z.of_nat (n + k)).
Proof.
  intros Hs. revert k. induction n as [|n IH]; intros k; simpl.
  - destruct Hs as [-> | ->]; reflexivity.
  - rewrite IH. replace (n + S k)%nat with (S (n + k)) by lia. reflexivity.
Qed.

Lemma rev_repeat {A} (x : A) (n : nat) : rev (repeat x n) = repeat x n.
Proof.
  induction n as [|n IH]; simpl; [reflexivity|].
  rewrite IH. clear IH. induction n as [|n IH]; simpl; [reflexivity|].
  rewrite IH. reflexivity.
Qed.

Lemma decodeRecordIdAtEnd_append (k : bytes) (r : RecordId) :
  decodeRecordIdAtEnd (k ++ appendRecordId r) = Some r.
Proof.
  unfold decodeRecordIdAtEnd, appendRecordId.
  rewrite rev_app_distr. simpl. rewrite rev_app_distr. simpl.
  rewrite rev_repeat, <- app_assoc. simpl.
  rewrite ones_back_repeat by (destruct (r <? 0); auto).
  destruct (Z.ltb_spec r 0); simpl; f_equal; lia.
Qed.

Lemma fromBuffer_append (tb : N) (rest : bytes) :
  fromBuffer (appendTypeBits tb ++ rest) = Some (tb, rest).
Proof.
  unfold fromBuffer, appendTypeBits. rewrite <- app_assoc. simpl.
  pose proof (count_ones_repeat (N.to_nat tb) 0 rest) as Hc.
  destruct (repeat x01 (N.to_nat tb) ++ x00 :: rest) as [|x b] eqn:E.
  - destruct (N.to_nat tb); discriminate.
  - rewrite Hc. do 2 f_equal. lia.
Qed.

Lemma cmp_letters (n m : nat) (X Y : bytes) :
  lex_compare (repeat x61 n ++ x00 :: X) (repeat x61 m ++ x00 :: Y)
  = match Nat.compare n m with Eq => lex_compare X Y | c => c end.
Proof.
  revert m. induction n as [|n IH]; intros [|m]; simpl; try reflexivity.
  apply IH.
Qed.

(** The encodings of two keys compare as the keys do, when what follows
    them starts below the type byte of a field. *)
Lemma cmp_fields (a b : Obj) (da db : byte) (ta tb : bytes) :
  (Byte.to_N da < 60)%N -> (Byte.to_N db < 60)%N ->
  lex_compare (enc_fields a ++ da :: ta) (enc_fields b ++ db :: tb)
  = match woCompare a b with
    | Eq => lex_compare (da :: ta) (db :: tb)
    | c => c
    end.
Proof.
  intros Ha Hb. revert b.
  induction a as [|[na [n sa]] a IH]; intros [|[nb [m sb]] b]; simpl.
  - reflexivity.
  - destruct (N.compare_spec (Byte.to_N da) 60); [lia|reflexivity|lia].
  - destruct (N.compare_spec 60 (Byte.to_N db)); [lia|lia|reflexivity].
  - rewrite <- !app_assoc. simpl. rewrite cmp_letters.
    destruct (Nat.compare n m); [|reflexivity|reflexivity].
    apply IH.
Qed.

Lemma ks_compare (a b : Obj) :
  lex_compare (encode a kInclusive) (encode b kInclusive) = woCompare a b.
Proof.
  unfold encode. simpl. rewrite cmp_fields by (simpl; lia).
  destruct (woCompare a b); reflexivity.
Qed.

Lemma ks_mono (a b : Obj) (s s' : bytes) :
  woCompare a b = Lt ->
  lex_compare (encode a kInclusive ++ s) (encode b kInclusive ++ s') = Lt.
Proof.
  intros Hlt. unfold encode. simpl. rewrite <- !app_assoc. simpl.
  rewrite cmp_fields by (simpl; lia). rewrite Hlt. reflexivity.
Qed.

Lemma ks_before (a b : Obj) (s : bytes) :
  lex_compare (encode a kInclusive ++ s) (encode b kExclusiveBefore)
  = match woCompare a b with Lt => Lt | _ => Gt end.
Proof.
  unfold encode. simpl. rewrite <- !app_assoc. simpl.
  rewrite cmp_fields by (simpl; lia). destruct (woCompare a b); reflexivity.
Qed.

Lemma ks_after (a b : Obj) (s : bytes) :
  lex_compare (encode a kInclusive ++ s) (encode b kExclusiveAfter)
  = match woCompare a b with Gt => Gt | _ => Lt end.
Proof.
  unfold encode. simpl. rewrite <- !app_assoc. simpl.
  rewrite cmp_fields by (simpl; lia).
  destruct (woCompare a b); reflexivity.
Qed.

Lemma parse_letters (n k : nat) (rest : bytes) (tb : N) :
  parse (repeat x61 n ++ x00 :: rest) (Some k) tb
  = match parse rest None (N.div2 tb) with
    | Some o => Some ((EmptyString, ((n + k)%nat, N.odd tb)) :: o)
    | None => None
    end.
Proof.
  revert k. induction n as [|n IH]; intros k; simpl; [reflexivity|].
  rewrite IH. replace (n + S k)%nat with (S (n + k)) by lia. reflexivity.
Qed.

Lemma div2_bit (b : bool) (x : N) : N.div2 (N.b2n b + 2 * x) = x.
Proof. destruct b, x; reflexivity. Qed.

Lemma odd_bit (b : bool) (x : N) : N.odd (N.b2n b + 2 * x) = b.
Proof. destruct b, x; reflexivity. Qed.

Lemma toBson_encode (a : Obj) (s : bytes) :
  hasFieldNames a = false ->
  toBson (encode a kInclusive ++ s) (typeBits a) = Some a.
Proof.
  unfold toBson, encode. rewrite <- app_assoc. simpl.
  induction a as [|[name [n sym]] a IH]; simpl; intros Hf; [reflexivity|].
  apply orb_false_elim in Hf as [Hname Hf].
  unfold has_name in Hname. simpl in Hname.
  destruct name; [|discriminate].
  rewrite <- !app_assoc. simpl. rewrite parse_letters.
  rewrite div2_bit, odd_bit.
  fold (enc_fields a). rewrite (IH Hf).
  replace (n + 0)%nat with n by lia. reflexivity.
Qed.
End ToyLaws.

(** The small codec as an instance of the contract. *)
Definition toyCodec : KeyStringCodec := {|
  BSONValue := Toy.Value;
  TypeBits := N;
  objsize := Toy.objsize;
  woCompare := Toy.woCompare;
  ks_encode := Toy.encode;
  ks_typeBits := Toy.typeBits;
  toBson := Toy.toBson;
  appendRecordId := Toy.appendRecordId;
  decodeRecordId := Toy.decodeRecordId;
  decodeRecordIdAtEnd := Toy.decodeRecordIdAtEnd;
  tbAllZeros := 0%N;
  isAllZeros := N.eqb 0%N;
  tb_getBuffer := Toy.appendTypeBits;
  appendTypeBits := Toy.appendTypeBits;
  fromBuffer := Toy.fromBuffer;
  decodeRecordId_append := ToyLaws.decodeRecordId_append;
  decodeRecordIdAtEnd_append := ToyLaws.decodeRecordIdAtEnd_append;
  isAllZeros_tbAllZeros := eq_refl;
  isAllZeros_canon := fun tb E => eq_sym (proj1 (N.eqb_eq 0 tb) E);
  fromBuffer_nil := eq_refl;
  fromBuffer_append := ToyLaws.fromBuffer_append;
  fromBuffer_getBuffer := fun tb _ =>
    eq_trans (f_equal Toy.fromBuffer (eq_sym (app_nil_r _)))
             (ToyLaws.fromBuffer_append tb []);
  ks_compare := fun a b _ _ => ToyLaws.ks_compare a b;
  ks_mono := fun a b s s' _ _ => ToyLaws.ks_mono a b s s';
  ks_before := fun a b s _ _ => ToyLaws.ks_before a b s;
  ks_after := fun a b s _ _ => ToyLaws.ks_after a b s;
  toBson_encode := ToyLaws.toBson_encode
|}.

(** * The claims *)

(** Keys and tables of the small codec, for running the adapter. *)
Definition toy_key (n : nat) : list (string * Toy.Value) := [(EmptyString, (n, false))].

Definition toy_symbol (n : nat) : list (string * Toy.Value) := [(EmptyString, (n, true))].

Section UniqueViolation.
Context `{KeyStringCodec}.

(** C1: in a unique index whose row at key K holds exactly the entry
    (K, L1), [insert(K, L2, dupsAllowed=false)] with L2 <> L1 returns
    DuplicateKey and leaves the table as it was: the row at encode(K) still
    holds only L1. *)
Theorem unique_insert_duplicate_key (t : gmap bytes bytes) (K : BSONObj)
    (L1 L2 : RecordId) (tb1 : TypeBits) :
  t !! ks_encode K kInclusive = Some (encode_records [(L1, tb1)]) ->
  L2 <> L1 ->
  isNormal L2 = true -> hasFieldNames K = false -> objsize K < TempKeyMaxSize ->
  insert Unique t K L2 false = Some (DuplicateKey, t).
Proof.
  intros Hrow Hne Hn Hf Hs.
  rewrite insert_legal by assumption. simpl.
  rewrite (unique_insert_existing t K L2 false _ _ Hrow (decodes_encode_records _)).
  simpl. rewrite bool_decide_eq_false_2; [reflexivity|].
  rewrite elem_of_cons. intros [?|Hin]; [contradiction|inversion Hin].
Qed.
End UniqueViolation.

Lemma unique_insert_duplicate_key_witness :
  let t : gmap bytes bytes :=
    {[ @ks_encode toyCodec (toy_key 3) kInclusive :=
         encode_records (H:=toyCodec) [(1, 0%N)] ]} in
  insert (H:=toyCodec) Unique t (toy_key 3) 2 false = Some (DuplicateKey, t).
Proof.
  intros t.
  apply (@unique_insert_duplicate_key toyCodec t (toy_key 3) 1 2 0%N);
    [reflexivity | lia | reflexivity | reflexivity | vm_compute; reflexivity].
Defined.

Section UniqueDuplicateList.
Context `{KeyStringCodec}.

(** A sequence of inserts of [(K, L_i)], with the statuses returned. *)
Fixpoint insert_all (fl : Flavor) (t : gmap bytes bytes) (K : BSONObj)
    (Ls : list RecordId) (dupsAllowed : bool) : option (list Status * gmap bytes bytes) :=
  match Ls with
  | [] => Some ([], t)
  | L :: Ls' =>
      match insert fl t K L dupsAllowed with
      | None => None
      | Some (s, t1) =>
          match insert_all fl t1 K Ls' dupsAllowed with
          | None => None
          | Some (ss, t2) => Some (s :: ss, t2)
          end
      end
  end.

Lemma encode_records_insert_sorted (L : RecordId) (tb : TypeBits)
    (records : list (RecordId * TypeBits)) :
  records <> [] ->
  encode_records (insert_sorted L tb records)
  = encode_full (insert_sorted L tb records).
Proof.
  intros Hne. apply encode_records_full. intros l b E.
  apply (f_equal length) in E. rewrite insert_sorted_length in E.
  destruct records; [congruence|discriminate].
Qed.

(** One insert with dups allowed into a row that holds [records]. *)
Lemma unique_insert_step (t : gmap bytes bytes) (K : BSONObj) (L : RecordId)
    (records : list (RecordId * TypeBits)) :
  t !! ks_encode K kInclusive = Some (encode_records records) ->
  records <> [] ->
  isNormal L = true -> hasFieldNames K = false -> objsize K < TempKeyMaxSize ->
  insert Unique t K L true
  = Some (OK, if bool_decide (L ∈ records.*1) then t
              else <[ks_encode K kInclusive :=
                       encode_records (insert_sorted L (ks_typeBits K) records)]> t).
Proof.
  intros Hrow Hne Hn Hf Hs.
  rewrite insert_legal by assumption. simpl.
  rewrite (unique_insert_existing t K L true _ _ Hrow (decodes_encode_records _)).
  simpl. case_bool_decide; [reflexivity|].
  rewrite encode_records_insert_sorted by assumption. reflexivity.
Qed.

Lemma insert_all_from_row (K : BSONObj) (Ls : list RecordId) :
  hasFieldNames K = false -> objsize K < TempKeyMaxSize ->
  Forall (fun L => isNormal L = true) Ls ->
  forall (t : gmap bytes bytes) (records : list (RecordId * TypeBits)),
    t !! ks_encode K kInclusive = Some (encode_records records) ->
    records <> [] ->
    ascending records.*1 ->
    Forall (fun r => r.2 = ks_typeBits K) records ->
    exists records',
      insert_all Unique t K Ls true
      = Some (map (fun _ => OK) Ls,
              <[ks_encode K kInclusive := encode_records records']> t) /\
      records' <> [] /\
      ascending records'.*1 /\
      (forall l, l ∈ records'.*1 <-> l ∈ records.*1 \/ l ∈ Ls) /\
      Forall (fun r => r.2 = ks_typeBits K) records'.
Proof.
  intros Hf Hs. induction 1 as [|L Ls HL HLs IH]; intros t records Hrow Hne Hasc Htb.
  - exists records. simpl. rewrite insert_id by assumption.
    repeat split; auto. intros [?|Hin]; [assumption|inversion Hin].
  - simpl. rewrite (unique_insert_step t K L records) by assumption.
    case_bool_decide as Hin.
    + destruct (IH t records Hrow Hne Hasc Htb) as (rs & -> & Hne' & Hasc' & Hlocs & Htb').
      exists rs. repeat split; auto.
      * intros Hl. apply Hlocs in Hl as [Hl|Hl]; [left|right; right]; assumption.
      * intros [Hl|Hl]; apply Hlocs; [left; assumption|].
        apply elem_of_cons in Hl as [->|Hl]; [left|right]; assumption.
    + set (records1 := insert_sorted L (ks_typeBits K) records).
      destruct (IH (<[ks_encode K kInclusive := encode_records records1]> t) records1)
        as (rs & -> & Hne' & Hasc' & Hlocs & Htb').
      * apply lookup_insert_eq.
      * unfold records1. destruct records as [|[l b] rs]; [congruence|].
        simpl. destruct (L <? l); discriminate.
      * apply insert_sorted_ascending; assumption.
      * apply (insert_sorted_typeBits L _ records (fun b => b = ks_typeBits K));
          [reflexivity|assumption].
      * exists rs. rewrite insert_insert_eq. repeat split; auto.
        -- intros Hl. apply Hlocs in Hl as [Hl|Hl]; [|right; right; assumption].
           apply insert_sorted_locs in Hl as [->|Hl]; [right; left|left; assumption].
        -- intros Hl. apply Hlocs. unfold records1.
           rewrite (insert_sorted_locs L (ks_typeBits K) records l).
           destruct Hl as [Hl|Hl]; [tauto|].
           apply elem_of_cons in Hl as [->|Hl]; tauto.
Qed.

(** C2: N inserts of [(K, L_i)] with dups allowed into a unique index that
    has no row at K all return Ok and leave at encode(K) the tuples of the
    distinct L_i in ascending record-id order, each with the type bits of K.
    Each insert keeps the list ascending: the new loc is spliced in before
    the first stored loc greater than it, or appended at the end. *)
Theorem unique_duplicate_list_ascending (K : BSONObj) (Ls : list RecordId)
    (t : gmap bytes bytes) :
  hasFieldNames K = false -> objsize K < TempKeyMaxSize ->
  Forall (fun L => isNormal L = true) Ls -> Ls <> [] ->
  t !! ks_encode K kInclusive = None ->
  (exists records,
     insert_all Unique t K Ls true
     = Some (map (fun _ => OK) Ls,
             <[ks_encode K kInclusive := encode_records records]> t) /\
     ascending records.*1 /\
     (forall l, l ∈ records.*1 <-> l ∈ Ls) /\
     Forall (fun r => r.2 = ks_typeBits K) records) /\
  (forall (t' : gmap bytes bytes) (records : list (RecordId * TypeBits)) (L : RecordId),
     t' !! ks_encode K kInclusive = Some (encode_records records) ->
     records <> [] -> ascending records.*1 ->
     isNormal L = true -> L ∉ records.*1 ->
     insert Unique t' K L true
     = Some (OK, <[ks_encode K kInclusive :=
                     encode_records (insert_sorted L (ks_typeBits K) records)]> t') /\
     ascending (insert_sorted L (ks_typeBits K) records).*1).
Proof.
  intros Hf Hs HLs Hne Hnone. split.
  - destruct Ls as [|L Ls]; [congruence|].
    apply Forall_cons in HLs as [HL HLs].
    simpl. rewrite insert_legal by assumption. simpl.
    rewrite unique_insert_fresh by assumption.
    destruct (insert_all_from_row K Ls Hf Hs HLs
                (<[ks_encode K kInclusive := encode_records [(L, ks_typeBits K)]]> t)
                [(L, ks_typeBits K)])
      as (rs & -> & Hne' & Hasc' & Hlocs & Htb').
    + apply lookup_insert_eq.
    + discriminate.
    + repeat constructor.
    + repeat constructor.
    + exists rs. rewrite insert_insert_eq. repeat split; auto.
      * intros Hl. apply Hlocs in Hl as [Hl|Hl]; [|right; assumption].
        simpl in Hl. apply elem_of_cons in Hl as [->|Hl]; [left|inversion Hl].
      * intros Hl. apply Hlocs. apply elem_of_cons in Hl as [->|Hl]; [left; left|right; assumption].
  - intros t' records L Hrow Hne' Hasc HL Hin. split.
    + rewrite (unique_insert_step t' K L records) by assumption.
      rewrite bool_decide_eq_false_2 by assumption. reflexivity.
    + apply insert_sorted_ascending; assumption.
Qed.
End UniqueDuplicateList.

Lemma unique_duplicate_list_ascending_witness :
  exists records,
    insert_all (H:=toyCodec) Unique ∅ (toy_symbol 2) [3; 1; 2] true
    = Some ([OK; OK; OK],
            <[@ks_encode toyCodec (toy_symbol 2) kInclusive :=
                encode_records (H:=toyCodec) records]> ∅) /\
    ascending records.*1 /\
    (forall l, l ∈ records.*1 <-> l ∈ [3; 1; 2]) /\
    Forall (fun r => r.2 = 1%N) records.
Proof.
  apply (unique_duplicate_list_ascending (H:=toyCodec) (toy_symbol 2) [3; 1; 2] ∅).
  - reflexivity.
  - vm_compute. reflexivity.
  - repeat constructor.
  - discriminate.
  - reflexivity.
Defined.

(** Scenario S2 of the specification, run on the small codec. *)
Example unique_duplicate_list_S2 :
  insert_all (H:=toyCodec) Unique ∅ (toy_symbol 2) [3; 1; 2] true
  = Some ([OK; OK; OK],
          {[ @ks_encode toyCodec (toy_symbol 2) kInclusive :=
               encode_full (H:=toyCodec) [(1, 1%N); (2, 1%N); (3, 1%N)] ]}).
Proof. vm_compute. reflexivity. Qed.

Section InsertIdempotence.
Context `{KeyStringCodec}.

(** The row of a unique index at a key, when there is one, is a duplicate
    list as the data model has it: not empty, ascending by loc. *)
Definition unique_row_ok (t : gmap bytes bytes) (K : BSONObj) : Prop :=
  forall v, t !! ks_encode K kInclusive = Some v ->
    exists records, records <> [] /\ v = encode_records records /\
                    ascending records.*1.

(** The table holds exactly one entry for [(K, L)]: the row of the pair in a
    standard index, one occurrence of the loc in the row of the key in a
    unique index. *)
Definition holds_once (fl : Flavor) (t : gmap bytes bytes) (K : BSONObj)
    (L : RecordId) : Prop :=
  match fl with
  | Standard => is_Some (t !! standard_key K L)
  | Unique =>
      exists records,
        t !! ks_encode K kInclusive = Some (encode_records records) /\
        length (filter (fun r => r.1 = L) records) = 1%nat
  end.





End InsertIdempotence.


(** The same on a standard index: the second insert finds the row. *)
Example standard_insert_twice :
  let K := toy_key 3 in
  insert_all (H:=toyCodec) Standard ∅ K [7; 7] true
  = Some ([OK; OK], {[ standard_key (H:=toyCodec) K 7 := [] ]}).
Proof. vm_compute. reflexivity. Qed.

Section KeySize.
Context `{KeyStringCodec}.

Lemma checkKeySize_too_long (K : BSONObj) :
  checkKeySize K = KeyTooLong <-> TempKeyMaxSize <= objsize K.
Proof.
  unfold checkKeySize.
  destruct (Z.geb_spec (objsize K) TempKeyMaxSize); split; (lia || congruence).
Qed.

Lemma checkKeySize_ok (K : BSONObj) :
  checkKeySize K = OK <-> objsize K < TempKeyMaxSize.
Proof.
  unfold checkKeySize.
  destruct (Z.geb_spec (objsize K) TempKeyMaxSize); split; (lia || congruence).
Qed.

Lemma wtRCToStatus_not_too_long (ret : wt_ret) : wtRCToStatus ret <> KeyTooLong.
Proof. destruct ret; discriminate. Qed.

Lemma _insert_not_too_long (fl : Flavor) (t t' : gmap bytes bytes) (K : BSONObj)
    (L : RecordId) (d : bool) (s : Status) :
  _insert fl t K L d = Some (s, t') -> s <> KeyTooLong.
Proof.
  destruct fl; simpl.
  - unfold standard_insert, wt_insert.
    repeat case_match; intros; simplify_eq; simpl; discriminate.
  - unfold unique_insert, wt_insert, wt_search, wt_update, dupKeyError.
    repeat case_match; intros; simplify_eq; simpl; discriminate.
Qed.

(** C4, as the code has it: [insert] of both flavors and [addKey] of both
    bulk builders reject with KeyTooLong exactly the keys whose byte size is
    1024 or more (a key of at most 1023 bytes passes the size check), and a
    rejection leaves the table, and the builder, as they were. *)
Theorem key_too_long_from_1024 (fl : Flavor) (t : gmap bytes bytes)
    (b : UniqueBulkBuilder.State) (K : BSONObj) (L : RecordId) (d : bool) :
  isNormal L = true -> hasFieldNames K = false ->
  (1024 <= objsize K ->
     insert fl t K L d = Some (KeyTooLong, t) /\
     StandardBulkBuilder.addKey t K L = Some (KeyTooLong, t) /\
     UniqueBulkBuilder.addKey t b K L = Some (KeyTooLong, t, b)) /\
  (objsize K <= 1023 ->
     checkKeySize K = OK /\
     (forall s t', insert fl t K L d = Some (s, t') -> s <> KeyTooLong) /\
     (forall s t', StandardBulkBuilder.addKey t K L = Some (s, t') -> s <> KeyTooLong) /\
     (forall s t' b', UniqueBulkBuilder.addKey t b K L = Some (s, t', b') ->
        s <> KeyTooLong)).
Proof.
  intros Hn Hf. split.
  - intros Hbig. apply checkKeySize_too_long in Hbig.
    unfold insert, StandardBulkBuilder.addKey, UniqueBulkBuilder.addKey.
    rewrite Hn, Hf, Hbig. simpl. auto.
  - intros Hsmall.
    assert (Hok : checkKeySize K = OK) by (apply checkKeySize_ok; unfold TempKeyMaxSize; lia).
    split; [exact Hok|].
    unfold insert, StandardBulkBuilder.addKey, UniqueBulkBuilder.addKey.
    rewrite Hn, Hf, Hok. simpl. split; [|split].
    + intros s t'. apply _insert_not_too_long.
    + intros s t' E. inversion E. discriminate.
    + intros s t' b'. unfold UniqueBulkBuilder.doInsert, wt_bulk_insert, dupKeyError.
      repeat case_match; intros; simplify_eq; discriminate.
Qed.
End KeySize.

(** The key [{"": "aa...a"}] with 1012 letters has 1024 bytes. *)
Lemma key_of_1024_bytes_rejected :
  @objsize toyCodec (toy_key 1012) = 1024 /\
  insert (H:=toyCodec) Standard ∅ (toy_key 1012) 1 true = Some (KeyTooLong, ∅) /\
  insert (H:=toyCodec) Unique ∅ (toy_key 1012) 1 true = Some (KeyTooLong, ∅).
Proof. vm_compute. auto. Qed.

Lemma key_too_long_from_1024_witness :
  insert (H:=toyCodec) Unique ∅ (toy_key 1012) 1 true = Some (KeyTooLong, ∅) /\
  @checkKeySize toyCodec (toy_key 1011) = OK.
Proof.
  destruct (key_too_long_from_1024 (H:=toyCodec) Unique ∅
              (UniqueBulkBuilder.init true) (toy_key 1012) 1 true eq_refl eq_refl)
    as [Hbig _].
  destruct (key_too_long_from_1024 (H:=toyCodec) Unique ∅
              (UniqueBulkBuilder.init true) (toy_key 1011) 1 true eq_refl eq_refl)
    as [_ Hsmall].
  split.
  - apply Hbig. vm_compute. discriminate.
  - apply Hsmall. vm_compute. discriminate.
Defined.

(** ** The unique index: unindex *)

Section UniqueUnindex.
Context `{KeyStringCodec}.

(** The records of the row without those of a loc. *)
Definition remove_loc (loc : RecordId) (records : list (RecordId * TypeBits))
  : list (RecordId * TypeBits) :=
  filter (fun r => r.1 <> loc) records.

(** What the scan of [_unindex] computes, on the decoded records. *)
Fixpoint unindex_spec (loc : RecordId) (records : list (RecordId * TypeBits))
    (foundLoc : bool) (acc : list (RecordId * TypeBits)) : UnindexScan :=
  match records with
  | [] => Scanned foundLoc acc
  | (l, b) :: rs =>
      if loc =? l then
        if empty_b acc && empty_b rs then RemoveWholeEntry
        else unindex_spec loc rs true acc
      else unindex_spec loc rs foundLoc (acc ++ [(l, b)])
  end.

Lemma decodes_empty_b (v : bytes) (records : list (RecordId * TypeBits)) :
  decodes v records -> empty_b v = empty_b records.
Proof.
  destruct 1 as [|l|l tb v records Hd]; simpl; [reflexivity| |];
    destruct (appendRecordId_cons l) as (x & bs & ->); reflexivity.
Qed.

Lemma unindex_scan_decodes (v : bytes) (records : list (RecordId * TypeBits)) :
  decodes v records ->
  forall fuel loc foundLoc acc,
    (length records <= fuel)%nat ->
    unindex_scan fuel loc v foundLoc acc
    = Some (unindex_spec loc records foundLoc acc).
Proof.
  induction 1 as [|l|l b v records Hd IH]; intros fuel loc found acc Hfuel.
  - destruct fuel; reflexivity.
  - simpl in Hfuel. destruct fuel as [|fuel]; [lia|].
    destruct (appendRecordId_cons l) as (x & bs & Hx).
    simpl. rewrite Hx. rewrite <- Hx.
    rewrite <- (app_nil_r (appendRecordId l)) at 1.
    rewrite decodeRecordId_append, fromBuffer_nil.
    destruct (loc =? l); simpl.
    + destruct (empty_b acc); simpl; [reflexivity|]. destruct fuel; reflexivity.
    + destruct fuel; reflexivity.
  - simpl in Hfuel. destruct fuel as [|fuel]; [lia|].
    destruct (appendRecordId_cons l) as (x & bs & Hx).
    simpl. rewrite Hx. simpl. rewrite app_comm_cons, <- Hx.
    rewrite decodeRecordId_append, fromBuffer_append.
    rewrite (decodes_empty_b v records Hd).
    destruct (loc =? l); [destruct (empty_b acc && empty_b records)|];
      try reflexivity; apply IH; lia.
Qed.

Lemma remove_loc_cons_eq (loc : RecordId) (b : TypeBits)
    (rs : list (RecordId * TypeBits)) :
  remove_loc loc ((loc, b) :: rs) = remove_loc loc rs.
Proof. unfold remove_loc. rewrite filter_cons. simpl. case_decide; congruence. Qed.

Lemma remove_loc_cons_ne (loc l : RecordId) (b : TypeBits)
    (rs : list (RecordId * TypeBits)) :
  l <> loc -> remove_loc loc ((l, b) :: rs) = (l, b) :: remove_loc loc rs.
Proof. intros. unfold remove_loc. rewrite filter_cons. simpl. case_decide; congruence. Qed.

Lemma remove_loc_absent (loc : RecordId) (records : list (RecordId * TypeBits)) :
  loc ∉ records.*1 -> remove_loc loc records = records.
Proof.
  induction records as [|[l b] rs IH]; simpl; intros Hin; [reflexivity|].
  apply not_elem_of_cons in Hin as [Hne Hin].
  rewrite remove_loc_cons_ne by congruence. rewrite IH by assumption. reflexivity.
Qed.


(** The scan removes the whole entry when nothing but the loc is there, and
    otherwise collects the other records. *)
Lemma unindex_spec_result (loc : RecordId) (records : list (RecordId * TypeBits)) :
  forall foundLoc acc,
    unindex_spec loc records foundLoc acc
    = if bool_decide (loc ∈ records.*1) && empty_b (acc ++ remove_loc loc records)
      then RemoveWholeEntry
      else Scanned (foundLoc || bool_decide (loc ∈ records.*1))
                   (acc ++ remove_loc loc records).
Proof.
  induction records as [|[l b] rs IH]; intros found acc; cbn [unindex_spec].
  - rewrite bool_decide_eq_false_2 by (intros Hin; inversion Hin).
    simpl. rewrite orb_false_r, app_nil_r. reflexivity.
  - rewrite fmap_cons. cbn [fst].
    destruct (Z.eqb_spec loc l) as [<-|Hne].
    + rewrite (bool_decide_eq_true_2 (loc ∈ loc :: rs.*1)) by left.
      rewrite remove_loc_cons_eq, orb_true_r. simpl.
      destruct (empty_b acc && empty_b rs) eqn:He.
      * apply andb_prop in He as [Ha Hr].
        destruct acc; [|discriminate]. destruct rs; [|discriminate]. reflexivity.
      * rewrite IH. case_bool_decide as Hin; simpl; [reflexivity|].
        rewrite remove_loc_absent by assumption.
        destruct acc as [|a acc]; [|reflexivity].
        destruct rs as [|r rs]; [discriminate|reflexivity].
    + rewrite IH. rewrite remove_loc_cons_ne by congruence.
      rewrite <- app_assoc. simpl.
      replace (bool_decide (loc ∈ l :: rs.*1)) with (bool_decide (loc ∈ rs.*1));
        [reflexivity|].
      apply bool_decide_ext. rewrite elem_of_cons. tauto.
Qed.

(** [_unindex] with dups allowed on a row that reads back as [records]. *)
Lemma unique_unindex_existing (t : gmap bytes bytes) (K : BSONObj)
    (L : RecordId) (v : bytes) (records : list (RecordId * TypeBits)) :
  t !! ks_encode K kInclusive = Some v ->
  decodes v records ->
  unique_unindex t K L true
  = Some (if bool_decide (L ∈ records.*1) then
            if empty_b (remove_loc L records)
            then delete (ks_encode K kInclusive) t
            else <[ks_encode K kInclusive := encode_records (remove_loc L records)]> t
          else t).
Proof.
  intros Hrow Hd. unfold unique_unindex, wt_search. simpl. rewrite Hrow. simpl.
  rewrite (unindex_scan_decodes v records Hd) by (apply decodes_length, Hd).
  rewrite unindex_spec_result. simpl.
  case_bool_decide as Hin; simpl; [|reflexivity].
  destruct (empty_b (remove_loc L records)) eqn:He.
  - unfold wt_remove. rewrite Hrow. reflexivity.
  - unfold wt_update. rewrite Hrow. simpl. rewrite He. reflexivity.
Qed.
End UniqueUnindex.

Section DeleteInverse.
Context `{KeyStringCodec}.

Lemma unindex_legal (fl : Flavor) (t : gmap bytes bytes) (key : BSONObj)
    (loc : RecordId) (dupsAllowed : bool) :
  isNormal loc = true -> hasFieldNames key = false ->
  unindex fl t key loc dupsAllowed = _unindex fl t key loc dupsAllowed.
Proof. intros Hn Hf. unfold unindex. rewrite Hn, Hf. reflexivity. Qed.

Lemma unique_unindex_no_row (t : gmap bytes bytes) (K : BSONObj)
    (L : RecordId) (d : bool) :
  t !! ks_encode K kInclusive = None -> unique_unindex t K L d = Some t.
Proof.
  intros Hnone. unfold unique_unindex, wt_remove, wt_search. rewrite Hnone.
  destruct d; reflexivity.
Qed.


End DeleteInverse.



(** ** The unique bulk builder *)

Section UniqueBulk.
Context `{KeyStringCodec}.
Import UniqueBulkBuilder.

(** Feeding the keys and committing. *)
Definition build (t0 : gmap bytes bytes) (dupsAllowed : bool)
    (kvs : list (BSONObj * RecordId)) : option (Status * gmap bytes bytes) :=
  match addKeys t0 (init dupsAllowed) kvs with
  | None => None
  | Some (OK, t, b) =>
      match commit t b with
      | Some (t', _) => Some (OK, t')
      | None => None
      end
  | Some (s, t, _) => Some (s, t)
  end.

(** The records supplied for the keys that encode to [e], in the order they
    were supplied. *)
Definition records_for (e : bytes) (kvs : list (BSONObj * RecordId))
  : list (RecordId * TypeBits) :=
  omap (fun kl => if decide (ks_encode kl.1 kInclusive = e)
                  then Some (kl.2, ks_typeBits kl.1) else None) kvs.

(** The row the build leaves at [e]. *)
Definition row_of (t0 : gmap bytes bytes) (e : bytes)
    (kvs : list (BSONObj * RecordId)) : option bytes :=
  match records_for e kvs with
  | [] => t0 !! e
  | rs => Some (encode_records rs)
  end.

(** Each key is not below the one before it. *)
Fixpoint chain (prev : option BSONObj) (kvs : list (BSONObj * RecordId)) : Prop :=
  match kvs with
  | [] => True
  | kl :: kvs' =>
      match prev with
      | Some p => woCompare p kl.1 <> Gt
      | None => True
      end /\ chain (Some kl.1) kvs'
  end.

Definition non_decreasing (kvs : list (BSONObj * RecordId)) : Prop := chain None kvs.

(** A key the index accepts: no field names, not the empty object, within
    the size bound. *)
Definition legal_key (K : BSONObj) : Prop :=
  hasFieldNames K = false /\ isEmpty K = false /\ objsize K < TempKeyMaxSize.

(** The builder after the keys [done]: the records of the last key are
    pending, the rows of the keys before it are in the table. *)
Definition bulk_inv (t0 : gmap bytes bytes) (done : list (BSONObj * RecordId))
    (t : gmap bytes bytes) (b : State) : Prop :=
  _dupsAllowed b = true /\
  match last done with
  | None => b = init true /\ t = t0
  | Some kdl =>
      _key b = kdl.1 /\
      _keyString b = ks_encode kdl.1 kInclusive /\
      legal_key kdl.1 /\
      _records b = records_for (ks_encode kdl.1 kInclusive) done /\
      (forall e, t !! e = if decide (e = ks_encode kdl.1 kInclusive)
                          then t0 !! e else row_of t0 e done) /\
      (forall kl, kl ∈ done ->
         lex_le (ks_encode kl.1 kInclusive) (ks_encode kdl.1 kInclusive))
  end.

Lemma records_for_snoc (e : bytes) (done : list (BSONObj * RecordId))
    (K : BSONObj) (L : RecordId) :
  records_for e (done ++ [(K, L)])
  = records_for e done ++
    (if decide (ks_encode K kInclusive = e) then [(L, ks_typeBits K)] else []).
Proof.
  unfold records_for. rewrite omap_app. simpl.
  destruct (decide (ks_encode K kInclusive = e)); reflexivity.
Qed.

Lemma records_for_below (e : bytes) (done : list (BSONObj * RecordId)) (top : bytes) :
  (forall kl, kl ∈ done -> lex_le (ks_encode kl.1 kInclusive) top) ->
  lex_compare top e = Lt ->
  records_for e done = [].
Proof.
  intros Hle Hlt. induction done as [|kl done IH]; [reflexivity|].
  unfold records_for. simpl. destruct (decide (ks_encode kl.1 kInclusive = e)) as [E|_].
  - exfalso. specialize (Hle kl (list_elem_of_here _ _)). rewrite E in Hle.
    pose proof (lex_le_lt_trans _ _ _ Hle Hlt) as Hee.
    rewrite lex_compare_refl in Hee. discriminate.
  - apply IH. intros kl' Hin. apply Hle. right. exact Hin.
Qed.

Lemma row_of_nonempty (t0 : gmap bytes bytes) (e : bytes)
    (kvs : list (BSONObj * RecordId)) :
  records_for e kvs <> [] -> row_of t0 e kvs = Some (encode_records (records_for e kvs)).
Proof. unfold row_of. destruct (records_for e kvs); [congruence|reflexivity]. Qed.

Lemma woCompare_flip (a b : BSONObj) :
  hasFieldNames a = false -> hasFieldNames b = false ->
  woCompare b a = CompOpp (woCompare a b).
Proof.
  intros Ha Hb. rewrite <- !ks_compare by assumption. apply lex_compare_antisym.
Qed.

(** One accepted key. *)
Lemma addKey_step (t0 t : gmap bytes bytes) (b : State)
    (done : list (BSONObj * RecordId)) (K : BSONObj) (L : RecordId) :
  bulk_inv t0 done t b ->
  legal_key K ->
  match last done with
  | Some kdl => woCompare kdl.1 K <> Gt
  | None => True
  end ->
  exists t' b',
    addKey t b K L = Some (OK, t', b') /\ bulk_inv t0 (done ++ [(K, L)]) t' b'.
Proof.
  intros [Hdups Hinv] (Hf & Hne & Hs) Hord.
  assert (Hsize : checkKeySize K = OK) by (apply checkKeySize_ok, Hs).
  unfold addKey. rewrite Hsize, Hdups. simpl.
  unfold bulk_inv. rewrite last_snoc. simpl.
  destruct (last done) as [[kd ld]|] eqn:Hlast; simpl in *.
  - destruct Hinv as (Hkey & Hks & (Hfd & Hned & Hsd) & Hrec & Htab & Hle).
    rewrite Hkey. rewrite (woCompare_flip kd K) by assumption.
    rewrite <- (ks_compare kd K) in * by assumption.
    assert (Hlast_in : (kd, ld) ∈ done).
    { apply last_Some in Hlast as [l' ->]. apply elem_of_app. right. left. }
    destruct (lex_compare (ks_encode kd kInclusive) (ks_encode K kInclusive)) eqn:Hcmp;
      simpl; [| |congruence].
    + (* the same key again *)
      apply lex_compare_eq in Hcmp.
      eexists _, _. split; [reflexivity|]. simpl.
      repeat split; try assumption.
      * rewrite records_for_snoc, decide_True by reflexivity.
        rewrite Hrec, Hcmp. reflexivity.
      * intros e. rewrite Htab, <- Hcmp.
        destruct (decide (e = ks_encode kd kInclusive)) as [->|Hne']; [reflexivity|].
        unfold row_of. rewrite records_for_snoc, decide_False by congruence.
        rewrite app_nil_r. reflexivity.
      * intros kl Hin. apply elem_of_app in Hin as [Hin|Hin].
        -- rewrite <- Hcmp. apply Hle, Hin.
        -- apply list_elem_of_singleton in Hin as ->. apply lex_le_refl.
    + (* a greater key: the pending records are written *)
      rewrite Hned. simpl. unfold doInsert, wt_bulk_insert.
      assert (Hrne : records_for (ks_encode kd kInclusive) done <> []).
      { apply last_Some in Hlast as [l' ->]. rewrite records_for_snoc.
        rewrite decide_True by reflexivity. intros E. apply app_eq_nil in E as [_ E].
        discriminate. }
      rewrite Hrec. destruct (records_for (ks_encode kd kInclusive) done) as [|r rs] eqn:Hr;
        [congruence|]. simpl.
      eexists _, _. split; [reflexivity|]. simpl.
      assert (Hdiff : ks_encode K kInclusive <> ks_encode kd kInclusive).
      { intros E. rewrite E, lex_compare_refl in Hcmp. discriminate. }
      assert (Hnone : records_for (ks_encode K kInclusive) done = []).
      { eapply records_for_below; [exact Hle|exact Hcmp]. }
      repeat split; try assumption.
      * rewrite records_for_snoc, decide_True by reflexivity.
        rewrite Hnone. reflexivity.
      * intros e. rewrite Hks.
        destruct (decide (e = ks_encode K kInclusive)) as [->|HneK].
        -- rewrite lookup_insert_ne by congruence. rewrite Htab.
           rewrite decide_False by assumption.
           unfold row_of. rewrite Hnone. reflexivity.
        -- unfold row_of at 1. rewrite records_for_snoc, decide_False by congruence.
           rewrite app_nil_r.
           destruct (decide (e = ks_encode kd kInclusive)) as [->|Hnekd].
           ++ rewrite lookup_insert_eq, Hr. reflexivity.
           ++ rewrite lookup_insert_ne by congruence. rewrite Htab.
              rewrite decide_False by assumption. reflexivity.
      * intros kl Hin. apply elem_of_app in Hin as [Hin|Hin].
        -- apply lex_le_trans with (ks_encode kd kInclusive); [apply Hle, Hin|].
           apply lex_lt_le, Hcmp.
        -- apply list_elem_of_singleton in Hin as ->. apply lex_le_refl.
  - (* the first key *)
    destruct Hinv as [-> ->]. simpl.
    apply last_None in Hlast as ->. simpl.
    exists t0, (push (init true) K L). split.
    + destruct (woCompare K []); reflexivity.
    + simpl. repeat split; try assumption.
      * unfold records_for. simpl. rewrite decide_True by reflexivity. reflexivity.
      * intros e. destruct (decide (e = ks_encode K kInclusive)) as [->|HneK];
          [reflexivity|].
        unfold row_of, records_for. simpl. rewrite decide_False by congruence.
        reflexivity.
      * intros kl Hin. apply list_elem_of_singleton in Hin as ->. apply lex_le_refl.
Qed.

Lemma addKeys_inv (t0 : gmap bytes bytes) (rest : list (BSONObj * RecordId)) :
  Forall (fun kl => legal_key kl.1) rest ->
  forall (done : list (BSONObj * RecordId)) (t : gmap bytes bytes) (b : State),
    bulk_inv t0 done t b ->
    chain (fst <$> last done) rest ->
    exists t' b',
      addKeys t b rest = Some (OK, t', b') /\ bulk_inv t0 (done ++ rest) t' b'.
Proof.
  induction 1 as [|[K L] rest HK Hrest IH]; intros done t b Hinv Hchain.
  - exists t, b. rewrite app_nil_r. auto.
  - simpl in Hchain. destruct Hchain as [Hord Hchain].
    destruct (addKey_step t0 t b done K L Hinv HK) as (t1 & b1 & Hadd & Hinv1).
    { destruct (last done) as [[kd ld]|]; simpl in *; auto. }
    simpl. rewrite Hadd.
    destruct (IH (done ++ [(K, L)]) t1 b1 Hinv1) as (t' & b' & Hadds & Hinv').
    { rewrite last_snoc. exact Hchain. }
    exists t', b'. rewrite <- app_assoc in Hinv'. auto.
Qed.

(** C5: the unique bulk builder, fed legal keys in non-decreasing order with
    dups allowed and then committed, leaves one row per distinct key, whose
    value is the list of the records supplied for that key, in the order
    they were supplied; the other rows of the table are as before.  A row
    with a single record whose type bits are all zero is written without
    type bits.  Without dups allowed, [addKey] of a key equal to the previous
    one returns DuplicateKey. *)
Theorem unique_bulk_builder_rows (t0 : gmap bytes bytes)
    (kvs : list (BSONObj * RecordId)) :
  Forall (fun kl => legal_key kl.1) kvs ->
  non_decreasing kvs ->
  (exists t',
     build t0 true kvs = Some (OK, t') /\
     (forall e, t' !! e = row_of t0 e kvs) /\
     (forall e l tb,
        records_for e kvs = [(l, tb)] -> isAllZeros tb = true ->
        t' !! e = Some (appendRecordId l))) /\
  (forall (t : gmap bytes bytes) (b : State) (K : BSONObj) (L : RecordId),
     _dupsAllowed b = false -> objsize K < TempKeyMaxSize ->
     woCompare K (_key b) = Eq ->
     addKey t b K L = Some (DuplicateKey, t, b)).
Proof.
  intros Hlegal Hsorted. split.
  - destruct (addKeys_inv t0 kvs Hlegal [] t0 (init true)) as (t & b & Hadds & Hinv).
    { split; [reflexivity|]. simpl. auto. }
    { exact Hsorted. }
    simpl in Hinv. destruct Hinv as [Hdups Hinv].
    unfold build. rewrite Hadds. unfold commit.
    destruct (last kvs) as [[kd ld]|] eqn:Hlast; simpl in Hinv.
    + destruct Hinv as (Hkey & Hks & Hkd & Hrec & Htab & Hle).
      assert (Hrne : records_for (ks_encode kd kInclusive) kvs <> []).
      { apply last_Some in Hlast as [l' ->]. rewrite records_for_snoc.
        rewrite decide_True by reflexivity. intros E. apply app_eq_nil in E as [_ E].
        discriminate. }
      unfold doInsert, wt_bulk_insert. rewrite Hrec.
      destruct (records_for (ks_encode kd kInclusive) kvs) as [|r rs] eqn:Hr;
        [congruence|]. simpl.
      eexists. split; [reflexivity|].
      assert (Hall : forall e,
                <[_keyString b := encode_records (r :: rs)]> t !! e = row_of t0 e kvs).
      { intros e. rewrite Hks.
        destruct (decide (e = ks_encode kd kInclusive)) as [->|Hne].
        - rewrite lookup_insert_eq. unfold row_of. rewrite Hr. reflexivity.
        - rewrite lookup_insert_ne by congruence. rewrite Htab.
          rewrite decide_False by assumption. reflexivity. }
      split; [exact Hall|].
      intros e l tb Hone Hz. rewrite Hall. unfold row_of. rewrite Hone.
      rewrite encode_records_bare by assumption. reflexivity.
    + destruct Hinv as [-> ->]. simpl. apply last_None in Hlast as ->.
      exists t0. split; [reflexivity|]. split; [reflexivity|].
      intros e l tb Hone. discriminate.
  - intros t b K L Hd Hs Heq. unfold addKey.
    assert (Hsize : checkKeySize K = OK) by (apply checkKeySize_ok, Hs).
    rewrite Hsize, Heq, Hd. reflexivity.
Qed.

(** C10: when [addKey] of the unique bulk builder returns an error, it is
    KeyTooLong or DuplicateKey, the builder's members and the table are as
    before, and a commit then writes what it would have written without the
    rejected call.  The two errors arise for a key of 1024 bytes or more, and
    for a key equal to [_key] when dups are not allowed. *)
Theorem addKey_error_keeps_state (t : gmap bytes bytes) (b : State)
    (K : BSONObj) (L : RecordId) :
  (forall s t' b',
     addKey t b K L = Some (s, t', b') -> s <> OK ->
     (s = KeyTooLong \/ s = DuplicateKey) /\ t' = t /\ b' = b /\
     commit t' b' = commit t b) /\
  (TempKeyMaxSize <= objsize K -> addKey t b K L = Some (KeyTooLong, t, b)) /\
  (objsize K < TempKeyMaxSize -> woCompare K (_key b) = Eq ->
   _dupsAllowed b = false -> addKey t b K L = Some (DuplicateKey, t, b)).
Proof.
  split; [|split].
  - intros s t' b'. unfold addKey, checkKeySize, doInsert, wt_bulk_insert, dupKeyError.
    repeat case_match; intros; simplify_eq; auto.
  - intros Hbig. apply checkKeySize_too_long in Hbig.
    unfold addKey. rewrite Hbig. reflexivity.
  - intros Hs Heq Hd. apply checkKeySize_ok in Hs.
    unfold addKey. rewrite Hs, Heq, Hd. reflexivity.
Qed.
End UniqueBulk.

(** Scenario S6 of the specification, run on the small codec. *)
Definition S6_keys : list (list (string * Toy.Value) * RecordId) :=
  [(toy_key 1, 1); (toy_key 1, 2); (toy_key 2, 5); (toy_key 3, 9)].

Example unique_bulk_S6 :
  build (H:=toyCodec) ∅ true S6_keys
  = Some (OK, {[ @ks_encode toyCodec (toy_key 1) kInclusive :=
                   encode_full (H:=toyCodec) [(1, 0%N); (2, 0%N)];
                 @ks_encode toyCodec (toy_key 2) kInclusive := @appendRecordId toyCodec 5;
                 @ks_encode toyCodec (toy_key 3) kInclusive := @appendRecordId toyCodec 9 ]}).
Proof. vm_compute. reflexivity. Qed.

Lemma unique_bulk_builder_rows_witness :
  exists t',
    build (H:=toyCodec) ∅ true S6_keys = Some (OK, t') /\
    forall e, t' !! e = row_of (H:=toyCodec) ∅ e S6_keys.
Proof.
  destruct (unique_bulk_builder_rows (H:=toyCodec) ∅ S6_keys)
    as [(t' & Hbuild & Hrows & _) _].
  - repeat constructor.
  - vm_compute. repeat split; discriminate.
  - exists t'. split; assumption.
Defined.

Lemma addKey_error_keeps_state_witness :
  let b := UniqueBulkBuilder.push (H:=toyCodec) (UniqueBulkBuilder.init false) (toy_key 1) 1 in
  UniqueBulkBuilder.addKey (H:=toyCodec) ∅ b (toy_key 1) 2 = Some (DuplicateKey, ∅, b) /\
  fst <$> UniqueBulkBuilder.commit (H:=toyCodec) ∅ b
  = Some {[ @ks_encode toyCodec (toy_key 1) kInclusive := @appendRecordId toyCodec 1 ]}.
Proof.
  intros b.
  destruct (addKey_error_keeps_state (H:=toyCodec) ∅ b (toy_key 1) 2) as (_ & _ & Hdup).
  split.
  - apply Hdup; vm_compute; reflexivity.
  - vm_compute. reflexivity.
Defined.

(** ** The cursor *)

Lemma lex_compare_total (a b : bytes) :
  lex_compare a b = Lt \/ a = b \/ lex_compare b a = Lt.
Proof.
  destruct (lex_compare a b) eqn:E.
  - right; left. apply lex_compare_eq, E.
  - left. reflexivity.
  - right; right. apply lex_compare_Gt_Lt, E.
Qed.

Lemma lex_lt_irrefl (a : bytes) : lex_compare a a <> Lt.
Proof. rewrite lex_compare_refl. discriminate. Qed.

Lemma lex_le_antisym_lt (a b : bytes) : lex_le a b -> lex_compare b a <> Lt.
Proof.
  unfold lex_le. rewrite (lex_compare_antisym a b).
  destruct (lex_compare a b); simpl; congruence.
Qed.

(** The searches depend only on which keys lie above (below) the bound. *)
Lemma foldr_above_ext (q q' : bytes) (l : list bytes) :
  (forall k, k ∈ l -> lex_ltb q k = lex_ltb q' k) ->
  foldr (above_step q) None l = foldr (above_step q') None l.
Proof.
  induction l as [|x l IH]; intros Hext; [reflexivity|]. simpl.
  unfold above_step at 1 3. rewrite (Hext x) by left.
  rewrite IH; [reflexivity|]. intros k Hk. apply Hext. right. exact Hk.
Qed.

Lemma foldr_below_ext (q q' : bytes) (l : list bytes) :
  (forall k, k ∈ l -> lex_ltb k q = lex_ltb k q') ->
  foldr (below_step q) None l = foldr (below_step q') None l.
Proof.
  induction l as [|x l IH]; intros Hext; [reflexivity|]. simpl.
  unfold below_step at 1 3. rewrite (Hext x) by left.
  rewrite IH; [reflexivity|]. intros k Hk. apply Hext. right. exact Hk.
Qed.

Lemma lex_ltb_iff (a b c d : bytes) :
  (lex_compare a b = Lt <-> lex_compare c d = Lt) -> lex_ltb a b = lex_ltb c d.
Proof.
  intros Hiff. destruct (lex_ltb a b) eqn:E1, (lex_ltb c d) eqn:E2; try reflexivity.
  - apply lex_ltb_Lt, Hiff, lex_ltb_Lt in E1. congruence.
  - apply lex_ltb_Lt, Hiff, lex_ltb_Lt in E2. congruence.
Qed.

(** From the row just below a missing key, the next row is the first one
    above the key; and the other way round. *)
Lemma least_above_adjacent (q lo : bytes) (t : gmap bytes bytes) :
  t !! q = None -> greatest_below q t = Some lo ->
  least_above lo t = least_above q t.
Proof.
  intros Hq Hlo. apply greatest_below_Some in Hlo as (Hin & Hlt & Hmax).
  apply foldr_above_ext. intros k Hk. apply elem_of_keys_of in Hk.
  apply lex_ltb_iff. split; intros Hk'.
  - destruct (lex_compare_total q k) as [?|[->|Hkq]]; [assumption| |].
    + rewrite Hq in Hk. destruct Hk; discriminate.
    + specialize (Hmax k Hk Hkq). apply lex_le_antisym_lt in Hmax. contradiction.
  - eapply lex_compare_trans; eassumption.
Qed.

Lemma greatest_below_adjacent (q hi : bytes) (t : gmap bytes bytes) :
  t !! q = None -> least_above q t = Some hi ->
  greatest_below hi t = greatest_below q t.
Proof.
  intros Hq Hhi. apply least_above_Some in Hhi as (Hin & Hlt & Hmin).
  apply foldr_below_ext. intros k Hk. apply elem_of_keys_of in Hk.
  apply lex_ltb_iff. split; intros Hk'.
  - destruct (lex_compare_total k q) as [?|[->|Hkq]]; [assumption| |].
    + rewrite Hq in Hk. destruct Hk; discriminate.
    + specialize (Hmin k Hk Hkq). apply lex_le_antisym_lt in Hmin. contradiction.
  - eapply lex_compare_trans; eassumption.
Qed.

Section CursorSeek.
Context `{KeyStringCodec}.
Import Cursor.

(** Where a seek for [q] leaves the engine cursor: on the first row above
    [q] for a forward cursor, on the last row below for a reverse one. *)
Definition seek_target (forward : bool) (q : bytes) (t : gmap bytes bytes)
  : option bytes :=
  if forward then least_above q t else greatest_below q t.

Lemma seekWTCursor_missing (t : gmap bytes bytes) (c : State) (q : bytes)
    (preferBelow : bool) :
  t !! q = None ->
  seekWTCursor t c q preferBelow
  = (set_engine c (seek_target (_forward c) q t)
       (bool_decide (seek_target (_forward c) q t = None)), false).
Proof.
  intros Hq. unfold seekWTCursor, wt_search_near, seek_target. rewrite Hq.
  destruct (greatest_below q t) as [lo|] eqn:Hlo;
    destruct (least_above q t) as [hi|] eqn:Hhi;
    destruct (_forward c) eqn:Hf; try destruct preferBelow; simpl; rewrite ?Hf;
    unfold advanceWTCursor; simpl; rewrite ?Hf; simpl;
    rewrite ?(least_above_adjacent q lo t Hq Hlo),
            ?(greatest_below_adjacent q hi t Hq Hhi), ?Hlo, ?Hhi;
    reflexivity.
Qed.

(** The rows a cursor may see: in a standard index the row of a pair, in a
    unique index a key with its single record. *)
Definition wf_entry (fl : Flavor) (k v : bytes) (K : BSONObj) (L : RecordId) : Prop :=
  hasFieldNames K = false /\ L <> 0 /\
  match fl with
  | Standard => k = standard_key K L /\ v = standard_value K
  | Unique => k = ks_encode K kInclusive /\ v = encode_records [(L, ks_typeBits K)]
  end.

Definition wf_table (fl : Flavor) (t : gmap bytes bytes) : Prop :=
  forall k v, t !! k = Some v -> exists K L, wf_entry fl k v K L.

(** An engine key of either flavor starts with the encoding of a key. *)
Definition legal_engine_key (k : bytes) : Prop :=
  exists K s, hasFieldNames K = false /\ k = ks_encode K kInclusive ++ s.

Lemma wf_entry_legal (fl : Flavor) (k v : bytes) (K : BSONObj) (L : RecordId) :
  wf_entry fl k v K L -> exists s, k = ks_encode K kInclusive ++ s.
Proof.
  intros (_ & _ & Hfl). destruct fl; destruct Hfl as [-> _].
  - eexists. reflexivity.
  - exists []. rewrite app_nil_r. reflexivity.
Qed.

Lemma wf_table_legal (fl : Flavor) (t : gmap bytes bytes) (k : bytes) :
  wf_table fl t -> is_Some (t !! k) -> legal_engine_key k.
Proof.
  intros Hwf [v Hv]. destruct (Hwf k v Hv) as (K & L & Hent).
  destruct (wf_entry_legal _ _ _ _ _ Hent) as [s ->].
  exists K, s. split; [apply Hent|reflexivity].
Qed.

Lemma hasFieldNames_strip (key : BSONObj) : hasFieldNames (stripFieldNames key) = false.
Proof.
  unfold stripFieldNames. destruct (hasFieldNames key) eqn:E; simpl; [|exact E].
  unfold hasFieldNames. clear E. induction key as [|e key IH]; simpl; auto.
Qed.

(** No legal key is the encoding of a key with an exclusive discriminator. *)
Lemma exclusive_not_legal (k : bytes) (Q : BSONObj) (d : Discriminator) :
  legal_engine_key k -> hasFieldNames Q = false -> d <> kInclusive ->
  lex_compare k (ks_encode Q d) <> Eq.
Proof.
  intros (K & s & HK & ->) HQ Hd. destruct d; [congruence| |].
  - rewrite ks_before by assumption. destruct (woCompare K Q); discriminate.
  - rewrite ks_after by assumption. destruct (woCompare K Q); discriminate.
Qed.

Lemma exclusive_not_in_table (fl : Flavor) (t : gmap bytes bytes) (Q : BSONObj)
    (d : Discriminator) :
  wf_table fl t -> hasFieldNames Q = false -> d <> kInclusive ->
  t !! ks_encode Q d = None.
Proof.
  intros Hwf HQ Hd. destruct (t !! ks_encode Q d) eqn:E; [|reflexivity].
  exfalso. eapply exclusive_not_legal; [|exact HQ|exact Hd|apply lex_compare_refl].
  eapply wf_table_legal; eauto.
Qed.

(** On a well-formed row, the loc and the type bits are read. *)
Lemma updateLocAndTypeBits_wf (fl : Flavor) (t : gmap bytes bytes) (c : State)
    (k v : bytes) (K : BSONObj) (L : RecordId) :
  _cursor c = Some k -> _key c = k -> t !! k = Some v -> wf_entry fl k v K L ->
  updateLocAndTypeBits fl t c
  = Some (set_typeBits (set_loc c L) (ks_typeBits K)).
Proof.
  intros Hcur Hkey Hv (HK & HL & Hfl).
  unfold updateLocAndTypeBits, get_value. rewrite Hcur, Hkey, Hv.
  destruct fl; destruct Hfl as [-> ->].
  - unfold standard_key. rewrite decodeRecordIdAtEnd_append.
    unfold standard_value. destruct (isAllZeros (ks_typeBits K)) eqn:Hz.
    + rewrite fromBuffer_nil, <- (isAllZeros_canon _ Hz). reflexivity.
    + rewrite fromBuffer_getBuffer by assumption. reflexivity.
  - destruct (isAllZeros (ks_typeBits K)) eqn:Hz.
    + rewrite encode_records_bare by assumption.
      rewrite <- (app_nil_r (appendRecordId L)), decodeRecordId_append.
      rewrite fromBuffer_nil, <- (isAllZeros_canon _ Hz). reflexivity.
    + rewrite encode_records_full
        by (intros ? ? E; inversion E; subst; assumption).
      rewrite encode_full_one, decodeRecordId_append.
      rewrite <- (app_nil_r (appendTypeBits _)), fromBuffer_append. reflexivity.
Qed.

(** The discriminator of a seek, and the keys a seek may land on: not below
    the query for a forward inclusive seek, above it for an exclusive one;
    not above, or below, for a reverse cursor. *)
Definition seek_discriminator (forward inclusive : bool) : Discriminator :=
  if inclusive then (if forward then kExclusiveBefore else kExclusiveAfter)
  else (if forward then kExclusiveAfter else kExclusiveBefore).

Definition in_seek_range (forward inclusive : bool) (Q K : BSONObj) : Prop :=
  match forward, inclusive with
  | true, true => woCompare K Q <> Lt
  | true, false => woCompare K Q = Gt
  | false, true => woCompare K Q <> Gt
  | false, false => woCompare K Q = Lt
  end.

Lemma seek_discriminator_eqb (forward inclusive : bool) :
  (if eqb forward inclusive then kExclusiveBefore else kExclusiveAfter)
  = seek_discriminator forward inclusive.
Proof. destruct forward, inclusive; reflexivity. Qed.

Lemma in_seek_range_lex (forward inclusive : bool) (Q K : BSONObj) (s : bytes) :
  hasFieldNames Q = false -> hasFieldNames K = false ->
  in_seek_range forward inclusive Q K <->
  (if forward
   then lex_compare (ks_encode Q (seek_discriminator forward inclusive))
                    (ks_encode K kInclusive ++ s) = Lt
   else lex_compare (ks_encode K kInclusive ++ s)
                    (ks_encode Q (seek_discriminator forward inclusive)) = Lt).
Proof.
  intros HQ HK. unfold in_seek_range, seek_discriminator.
  destruct forward, inclusive;
    [rewrite <- lex_compare_Gt_Lt|rewrite <- lex_compare_Gt_Lt| |];
    rewrite ?ks_before, ?ks_after by assumption;
    destruct (woCompare K Q); split; congruence.
Qed.

Lemma updatePosition_at_eof (fl : Flavor) (t : gmap bytes bytes) (c : State) :
  _cursorAtEof c = true ->
  updatePosition fl t c
  = Some (set_loc (set_eof (set_lastMoveWasRestore c false) true) 0).
Proof. intros Heof. unfold updatePosition. simpl. rewrite Heof. reflexivity. Qed.

(** The state in which [updatePosition] checks the end point. *)
Definition at_key (c : State) (k : bytes) : State :=
  set_key (set_eof (set_lastMoveWasRestore c false) false) k.

Lemma updatePosition_on_row (fl : Flavor) (t : gmap bytes bytes) (c : State)
    (k v : bytes) (K : BSONObj) (L : RecordId) :
  _cursorAtEof c = false -> _cursor c = Some k ->
  t !! k = Some v -> wf_entry fl k v K L ->
  atOrPastEndPointAfterSeeking (at_key c k) = Some false ->
  updatePosition fl t c
  = Some (set_typeBits (set_loc (at_key c k) L) (ks_typeBits K)).
Proof.
  intros Heof Hcur Hv Hent Hend. unfold updatePosition. simpl.
  rewrite Heof, Hcur. fold (at_key c k). rewrite Hend.
  apply (updateLocAndTypeBits_wf fl t (at_key c k) k v K L); auto.
Qed.

Lemma curr_on_row (fl : Flavor) (c : State) (k v : bytes) (K : BSONObj)
    (L : RecordId) (wantKey : bool) :
  wf_entry fl k v K L ->
  atOrPastEndPointAfterSeeking (at_key c k) = Some false ->
  curr (set_typeBits (set_loc (at_key c k) L) (ks_typeBits K)) wantKey
  = Some (Some (if wantKey then K else [], L)).
Proof.
  intros Hent Hend. destruct (wf_entry_legal _ _ _ _ _ Hent) as [s Hk].
  destruct Hent as (HK & HL & _).
  unfold curr. simpl.
  change (atOrPastEndPointAfterSeeking
            (set_typeBits (set_loc (at_key c k) L) (ks_typeBits K)))
    with (atOrPastEndPointAfterSeeking (at_key c k)).
  rewrite Hend. destruct (Z.eqb_spec L 0); [contradiction|].
  destruct wantKey; [|reflexivity].
  rewrite Hk, toBson_encode by assumption. reflexivity.
Qed.

(** C6: a seek on a cursor without end position encodes the query with the
    discriminator [inclusive ? (forward ? Before : After) : (forward ? After
    : Before)] and returns the least entry with key >= K (inclusive) or > K
    (exclusive) for a forward cursor, the greatest entry with key <= K or
    < K for a reverse one; it returns nothing exactly when there is no such
    entry.  This holds whichever adjacent row search_near lands on. *)
Theorem seek_positions (fl : Flavor) (t : gmap bytes bytes) (c : State)
    (key : BSONObj) (inclusive wantKey preferBelow : bool) :
  wf_table fl t -> _endPosition c = None ->
  exists c' r,
    seek fl t c key inclusive wantKey preferBelow = Some (c', r) /\
    _query c' = ks_encode (stripFieldNames key)
                  (seek_discriminator (_forward c) inclusive) /\
    match r with
    | None =>
        forall k v K L, t !! k = Some v -> wf_entry fl k v K L ->
          ~ in_seek_range (_forward c) inclusive (stripFieldNames key) K
    | Some (bson, loc) =>
        exists v K,
          t !! _key c' = Some v /\ wf_entry fl (_key c') v K loc /\
          bson = (if wantKey then K else []) /\
          in_seek_range (_forward c) inclusive (stripFieldNames key) K /\
          forall k' v' K' L', t !! k' = Some v' -> wf_entry fl k' v' K' L' ->
            in_seek_range (_forward c) inclusive (stripFieldNames key) K' ->
            if _forward c
            then lex_le (_key c') k' /\ woCompare K' K <> Lt
            else lex_le k' (_key c') /\ woCompare K' K <> Gt
    end.
Proof.
  intros Hwf Hend.
  set (Q := stripFieldNames key).
  assert (HQ : hasFieldNames Q = false) by apply hasFieldNames_strip.
  set (q := ks_encode Q (seek_discriminator (_forward c) inclusive)).
  assert (Hq : t !! q = None).
  { apply (exclusive_not_in_table fl); [assumption|assumption|].
    unfold seek_discriminator. destruct inclusive, (_forward c); discriminate. }
  unfold seek. rewrite seek_discriminator_eqb. fold Q. fold q.
  change (_query (set_query c q)) with q.
  rewrite (seekWTCursor_missing t (set_query c q) q preferBelow Hq).
  change (_forward (set_query c q)) with (_forward c).
  assert (Hrange : forall k v K L, t !! k = Some v -> wf_entry fl k v K L ->
            in_seek_range (_forward c) inclusive Q K <->
            (if _forward c then lex_compare q k = Lt else lex_compare k q = Lt)).
  { intros k v K L Hv Hent. destruct (wf_entry_legal _ _ _ _ _ Hent) as [s ->].
    apply in_seek_range_lex; [assumption|apply Hent]. }
  destruct (seek_target (_forward c) q t) as [k|] eqn:Htarget.
  - rewrite bool_decide_eq_false_2 by discriminate.
    assert (Hk : is_Some (t !! k) /\
                 (if _forward c then lex_compare q k = Lt else lex_compare k q = Lt) /\
                 forall k', is_Some (t !! k') ->
                   (if _forward c then lex_compare q k' = Lt else lex_compare k' q = Lt) ->
                   if _forward c then lex_le k k' else lex_le k' k).
    { unfold seek_target in Htarget. destruct (_forward c).
      - apply least_above_Some, Htarget.
      - apply greatest_below_Some, Htarget. }
    destruct Hk as ([v Hv] & Hqk & Hbest).
    destruct (Hwf k v Hv) as (K & L & Hent).
    set (c1 := set_engine (set_query c q) (Some k) false).
    assert (Hat : atOrPastEndPointAfterSeeking (at_key c1 k) = Some false).
    { unfold atOrPastEndPointAfterSeeking. simpl. rewrite Hend. reflexivity. }
    rewrite (updatePosition_on_row fl t c1 k v K L eq_refl eq_refl Hv Hent Hat).
    rewrite (curr_on_row fl c1 k v K L wantKey Hent Hat).
    eexists _, _. split; [reflexivity|]. split; [reflexivity|]. simpl.
    exists v, K. repeat split; try assumption; try apply Hent.
    + apply (Hrange k v K L Hv Hent), Hqk.
    + intros k' v' K' L' Hv' Hent' Hin'.
      apply (Hrange k' v' K' L' Hv' Hent') in Hin'.
      specialize (Hbest k' (ex_intro _ v' Hv') Hin').
      destruct (wf_entry_legal _ _ _ _ _ Hent) as [s Hks].
      destruct (wf_entry_legal _ _ _ _ _ Hent') as [s' Hks'].
      assert (HK : hasFieldNames K = false) by apply Hent.
      assert (HK' : hasFieldNames K' = false) by apply Hent'.
      destruct (_forward c); (split; [exact Hbest|]); intros Hcmp.
      * apply lex_le_antisym_lt in Hbest. apply Hbest.
        rewrite Hks, Hks'. apply ks_mono; assumption.
      * apply lex_le_antisym_lt in Hbest. apply Hbest.
        rewrite Hks, Hks'. apply ks_mono; try assumption.
        rewrite (woCompare_flip K' K), Hcmp by assumption. reflexivity.
  - rewrite bool_decide_eq_true_2 by reflexivity.
    rewrite updatePosition_at_eof by reflexivity.
    eexists _, _. split; [reflexivity|]. split; [reflexivity|]. simpl.
    intros k v K L Hv Hent Hin. apply (Hrange k v K L Hv Hent) in Hin.
    unfold seek_target in Htarget. destruct (_forward c).
    + exact (least_above_None q t Htarget k (ex_intro _ v Hv) Hin).
    + exact (greatest_below_None q t Htarget k (ex_intro _ v Hv) Hin).
Qed.
End CursorSeek.

Section WellFormedTables.
Context `{KeyStringCodec}.

Lemma wf_table_empty (fl : Flavor) : wf_table fl ∅.
Proof. intros k v Hv. rewrite lookup_empty in Hv. discriminate. Qed.

Lemma wf_table_insert_entry (fl : Flavor) (t : gmap bytes bytes) (k v : bytes)
    (K : BSONObj) (L : RecordId) :
  wf_table fl t -> wf_entry fl k v K L -> wf_table fl (<[k:=v]> t).
Proof.
  intros Hwf Hent k' v' Hv'. apply lookup_insert_Some in Hv' as [[<- <-]|[_ Hv']].
  - exists K, L. exact Hent.
  - apply (Hwf k' v' Hv').
Qed.

(** The tables a cursor sees are kept well formed by [insert] (without dups
    in a unique index). *)
Lemma wf_table_insert (fl : Flavor) (t t1 : gmap bytes bytes) (K : BSONObj)
    (L : RecordId) :
  wf_table fl t ->
  insert fl t K L (match fl with Standard => true | Unique => false end)
  = Some (OK, t1) ->
  wf_table fl t1.
Proof.
  intros Hwf. unfold insert.
  destruct (isNormal L) eqn:Hn; simpl; [|discriminate].
  destruct (hasFieldNames K) eqn:Hf; [discriminate|].
  destruct (checkKeySize K) eqn:Hsize; simpl;
    [|intros E; inversion E; subst; assumption..].
  assert (HL : L <> 0) by (intros ->; discriminate).
  destruct fl; simpl.
  - unfold standard_insert, wt_insert. simpl.
    destruct (t !! standard_key K L); simpl; intros E; inversion E; subst; [assumption|].
    apply (wf_table_insert_entry Standard t _ _ K L Hwf). repeat split; assumption.
  - destruct (t !! ks_encode K kInclusive) as [v|] eqn:Hrow.
    + destruct (Hwf _ _ Hrow) as (K0 & L0 & _ & _ & _ & ->).
      rewrite (unique_insert_existing t K L false _ _ Hrow (decodes_encode_records _)).
      case_bool_decide; simpl; intros E; inversion E; subst. assumption.
    + rewrite unique_insert_fresh by assumption. intros E. inversion E; subst.
      apply (wf_table_insert_entry Unique t _ _ K L Hwf). repeat split; assumption.
Qed.
End WellFormedTables.

(** The standard index of scenario S4, on the small codec: keys 1 to 5, each
    with loc 1. *)
Definition S4_table : gmap bytes bytes :=
  foldr (fun n t => <[standard_key (H:=toyCodec) (toy_key n) 1 :=
                        standard_value (H:=toyCodec) (toy_key n)]> t)
        ∅ [1; 2; 3; 4; 5]%nat.

Lemma S4_table_wf : wf_table (H:=toyCodec) Standard S4_table.
Proof.
  unfold S4_table. induction [1; 2; 3; 4; 5]%nat as [|n l IH]; simpl.
  - apply wf_table_empty.
  - apply (wf_table_insert_entry (H:=toyCodec) Standard _ _ _ (toy_key n) 1 IH).
    repeat split. discriminate.
Qed.

Example S4_table_by_inserts :
  insert_all (H:=toyCodec) Standard ∅ (toy_key 3) [1] true = Some ([OK], {[
    standard_key (H:=toyCodec) (toy_key 3) 1 := standard_value (H:=toyCodec) (toy_key 3) ]}).
Proof. vm_compute. reflexivity. Qed.

Lemma seek_positions_witness :
  exists c' r,
    Cursor.seek (H:=toyCodec) Standard S4_table (Cursor.init true) (toy_key 2)
      false true true = Some (c', r) /\
    Cursor._query c' = @ks_encode toyCodec (toy_key 2) kExclusiveAfter.
Proof.
  destruct (seek_positions (H:=toyCodec) Standard S4_table (Cursor.init true)
              (toy_key 2) false true true S4_table_wf eq_refl)
    as (c' & r & Hseek & Hq & _).
  exists c', r. split; [exact Hseek|exact Hq].
Defined.

(** An exclusive forward seek for key 2 returns the entry of key 3, an
    inclusive reverse seek the entry of key 2, whichever row search_near
    lands on. *)
Example seek_S4 :
  forall preferBelow,
    snd <$> Cursor.seek (H:=toyCodec) Standard S4_table (Cursor.init true)
              (toy_key 2) false true preferBelow = Some (Some (toy_key 3, 1)) /\
    snd <$> Cursor.seek (H:=toyCodec) Standard S4_table (Cursor.init false)
              (toy_key 2) true true preferBelow = Some (Some (toy_key 2, 1)).
Proof. intros []; vm_compute; auto. Qed.

(** ** The end position *)

Section EndPosition.
Context `{KeyStringCodec}.
Import Cursor.

(** The calls of a scan. *)
Inductive CursorOp :=
| OpSeek (key : BSONObj) (inclusive preferBelow : bool)
| OpNext.

Definition step (fl : Flavor) (t : gmap bytes bytes) (c : State) (wantKey : bool)
    (op : CursorOp) : option (State * option IndexKeyEntry) :=
  match op with
  | OpSeek key inclusive preferBelow => seek fl t c key inclusive wantKey preferBelow
  | OpNext => next fl t c wantKey
  end.

(** A scan: the final state and the entries emitted, each with the engine
    key the cursor was on. *)
Fixpoint run (fl : Flavor) (t : gmap bytes bytes) (c : State) (wantKey : bool)
    (ops : list CursorOp) : option (State * list (bytes * IndexKeyEntry)) :=
  match ops with
  | [] => Some (c, [])
  | op :: ops' =>
      match step fl t c wantKey op with
      | None => None
      | Some (c1, r) =>
          match run fl t c1 wantKey ops' with
          | None => None
          | Some (c2, out) =>
              Some (c2, match r with
                        | Some e => (_key c1, e) :: out
                        | None => out
                        end)
          end
      end
  end.

(** The discriminator of an end position. *)
Definition end_discriminator (forward inclusive : bool) : Discriminator :=
  if forward then (if inclusive then kExclusiveAfter else kExclusiveBefore)
  else (if inclusive then kExclusiveBefore else kExclusiveAfter).

(** An engine key within the bound [E]: every key it starts with is at or
    before [E] for a forward scan (before, when the bound is exclusive), at
    or after for a reverse scan. *)
Definition within_end (forward inclusive : bool) (E : BSONObj) (k : bytes) : Prop :=
  forall K s, hasFieldNames K = false -> k = ks_encode K kInclusive ++ s ->
    match forward, inclusive with
    | true, true => woCompare K E <> Gt
    | true, false => woCompare K E = Lt
    | false, true => woCompare K E <> Lt
    | false, false => woCompare K E = Gt
    end.

Lemma advanceWTCursor_fields (t : gmap bytes bytes) (c : State) :
  _forward (advanceWTCursor t c) = _forward c /\
  _endPosition (advanceWTCursor t c) = _endPosition c /\
  _eof (advanceWTCursor t c) = _eof c /\
  _key (advanceWTCursor t c) = _key c /\
  _loc (advanceWTCursor t c) = _loc c /\
  _lastMoveWasRestore (advanceWTCursor t c) = _lastMoveWasRestore c.
Proof.
  unfold advanceWTCursor.
  destruct (if _forward c then wt_next t (_cursor c) else wt_prev t (_cursor c));
    simpl; auto 10.
Qed.

Lemma seekWTCursor_fields (t : gmap bytes bytes) (c : State) (q : bytes) (pb : bool) :
  _forward (seekWTCursor t c q pb).1 = _forward c /\
  _endPosition (seekWTCursor t c q pb).1 = _endPosition c /\
  _eof (seekWTCursor t c q pb).1 = _eof c /\
  _key (seekWTCursor t c q pb).1 = _key c /\
  _loc (seekWTCursor t c q pb).1 = _loc c.
Proof.
  unfold seekWTCursor. destruct (wt_search_near t q pb) as [[k cmp]|]; simpl; auto.
  destruct (cmp =? 0); simpl; auto.
  destruct (if _forward c then cmp <? 0 else cmp >? 0); simpl; auto.
  destruct (advanceWTCursor_fields t (set_engine c (Some k) false))
    as (-> & -> & -> & -> & -> & _). simpl. auto.
Qed.

Lemma updateLocAndTypeBits_fields (fl : Flavor) (t : gmap bytes bytes) (c c' : State) :
  updateLocAndTypeBits fl t c = Some c' ->
  exists loc tb, c' = set_typeBits (set_loc c loc) tb.
Proof.
  unfold updateLocAndTypeBits. repeat case_match; intros; simplify_eq; eauto.
Qed.

(** After [updatePosition], a cursor that is not at its end is on the row
    of the engine cursor, on the right side of the end position. *)
Lemma updatePosition_bounded (fl : Flavor) (t : gmap bytes bytes) (c c' : State) :
  updatePosition fl t c = Some c' ->
  _forward c' = _forward c /\ _endPosition c' = _endPosition c /\
  (_eof c' = false ->
   _cursor c = Some (_key c') /\
   forall e, _endPosition c = Some e ->
     lex_compare (_key c') e = if _forward c then Lt else Gt).
Proof.
  unfold updatePosition. simpl.
  destruct (_cursorAtEof c); [intros E; inversion E; subst; simpl; split; [|split]; auto; discriminate|].
  destruct (_cursor c) as [item|] eqn:Hcur; [|discriminate].
  fold (at_key c item).
  destruct (atOrPastEndPointAfterSeeking (at_key c item)) as [[|]|] eqn:Hat;
    [intros E; inversion E; subst; simpl; split; [|split]; auto; discriminate| |discriminate].
  intros Hupd. apply updateLocAndTypeBits_fields in Hupd as (loc & tb & ->). simpl.
  split; [reflexivity|split; [reflexivity|]]. intros _. split; [reflexivity|].
  intros e He. unfold atOrPastEndPointAfterSeeking in Hat. simpl in Hat.
  rewrite He in Hat.
  destruct (lex_compare item e), (_forward c); simpl in Hat; congruence.
Qed.

Lemma curr_entry_not_eof (c : State) (wantKey : bool) (e : IndexKeyEntry) :
  curr c wantKey = Some (Some e) -> _eof c = false.
Proof. unfold curr. destruct (_eof c); [discriminate|reflexivity]. Qed.

(** One call of a scan keeps the direction and the end position, and emits
    only from the right side of the end position. *)
Lemma step_bounded (fl : Flavor) (t : gmap bytes bytes) (c c1 : State)
    (wantKey : bool) (op : CursorOp) (r : option IndexKeyEntry) :
  step fl t c wantKey op = Some (c1, r) ->
  _forward c1 = _forward c /\ _endPosition c1 = _endPosition c /\
  forall entry e, r = Some entry -> _endPosition c = Some e ->
    lex_compare (_key c1) e = if _forward c then Lt else Gt.
Proof.
  destruct op as [key inclusive pb|]; simpl.
  - unfold seek.
    set (c0 := set_query c _).
    pose proof (seekWTCursor_fields t c0 (_query c0) pb) as (Hf & He & _).
    destruct (seekWTCursor t c0 (_query c0) pb) as [cs exact]. simpl in Hf, He.
    destruct (updatePosition fl t cs) as [c2|] eqn:Hupd; [|discriminate].
    destruct (curr c2 wantKey) as [r'|] eqn:Hcurr; [|discriminate].
    intros E. inversion E; subst c2 r'. clear E.
    apply updatePosition_bounded in Hupd as (Hf' & He' & Hb).
    rewrite Hf', He', Hf, He. split; [reflexivity|split; [reflexivity|]].
    intros entry e -> Hend. apply curr_entry_not_eof in Hcurr.
    destruct (Hb Hcurr) as [_ Hlex]. rewrite Hf in Hlex. apply Hlex.
    rewrite He. exact Hend.
  - unfold next. destruct (_eof c) eqn:Heof.
    { intros E. inversion E; subst. split; [reflexivity|split; [reflexivity|]].
      intros; discriminate. }
    set (cs := if negb (_lastMoveWasRestore c) then advanceWTCursor t c else c).
    assert (Hcs : _forward cs = _forward c /\ _endPosition cs = _endPosition c).
    { unfold cs. destruct (negb (_lastMoveWasRestore c)); [|auto].
      destruct (advanceWTCursor_fields t c) as (-> & -> & _). auto. }
    destruct Hcs as [Hf He].
    destruct (updatePosition fl t cs) as [c2|] eqn:Hupd; [|discriminate].
    destruct (curr c2 wantKey) as [r'|] eqn:Hcurr; [|discriminate].
    intros E. inversion E; subst c2 r'. clear E.
    apply updatePosition_bounded in Hupd as (Hf' & He' & Hb).
    rewrite Hf', He', Hf, He. split; [reflexivity|split; [reflexivity|]].
    intros entry e -> Hend. apply curr_entry_not_eof in Hcurr.
    destruct (Hb Hcurr) as [_ Hlex]. rewrite Hf in Hlex. apply Hlex.
    rewrite He. exact Hend.
Qed.

Lemma run_bounded (fl : Flavor) (t : gmap bytes bytes) (wantKey : bool)
    (ops : list CursorOp) :
  forall (c c' : State) (out : list (bytes * IndexKeyEntry)) (e : bytes),
    run fl t c wantKey ops = Some (c', out) ->
    _endPosition c = Some e ->
    forall k entry, (k, entry) ∈ out ->
      lex_compare k e = if _forward c then Lt else Gt.
Proof.
  induction ops as [|op ops IH]; intros c c' out e Hrun Hend k entry Hin.
  - inversion Hrun; subst. inversion Hin.
  - simpl in Hrun.
    destruct (step fl t c wantKey op) as [[c1 r]|] eqn:Hstep; [|discriminate].
    destruct (run fl t c1 wantKey ops) as [[c2 out']|] eqn:Hrun'; [|discriminate].
    inversion Hrun; subst c2 out. clear Hrun.
    apply step_bounded in Hstep as (Hf & He & Hb).
    assert (Hrest : (k, entry) ∈ out' -> lex_compare k e = if _forward c then Lt else Gt).
    { intros Hin'. rewrite <- Hf. eapply IH; eauto. congruence. }
    destruct r as [e0|]; [|auto].
    apply elem_of_cons in Hin as [Heq|Hin]; [|auto].
    inversion Heq; subst. eapply Hb; eauto.
Qed.

Lemma setEndPosition_fields (c : State) (key : BSONObj) (inclusive : bool) :
  isEmpty key = false ->
  _forward (setEndPosition c key inclusive) = _forward c /\
  _endPosition (setEndPosition c key inclusive)
  = Some (ks_encode (stripFieldNames key) (end_discriminator (_forward c) inclusive)).
Proof.
  intros Hne. unfold setEndPosition, end_discriminator. rewrite Hne. simpl.
  split; [reflexivity|]. destruct (_forward c), inclusive; reflexivity.
Qed.

Lemma within_end_lex (forward inclusive : bool) (E : BSONObj) (k : bytes) :
  hasFieldNames E = false ->
  lex_compare k (ks_encode E (end_discriminator forward inclusive))
  = (if forward then Lt else Gt) ->
  within_end forward inclusive E k.
Proof.
  intros HE Hlex K s HK ->. unfold end_discriminator in Hlex.
  destruct forward, inclusive; rewrite ?ks_before, ?ks_after in Hlex by assumption;
    destruct (woCompare K E); congruence.
Qed.

(** C7: after [setEndPosition(K, inclusive)] with a key that is not empty,
    the end position is the encoding of K with an exclusive discriminator,
    which no legal index key compares equal to; a scan (any sequence of seeks
    and nexts) emits only entries within the bound, none equal to an
    exclusive end point; and as soon as the engine cursor is on a key that
    compares greater than the end position (less, for a reverse cursor) the
    cursor is at its end, where [next] stays. *)
Theorem end_position_bounds (fl : Flavor) (t : gmap bytes bytes) (c0 : State)
    (Kend : BSONObj) (inclusive wantKey : bool) :
  isEmpty Kend = false ->
  let E := stripFieldNames Kend in
  let c := setEndPosition c0 Kend inclusive in
  let e := ks_encode E (end_discriminator (_forward c0) inclusive) in
  (_endPosition c = Some e /\
   end_discriminator (_forward c0) inclusive <> kInclusive /\
   forall k, legal_engine_key k -> lex_compare k e <> Eq) /\
  (forall ops c' out,
     run fl t c wantKey ops = Some (c', out) ->
     forall k entry, (k, entry) ∈ out -> within_end (_forward c0) inclusive E k) /\
  (forall c1 k,
     _forward c1 = _forward c0 -> _endPosition c1 = Some e ->
     _cursorAtEof c1 = false -> _cursor c1 = Some k ->
     lex_compare k e = (if _forward c0 then Gt else Lt) ->
     exists c2,
       updatePosition fl t c1 = Some c2 /\ _eof c2 = true /\
       curr c2 wantKey = Some None /\ next fl t c2 wantKey = Some (c2, None)).
Proof.
  intros Hne E c e.
  assert (HE : hasFieldNames E = false) by apply hasFieldNames_strip.
  destruct (setEndPosition_fields c0 Kend inclusive Hne) as [Hf Hend].
  fold c in Hf, Hend. fold E in Hend. fold e in Hend.
  assert (Hd : end_discriminator (_forward c0) inclusive <> kInclusive)
    by (unfold end_discriminator; destruct (_forward c0), inclusive; discriminate).
  split; [|split].
  - split; [exact Hend|split; [exact Hd|]].
    intros k Hk. apply exclusive_not_legal; assumption.
  - intros ops c' out Hrun k entry Hin.
    apply within_end_lex; [assumption|]. fold e. rewrite <- Hf.
    eapply run_bounded; eauto.
  - intros c1 k Hf1 Hend1 Heof Hcur Hlex.
    unfold updatePosition. simpl. rewrite Heof, Hcur.
    unfold atOrPastEndPointAfterSeeking. simpl. rewrite Hend1, Hlex, Hf1.
    destruct (_forward c0); simpl; eexists; (split; [reflexivity|]);
      simpl; auto.
Qed.
End EndPosition.

(** Scenario S4 of the specification on the small codec: with the end
    position at key 4, a scan from key 2 emits the keys 2, 3, 4 when the end
    is inclusive and 2, 3 when it is exclusive. *)
Definition S4_scan (inclusive : bool) :=
  run (H:=toyCodec) Standard S4_table
    (Cursor.setEndPosition (H:=toyCodec) (Cursor.init true) (toy_key 4) inclusive)
    true [OpSeek (H:=toyCodec) (toy_key 2) true false; OpNext; OpNext; OpNext; OpNext].

Example end_position_S4 :
  (fun r => r.2.*2) <$> S4_scan true
  = Some [(toy_key 2, 1); (toy_key 3, 1); (toy_key 4, 1)] /\
  (fun r => r.2.*2) <$> S4_scan false = Some [(toy_key 2, 1); (toy_key 3, 1)].
Proof. vm_compute. auto. Qed.

Lemma end_position_bounds_witness :
  exists c' out,
    S4_scan false = Some (c', out) /\
    forall k entry, (k, entry) ∈ out ->
      within_end (H:=toyCodec) true false (toy_key 4) k.
Proof.
  destruct (S4_scan false) as [[c' out]|] eqn:Hscan; [|vm_compute in Hscan; discriminate].
  exists c', out. split; [reflexivity|].
  destruct (end_position_bounds (H:=toyCodec) Standard S4_table (Cursor.init true)
              (toy_key 4) false true eq_refl) as (_ & Hscans & _).
  exact (Hscans _ c' out Hscan).
Defined.

(** ** Restoring a unique cursor *)

Section UniqueRestore.
Context `{KeyStringCodec}.
Import Cursor.

Lemma advanceWTCursor_cursor (t : gmap bytes bytes) (c : State) :
  _cursor (advanceWTCursor t c)
  = if _forward c then wt_next t (_cursor c) else wt_prev t (_cursor c).
Proof.
  unfold advanceWTCursor.
  destruct (if _forward c then wt_next t (_cursor c) else wt_prev t (_cursor c));
    reflexivity.
Qed.

Lemma decodeRecordId_single (L : RecordId) (tb : TypeBits) :
  exists rest, decodeRecordId (encode_records [(L, tb)]) = Some (L, rest).
Proof.
  unfold encode_records. simpl. rewrite app_nil_r.
  eexists. apply decodeRecordId_append.
Qed.

(** The cursor is on (K, L): its cached key and loc, not at its end. *)
Definition positioned_at (c : State) (K : BSONObj) (L : RecordId) : Prop :=
  _key c = ks_encode K kInclusive /\ _loc c = L /\ _eof c = false /\
  atOrPastEndPointAfterSeeking c = Some false.

(** The loc found at the key is on the side the cursor has not passed yet. *)
Definition ahead (forward : bool) (L L' : RecordId) : bool :=
  if forward then L <? L' else L' <? L.

(** The state after [restore] of a saved cursor whose row now holds another
    loc, before the engine cursor is possibly advanced. *)
Definition restored_on_key (c : State) : State :=
  set_lastMoveWasRestore
    (set_lastMoveWasRestore
       (set_engine (savePositioned c) (Some (_key c)) false) false) true.

Lemma restoreUnique_other_loc (t : gmap bytes bytes) (c : State) (K : BSONObj)
    (L L' : RecordId) (tb : TypeBits) (pb : bool) :
  positioned_at c K L -> L' <> L ->
  t !! ks_encode K kInclusive = Some (encode_records [(L', tb)]) ->
  restore Unique t (savePositioned c) pb
  = Some (if ahead (_forward c) L L' then restored_on_key c
          else advanceWTCursor t (restored_on_key c)).
Proof.
  intros (Hkey & Hloc & Heof & _) Hne Hrow.
  unfold restore, restoreUnique, restoreBase. simpl. rewrite Heof. simpl.
  unfold seekWTCursor, wt_search_near. simpl. rewrite Hkey, Hrow. simpl.
  rewrite Heof. unfold get_value. simpl. rewrite Hrow.
  destruct (decodeRecordId_single L' tb) as [rest ->].
  rewrite Hloc. destruct (Z.eqb_spec L' L) as [|_]; [contradiction|].
  unfold ahead.
  assert (Hr : restored_on_key c
               = set_lastMoveWasRestore
                   (set_lastMoveWasRestore
                      (set_engine (savePositioned c)
                         (Some (ks_encode K kInclusive)) false) false) true)
    by (unfold restored_on_key; rewrite Hkey; reflexivity).
  simpl. rewrite <- Hr. clear Hr.
  destruct (advanceWTCursor_fields t (restored_on_key c))
    as (Hadvf & _ & _ & _ & Hadvl & _).
  assert (Hrf : _forward (restored_on_key c) = _forward c) by reflexivity.
  assert (Hrl : _loc (restored_on_key c) = L) by (simpl; exact Hloc).
  rewrite Z.gtb_ltb.
  destruct (_forward c) eqn:Hf; simpl.
  - destruct (Z.ltb_spec L' L), (Z.ltb_spec L L'); try lia;
      rewrite ?Hadvf, ?Hadvl, ?Hrf, ?Hrl; simpl; reflexivity.
  - rewrite ?Hrf, ?Hrl, ?Hf, ?Hloc. simpl.
    destruct (Z.ltb_spec L' L), (Z.ltb_spec L L'); try lia; reflexivity.
Qed.

(** C8, as the code has it: a unique-index cursor is positioned at (K, L)
    and saved; before the restore the entry at K is replaced, so that the row
    of K holds the loc L' alone (the cursor never sees a row with several
    locs).  For a forward cursor, when L' > L the next call of [next] returns
    (K, L'); when L' < L the restore steps past the key and [next] does not
    return an entry at K.  For a reverse cursor the inequalities are
    flipped. *)
Theorem unique_restore_loc_correction (t : gmap bytes bytes) (c : State)
    (K : BSONObj) (L L' : RecordId) (wantKey pb : bool) :
  positioned_at c K L ->
  hasFieldNames K = false -> L' <> 0 -> L' <> L ->
  t !! ks_encode K kInclusive = Some (encode_records [(L', ks_typeBits K)]) ->
  exists c1,
    restore Unique t (savePositioned c) pb = Some c1 /\
    if ahead (_forward c) L L'
    then exists c2,
           next Unique t c1 wantKey
           = Some (c2, Some (if wantKey then K else [], L')) /\
           _key c2 = ks_encode K kInclusive
    else forall c2 r,
           next Unique t c1 wantKey = Some (c2, r) ->
           r = None \/
           (if _forward c then lex_compare (ks_encode K kInclusive) (_key c2)
            else lex_compare (_key c2) (ks_encode K kInclusive)) = Lt.
Proof.
  intros Hpos HK HL' Hne Hrow.
  rewrite (restoreUnique_other_loc t c K L L' _ pb Hpos Hne Hrow).
  destruct Hpos as (Hkey & Hloc & Heof & Hat).
  eexists. split; [reflexivity|].
  destruct (ahead (_forward c) L L') eqn:Hahead.
  - set (k := ks_encode K kInclusive) in *.
    assert (Hent : wf_entry Unique k (encode_records [(L', ks_typeBits K)]) K L')
      by (repeat split; assumption).
    assert (Hat' : atOrPastEndPointAfterSeeking (at_key (restored_on_key c) k)
                   = Some false).
    { rewrite <- Hat. unfold atOrPastEndPointAfterSeeking. simpl.
      rewrite Heof, Hkey. reflexivity. }
    unfold next. simpl. rewrite Heof. simpl.
    rewrite (updatePosition_on_row Unique t (restored_on_key c) k
               (encode_records [(L', ks_typeBits K)]) K L');
      [|reflexivity|simpl; rewrite Hkey; reflexivity|assumption|assumption|assumption].
    rewrite (curr_on_row Unique (restored_on_key c) k
               (encode_records [(L', ks_typeBits K)]) K L' wantKey Hent Hat').
    eexists. split; reflexivity.
  - intros c2 r. unfold next.
    destruct (advanceWTCursor_fields t (restored_on_key c))
      as (Hf & _ & Heof' & _ & _ & Hlast).
    rewrite Heof', Hlast. simpl. rewrite Heof. simpl.
    destruct (updatePosition Unique t (advanceWTCursor t (restored_on_key c)))
      as [c3|] eqn:Hupd; [|discriminate].
    destruct (curr c3 wantKey) as [r'|] eqn:Hcurr; [|discriminate].
    intros E. inversion E; subst c3 r'. clear E.
    destruct r as [entry|]; [right|left; reflexivity].
    apply curr_entry_not_eof in Hcurr.
    apply updatePosition_bounded in Hupd as (_ & _ & Hb).
    destruct (Hb Hcurr) as [Hcur _].
    rewrite advanceWTCursor_cursor in Hcur. simpl in Hcur. rewrite Hkey in Hcur.
    destruct (_forward c); simpl in Hcur.
    + apply least_above_Some in Hcur. apply Hcur.
    + apply greatest_below_Some in Hcur. apply Hcur.
Qed.
End UniqueRestore.

(** A unique index with the entries (3, 1) and (4, 7), and a forward cursor
    positioned at (3, 1) by a seek. *)
Definition restore_table : gmap bytes bytes :=
  {[ @ks_encode toyCodec (toy_key 3) kInclusive := encode_records (H:=toyCodec) [(1, 0%N)];
     @ks_encode toyCodec (toy_key 4) kInclusive := encode_records (H:=toyCodec) [(7, 0%N)] ]}.

Definition restore_cursor : Cursor.State (H:=toyCodec) :=
  match Cursor.seek (H:=toyCodec) Unique restore_table (Cursor.init true)
          (toy_key 3) true true false with
  | Some (c, _) => c
  | None => Cursor.init true
  end.

(** The cursor is saved, [(3, 2)] is inserted with dups allowed, the cursor
    is restored and [next] is called: the status of the insert, the decoded
    row of key 3 and the entry [next] returns. *)
Definition restore_after_insert (preferBelow : bool)
  : option (Status * option bytes * option (Cursor.IndexKeyEntry (H:=toyCodec))) :=
  match insert (H:=toyCodec) Unique restore_table (toy_key 3) 2 true with
  | Some (s, t') =>
      match Cursor.restore (H:=toyCodec) Unique t'
              (Cursor.savePositioned restore_cursor) preferBelow with
      | Some c1 =>
          match Cursor.next (H:=toyCodec) Unique t' c1 true with
          | Some (_, r) => Some (s, t' !! @ks_encode toyCodec (toy_key 3) kInclusive, r)
          | None => None
          end
      | None => None
      end
  | None => None
  end.

(** Another insert adds (K, L') with L' > L next to (K, L): the restored
    cursor finds its own loc first in the row and [next] moves on to the
    next key, so (K, L') is not returned. *)
Lemma unique_restore_skips_added_loc :
  positioned_at (H:=toyCodec) restore_cursor (toy_key 3) 1 /\
  forall preferBelow,
    restore_after_insert preferBelow
    = Some (OK, Some (encode_full (H:=toyCodec) [(1, 0%N); (2, 0%N)]),
            Some (toy_key 4, 7)) /\
    restore_after_insert preferBelow
    <> Some (OK, Some (encode_full (H:=toyCodec) [(1, 0%N); (2, 0%N)]),
             Some (toy_key 3, 2)).
Proof.
  split; [repeat split; vm_compute; reflexivity|].
  intros []; (split; [vm_compute; reflexivity|vm_compute; discriminate]).
Qed.

Lemma unique_restore_loc_correction_witness :
  let t' : gmap bytes bytes :=
    {[ @ks_encode toyCodec (toy_key 3) kInclusive := encode_records (H:=toyCodec) [(5, 0%N)] ]} in
  exists c1 c2,
    Cursor.restore (H:=toyCodec) Unique t' (Cursor.savePositioned restore_cursor) false
    = Some c1 /\
    Cursor.next (H:=toyCodec) Unique t' c1 true = Some (c2, Some (toy_key 3, 5)).
Proof.
  intros t'.
  assert (Hpos : positioned_at (H:=toyCodec) restore_cursor (toy_key 3) 1)
    by (repeat split; vm_compute; reflexivity).
  destruct (unique_restore_loc_correction (H:=toyCodec) t' restore_cursor (toy_key 3)
              1 5 true false Hpos eq_refl) as (c1 & Hrestore & Hnext).
  - discriminate.
  - discriminate.
  - vm_compute. reflexivity.
  - assert (Ha : ahead (Cursor._forward restore_cursor) 1 5 = true)
      by (vm_compute; reflexivity).
    rewrite Ha in Hnext. destruct Hnext as (c2 & Hnext & _).
    exists c1, c2. split; assumption.
Defined.


(** * Further properties of the adapter *)

(** ** Field names *)

Section FieldNames.
Context {V : Type}.

Lemma stripFieldNames_names (query : list (string * V)) :
  Forall (fun e => e.1 = EmptyString) (stripFieldNames query).
Proof.
  unfold stripFieldNames. destruct (hasFieldNames query) eqn:E; simpl.
  - apply Forall_forall. intros e He. apply list_elem_of_fmap in He as (e' & -> & _).
    reflexivity.
  - unfold hasFieldNames in E. induction query as [|[n v] q IH]; constructor.
    + simpl in E. apply orb_false_elim in E as [En _].
      unfold has_name in En. simpl in *. destruct n; [reflexivity|discriminate].
    + apply IH. simpl in E. apply orb_false_elim in E as [_ E]. exact E.
Qed.

Lemma hasFieldNames_no_names (obj : list (string * V)) :
  Forall (fun e => e.1 = EmptyString) obj -> hasFieldNames obj = false.
Proof.
  induction 1 as [|[n v] obj Hn Hobj IH]; [reflexivity|].
  simpl in *. subst n. exact IH.
Qed.

(** [stripFieldNames] gives an object whose field names are all empty, with
    the values of the query in the same order; stripping twice is stripping
    once. *)
Theorem stripFieldNames_keeps_values (query : list (string * V)) :
  hasFieldNames (stripFieldNames query) = false /\
  Forall (fun e => e.1 = EmptyString) (stripFieldNames query) /\
  (stripFieldNames query).*2 = query.*2 /\
  length (stripFieldNames query) = length query /\
  stripFieldNames (stripFieldNames query) = stripFieldNames query.
Proof.
  assert (Hn : hasFieldNames (stripFieldNames query) = false)
    by (apply hasFieldNames_no_names, stripFieldNames_names).
  split; [exact Hn|]. split; [apply stripFieldNames_names|].
  assert (Hv : (stripFieldNames query).*2 = query.*2).
  { unfold stripFieldNames. destruct (hasFieldNames query); simpl; [|reflexivity].
    clear Hn. induction query as [|e q IH]; simpl; [reflexivity|]. f_equal. exact IH. }
  split; [exact Hv|]. split.
  - rewrite <- (length_fmap snd (stripFieldNames query)), Hv. apply length_fmap.
  - unfold stripFieldNames at 1. rewrite Hn. reflexivity.
Qed.
End FieldNames.

(** ** The duplicate check *)

Section DupKeyCheck.
Context `{KeyStringCodec}.

Lemma isDup_scan_decodes (v : bytes) (records : list (RecordId * TypeBits)) :
  decodes v records ->
  forall fuel loc,
    (length records <= fuel)%nat ->
    isDup_scan fuel loc v = Some (negb (bool_decide (loc ∈ records.*1))).
Proof.
  induction 1 as [|l|l b v records Hd IH]; intros fuel loc Hfuel.
  - destruct fuel; reflexivity.
  - simpl in Hfuel. destruct fuel as [|fuel]; [lia|].
    destruct (appendRecordId_cons l) as (x & bs & Hx).
    simpl. rewrite Hx. rewrite <- Hx.
    rewrite <- (app_nil_r (appendRecordId l)) at 1.
    rewrite decodeRecordId_append.
    destruct (Z.eqb_spec l loc) as [->|Hne].
    + rewrite bool_decide_eq_true_2 by left. reflexivity.
    + rewrite fromBuffer_nil.
      rewrite bool_decide_eq_false_2
        by (intros Hin; apply elem_of_cons in Hin as [?|Hin]; [congruence|inversion Hin]).
      destruct fuel; reflexivity.
  - simpl in Hfuel. destruct fuel as [|fuel]; [lia|].
    destruct (appendRecordId_cons l) as (x & bs & Hx).
    simpl. rewrite Hx. simpl. rewrite app_comm_cons, <- Hx.
    rewrite decodeRecordId_append.
    destruct (Z.eqb_spec l loc) as [->|Hne].
    + rewrite bool_decide_eq_true_2 by left. reflexivity.
    + rewrite fromBuffer_append, IH by lia. do 2 f_equal.
      apply bool_decide_ext. rewrite elem_of_cons. split; [auto|].
      intros [?|?]; [congruence|assumption].
Qed.

(** [dupKeyCheck(K, L)] on a key without field names returns Ok when the key
    has no row or when L is one of the locs of its row, and DuplicateKey when
    the row holds other locs only. *)
Theorem dupKeyCheck_result (t : gmap bytes bytes) (K : BSONObj) (L : RecordId) :
  hasFieldNames K = false ->
  (t !! ks_encode K kInclusive = None -> dupKeyCheck t K L = Some OK) /\
  (forall records,
     t !! ks_encode K kInclusive = Some (encode_records records) ->
     dupKeyCheck t K L
     = Some (if bool_decide (L ∈ records.*1) then OK else DuplicateKey)).
Proof.
  intros Hf. unfold dupKeyCheck, isDup, wt_search, dupKeyError. rewrite Hf. split.
  - intros ->. reflexivity.
  - intros records ->. simpl.
    rewrite (isDup_scan_decodes _ records (decodes_encode_records _))
      by (apply decodes_length, decodes_encode_records).
    case_bool_decide; reflexivity.
Qed.

(** The duplicate check predicts the insert without dups: on a table whose
    row at K is a duplicate list, [dupKeyCheck(K, L)] returns the status that
    [insert(K, L, dupsAllowed=false)] returns, and an insert that returns
    DuplicateKey leaves the table as it was. *)
Theorem dupKeyCheck_predicts_insert (t : gmap bytes bytes) (K : BSONObj)
    (L : RecordId) :
  isNormal L = true -> hasFieldNames K = false -> objsize K < TempKeyMaxSize ->
  unique_row_ok t K ->
  exists s t',
    dupKeyCheck t K L = Some s /\
    insert Unique t K L false = Some (s, t') /\
    (s = OK \/ s = DuplicateKey) /\
    (s = DuplicateKey -> t' = t).
Proof.
  intros Hn Hf Hs Hok. rewrite insert_legal by assumption. simpl.
  unfold dupKeyCheck, isDup, wt_search, dupKeyError. rewrite Hf.
  destruct (t !! ks_encode K kInclusive) as [v|] eqn:Hrow; simpl.
  - destruct (Hok v Hrow) as (records & _ & -> & _).
    rewrite (isDup_scan_decodes _ records (decodes_encode_records _))
      by (apply decodes_length, decodes_encode_records).
    rewrite (unique_insert_existing t K L false _ _ Hrow (decodes_encode_records _)).
    case_bool_decide; simpl; eexists _, _; repeat split; eauto; discriminate.
  - rewrite unique_insert_fresh by assumption.
    eexists _, _. repeat split; eauto. discriminate.
Qed.
End DupKeyCheck.

Lemma dupKeyCheck_result_witness :
  let K := toy_key 3 in
  let t : gmap bytes bytes :=
    {[ @ks_encode toyCodec K kInclusive := encode_records (H:=toyCodec) [(1, 0%N)] ]} in
  dupKeyCheck (H:=toyCodec) t K 2 = Some DuplicateKey /\
  dupKeyCheck (H:=toyCodec) t K 1 = Some OK /\
  dupKeyCheck (H:=toyCodec) t (toy_key 4) 2 = Some OK.
Proof.
  intros K t.
  destruct (dupKeyCheck_result (H:=toyCodec) t K 2 eq_refl) as [_ H2].
  destruct (dupKeyCheck_result (H:=toyCodec) t K 1 eq_refl) as [_ H1].
  destruct (dupKeyCheck_result (H:=toyCodec) t (toy_key 4) 2 eq_refl) as [H4 _].
  split; [|split].
  - exact (H2 [(1, 0%N)] eq_refl).
  - exact (H1 [(1, 0%N)] eq_refl).
  - apply H4. vm_compute. reflexivity.
Defined.

Lemma dupKeyCheck_predicts_insert_witness :
  let K := toy_key 3 in
  let t : gmap bytes bytes :=
    {[ @ks_encode toyCodec K kInclusive := encode_records (H:=toyCodec) [(1, 0%N)] ]} in
  exists s t',
    dupKeyCheck (H:=toyCodec) t K 2 = Some s /\
    insert (H:=toyCodec) Unique t K 2 false = Some (s, t').
Proof.
  intros K t.
  destruct (dupKeyCheck_predicts_insert (H:=toyCodec) t K 2 eq_refl eq_refl eq_refl)
    as (s & t' & Hc & Hi & _).
  - intros v Hv. exists [(1, 0%N)].
    unfold t in Hv. rewrite lookup_singleton_eq in Hv. inversion Hv.
    split; [discriminate|split; [reflexivity|repeat constructor]].
  - exists s, t'. split; assumption.
Defined.

(** ** Emptiness *)

(** [WiredTigerIndex::isEmpty]: a fresh engine cursor is moved to the first
    row. *)
Definition index_isEmpty (t : gmap bytes bytes) : bool :=
  match wt_next t None with
  | None => true
  | Some _ => false
  end.

Section IndexOperations.
Context `{KeyStringCodec}.

(** The engine key of the row an operation on (K, L) works on. *)
Definition row_key (fl : Flavor) (K : BSONObj) (L : RecordId) : bytes :=
  match fl with
  | Standard => standard_key K L
  | Unique => ks_encode K kInclusive
  end.

Lemma first_key_None (t : gmap bytes bytes) : first_key t = None <-> t = ∅.
Proof.
  unfold first_key, keys_of. rewrite <- map_to_list_empty_iff.
  destruct (map_to_list t) as [|[k v] l]; simpl; [tauto|].
  split; [|discriminate]. intros E. exfalso.
  destruct (pick_min_Some k (foldr pick_min None l.*1)) as [m Hm].
  unfold fmap in Hm. rewrite E in Hm. discriminate.
Qed.

Lemma insert_Ok_row (fl : Flavor) (t t' : gmap bytes bytes) (K : BSONObj)
    (L : RecordId) (d : bool) :
  insert fl t K L d = Some (OK, t') -> is_Some (t' !! row_key fl K L).
Proof.
  unfold insert. destruct (isNormal L); simpl; [|discriminate].
  destruct (hasFieldNames K); [discriminate|].
  destruct (checkKeySize K); simpl; try discriminate.
  destruct fl; simpl.
  - unfold standard_insert, wt_insert. destruct d; simpl; [|discriminate].
    destruct (t !! standard_key K L) eqn:E; simpl; intros Ht; inversion Ht; subst.
    + rewrite E. eauto.
    + rewrite lookup_insert_eq. eauto.
  - unfold unique_insert, wt_insert, wt_search, wt_update.
    destruct (t !! ks_encode K kInclusive) eqn:E; simpl.
    + rewrite ?E. simpl. rewrite ?E.
      repeat case_match; intros; simplify_eq; rewrite ?lookup_insert_eq, ?E; eauto.
    + intros Ht; inversion Ht; subst. rewrite lookup_insert_eq. eauto.
Qed.

(** The index is empty exactly when its table has no row; after an insert
    that returned Ok it is not empty. *)
Theorem index_isEmpty_no_rows (t : gmap bytes bytes) :
  (index_isEmpty t = true <-> t = ∅) /\
  (forall fl K L d t',
     insert fl t K L d = Some (OK, t') -> index_isEmpty t' = false).
Proof.
  assert (Hiff : forall t0 : gmap bytes bytes, index_isEmpty t0 = true <-> t0 = ∅).
  { intros t0. unfold index_isEmpty. simpl. rewrite <- first_key_None.
    destruct (first_key t0); split; congruence. }
  split; [apply Hiff|].
  intros fl K L d t' Hins. apply insert_Ok_row in Hins as [v Hv].
  destruct (index_isEmpty t') eqn:E; [|reflexivity].
  apply Hiff in E. subst t'. rewrite lookup_empty in Hv. discriminate.
Qed.

(** [insert] and [unindex] of (K, L) touch no row but the one of their key:
    every other row of the table is as before. *)
Theorem insert_unindex_frame (fl : Flavor) (t : gmap bytes bytes) (K : BSONObj)
    (L : RecordId) (d : bool) (k : bytes) :
  k <> row_key fl K L ->
  (forall s t', insert fl t K L d = Some (s, t') -> t' !! k = t !! k) /\
  (forall t', unindex fl t K L d = Some t' -> t' !! k = t !! k).
Proof.
  intros Hk. split.
  - intros s t'. unfold insert.
    destruct (isNormal L); simpl; [|discriminate].
    destruct (hasFieldNames K); [discriminate|].
    destruct (negb (isOK (checkKeySize K)));
      [intros E; inversion E; reflexivity|].
    destruct fl; simpl in *.
    + unfold standard_insert, wt_insert.
      repeat case_match; intros; simplify_eq;
        rewrite ?lookup_insert_ne by congruence; reflexivity.
    + unfold unique_insert, wt_insert, wt_search, wt_update.
      repeat case_match; intros; simplify_eq;
        rewrite ?lookup_insert_ne by congruence; reflexivity.
  - intros t'. unfold unindex.
    destruct (isNormal L); simpl; [|discriminate].
    destruct (hasFieldNames K); [discriminate|].
    destruct fl; simpl in *.
    + unfold standard_unindex, wt_remove.
      repeat case_match; intros; simplify_eq; simpl;
        rewrite ?lookup_delete_ne by congruence; reflexivity.
    + unfold unique_unindex, wt_remove, wt_search, wt_update.
      repeat case_match; intros; simplify_eq; simpl;
        rewrite ?lookup_delete_ne, ?lookup_insert_ne by congruence; reflexivity.
Qed.
End IndexOperations.

Lemma insert_unindex_frame_witness :
  let t : gmap bytes bytes :=
    {[ @ks_encode toyCodec (toy_key 3) kInclusive := encode_records (H:=toyCodec) [(1, 0%N)] ]} in
  exists s t',
    insert (H:=toyCodec) Unique t (toy_key 4) 2 false = Some (s, t') /\
    t' !! @ks_encode toyCodec (toy_key 3) kInclusive
    = Some (encode_records (H:=toyCodec) [(1, 0%N)]).
Proof.
  intros t.
  destruct (insert (H:=toyCodec) Unique t (toy_key 4) 2 false) as [[s t']|] eqn:Hins.
  - exists s, t'. split; [reflexivity|].
    destruct (insert_unindex_frame (H:=toyCodec) Unique t (toy_key 4) 2 false
                (@ks_encode toyCodec (toy_key 3) kInclusive)) as [Hframe _].
    + vm_compute. discriminate.
    + rewrite (Hframe s t' Hins). reflexivity.
  - vm_compute in Hins. discriminate.
Defined.

(** ** The rows of a unique index stay duplicate lists *)

Section UniqueRows.
Context `{KeyStringCodec}.

Lemma remove_loc_locs (L l : RecordId) (records : list (RecordId * TypeBits)) :
  l ∈ (remove_loc L records).*1 <-> l <> L /\ l ∈ records.*1.
Proof.
  unfold remove_loc. rewrite !list_elem_of_fmap. split.
  - intros ([l' b] & -> & Hin). apply list_elem_of_filter in Hin as [Hne Hin].
    simpl in *. split; [exact Hne|]. exists (l', b). auto.
  - intros (Hne & [l' b] & -> & Hin). exists (l', b). split; [reflexivity|].
    apply list_elem_of_filter. auto.
Qed.

Lemma remove_loc_ascending (L : RecordId) (records : list (RecordId * TypeBits)) :
  ascending records.*1 -> ascending (remove_loc L records).*1.
Proof.
  unfold ascending. induction records as [|[l b] rs IH]; simpl; intros Hasc.
  - constructor.
  - apply StronglySorted_inv in Hasc as [Hasc Hall].
    destruct (decide (l = L)) as [->|Hne].
    + rewrite remove_loc_cons_eq. apply IH, Hasc.
    + rewrite remove_loc_cons_ne by assumption. simpl.
      constructor; [apply IH, Hasc|].
      apply Forall_forall. intros x Hx. apply remove_loc_locs in Hx as [_ Hx].
      rewrite Forall_forall in Hall. apply Hall, Hx.
Qed.

Lemma unique_row_ok_insert (t : gmap bytes bytes) (k : bytes)
    (records : list (RecordId * TypeBits)) :
  records <> [] -> ascending records.*1 ->
  (forall K, unique_row_ok t K) ->
  forall K, unique_row_ok (<[k := encode_records records]> t) K.
Proof.
  intros Hne Hasc Hok K v Hv.
  apply lookup_insert_Some in Hv as [[_ <-]|[_ Hv]]; [|apply (Hok K v Hv)].
  exists records. auto.
Qed.

Lemma unique_row_ok_delete (t : gmap bytes bytes) (k : bytes) :
  (forall K, unique_row_ok t K) -> forall K, unique_row_ok (delete k t) K.
Proof.
  intros Hok K v Hv. apply lookup_delete_Some in Hv as [_ Hv]. apply (Hok K v Hv).
Qed.

(** In a unique index whose rows are duplicate lists (not empty, ascending
    by loc), [insert] and [unindex] on legal arguments return, and the rows
    are duplicate lists afterwards: no call leaves an empty row or a list
    out of order. *)
Theorem unique_rows_stay_lists (t : gmap bytes bytes) (K : BSONObj)
    (L : RecordId) (d : bool) :
  isNormal L = true -> hasFieldNames K = false -> objsize K < TempKeyMaxSize ->
  (forall K', unique_row_ok t K') ->
  (exists s t', insert Unique t K L d = Some (s, t') /\
                forall K', unique_row_ok t' K') /\
  (exists t', unindex Unique t K L d = Some t' /\
              forall K', unique_row_ok t' K').
Proof.
  intros Hn Hf Hs Hok.
  rewrite insert_legal, unindex_legal by assumption. simpl. split.
  - destruct (t !! ks_encode K kInclusive) as [v|] eqn:Hrow.
    + destruct (Hok K v Hrow) as (records & Hne & -> & Hasc).
      rewrite (unique_insert_existing t K L d _ _ Hrow (decodes_encode_records _)).
      case_bool_decide as Hin; [eauto|]. destruct d; simpl; [|eauto].
      eexists _, _. split; [reflexivity|].
      rewrite <- encode_records_insert_sorted by assumption.
      apply unique_row_ok_insert; [|apply insert_sorted_ascending; assumption|assumption].
      destruct records as [|[l b] rs]; [congruence|].
      simpl. destruct (L <? l); discriminate.
    + rewrite unique_insert_fresh by assumption.
      eexists _, _. split; [reflexivity|].
      apply unique_row_ok_insert; [discriminate|repeat constructor|assumption].
  - destruct d.
    + destruct (t !! ks_encode K kInclusive) as [v|] eqn:Hrow.
      * destruct (Hok K v Hrow) as (records & Hne & -> & Hasc).
        rewrite (unique_unindex_existing t K L _ _ Hrow (decodes_encode_records _)).
        case_bool_decide as Hin; [|eauto].
        destruct (remove_loc L records) as [|r rs] eqn:Hrem; simpl.
        -- eexists. split; [reflexivity|]. apply unique_row_ok_delete, Hok.
        -- eexists. split; [reflexivity|].
           apply unique_row_ok_insert; [discriminate| |assumption].
           rewrite <- Hrem. apply remove_loc_ascending, Hasc.
      * rewrite unique_unindex_no_row by assumption. eauto.
    + unfold unique_unindex, wt_remove. simpl.
      destruct (t !! ks_encode K kInclusive); simpl; [|eauto].
      eexists. split; [reflexivity|]. apply unique_row_ok_delete, Hok.
Qed.

(** Two values that read back as duplicate lists and are equal hold the
    same locs. *)
Lemma decodes_same_locs (v : bytes) (r1 r2 : list (RecordId * TypeBits)) (L : RecordId) :
  decodes v r1 -> decodes v r2 -> L ∈ r1.*1 -> L ∈ r2.*1.
Proof.
  intros H1 H2 Hin.
  pose proof (isDup_scan_decodes v r1 H1 (length v) L (decodes_length _ _ H1)) as E1.
  pose proof (isDup_scan_decodes v r2 H2 (length v) L (decodes_length _ _ H2)) as E2.
  rewrite E1 in E2. rewrite bool_decide_eq_true_2 in E2 by assumption.
  destruct (decide (L ∈ r2.*1)) as [?|Hn]; [assumption|].
  rewrite bool_decide_eq_false_2 in E2 by assumption. discriminate.
Qed.

(** After [unindex(K, L)] (called with dups allowed) the pair is gone: the
    table holds no entry for (K, L) and a second [unindex] changes
    nothing. *)
Theorem unindex_removes_pair (fl : Flavor) (t t1 : gmap bytes bytes)
    (K : BSONObj) (L : RecordId) :
  isNormal L = true -> hasFieldNames K = false ->
  (fl = Unique -> unique_row_ok t K) ->
  unindex fl t K L true = Some t1 ->
  unindex fl t1 K L true = Some t1 /\ ~ holds_once fl t1 K L.
Proof.
  intros Hn Hf Hok. rewrite !unindex_legal by assumption. destruct fl; simpl.
  - unfold standard_unindex, wt_remove. simpl. intros E.
    assert (Hgone : t1 !! standard_key K L = None).
    { destruct (t !! standard_key K L) eqn:Hrow; simpl in E; inversion E; subst.
      - apply lookup_delete_eq.
      - assumption. }
    rewrite Hgone. split; [reflexivity|]. intros [v Hv]. congruence.
  - specialize (Hok eq_refl).
    destruct (t !! ks_encode K kInclusive) as [v|] eqn:Hrow.
    + destruct (Hok v Hrow) as (records & Hne & -> & Hasc).
      rewrite (unique_unindex_existing t K L _ _ Hrow (decodes_encode_records _)).
      assert (Habsent : L ∉ (remove_loc L records).*1)
        by (rewrite remove_loc_locs; tauto).
      case_bool_decide as Hin.
      * destruct (remove_loc L records) as [|r rs] eqn:Hrem; simpl;
          intros E; inversion E; subst t1; clear E.
        -- rewrite unique_unindex_no_row by apply lookup_delete_eq.
           split; [reflexivity|]. intros (rs & Hrs & _).
           rewrite lookup_delete_eq in Hrs. discriminate.
        -- rewrite (unique_unindex_existing _ K L _ (r :: rs)
                      (lookup_insert_eq _ _ _) (decodes_encode_records _)).
           rewrite bool_decide_eq_false_2 by assumption.
           split; [reflexivity|]. intros (rs' & Hrs & Hcount).
           rewrite lookup_insert_eq in Hrs. inversion Hrs as [Heq].
           apply Habsent.
           apply (decodes_same_locs (encode_records rs') rs' (r :: rs));
             [apply decodes_encode_records
             |rewrite <- Heq; apply decodes_encode_records|].
           apply list_elem_of_fmap.
           destruct (filter (fun r0 => r0.1 = L) rs') as [|x xs] eqn:Hfil;
             [discriminate|].
           assert (Hx : x ∈ filter (fun r0 => r0.1 = L) rs') by (rewrite Hfil; left).
           apply list_elem_of_filter in Hx as [Hx1 Hx2].
           exists x. auto.
      * intros E; inversion E; subst t1; clear E.
        rewrite (unique_unindex_existing t K L _ _ Hrow (decodes_encode_records _)).
        rewrite bool_decide_eq_false_2 by assumption.
        split; [reflexivity|]. intros (rs' & Hrs & Hcount).
        rewrite Hrow in Hrs. inversion Hrs as [Heq].
        apply Hin.
        apply (decodes_same_locs (encode_records rs') rs' records);
          [apply decodes_encode_records
          |rewrite <- Heq; apply decodes_encode_records|].
        apply list_elem_of_fmap.
        destruct (filter (fun r0 => r0.1 = L) rs') as [|x xs] eqn:Hfil;
          [discriminate|].
        assert (Hx : x ∈ filter (fun r0 => r0.1 = L) rs') by (rewrite Hfil; left).
        apply list_elem_of_filter in Hx as [Hx1 Hx2].
        exists x. auto.
    + rewrite unique_unindex_no_row by assumption.
      intros E; inversion E; subst t1; clear E.
      rewrite unique_unindex_no_row by assumption.
      split; [reflexivity|]. intros (rs & Hrs & _). congruence.
Qed.
End UniqueRows.

(** A unique index with the locs 1 and 2 at key 3. *)
Definition two_locs_table : gmap bytes bytes :=
  {[ @ks_encode toyCodec (toy_key 3) kInclusive :=
       encode_records (H:=toyCodec) [(1, 0%N); (2, 0%N)] ]}.

Lemma two_locs_table_ok (K' : list (string * Toy.Value)) :
  unique_row_ok (H:=toyCodec) two_locs_table K'.
Proof.
  intros v Hv. unfold two_locs_table in Hv.
  apply lookup_singleton_Some in Hv as [_ <-].
  exists [(1, 0%N); (2, 0%N)].
  split; [discriminate|split; [reflexivity|]].
  repeat constructor.
Qed.

Lemma unique_rows_stay_lists_witness :
  exists t',
    unindex (H:=toyCodec) Unique two_locs_table (toy_key 3) 2 true = Some t' /\
    forall K', unique_row_ok (H:=toyCodec) t' K'.
Proof.
  destruct (unique_rows_stay_lists (H:=toyCodec) two_locs_table (toy_key 3) 2 true
              eq_refl eq_refl eq_refl two_locs_table_ok) as [_ Hun].
  exact Hun.
Defined.

Lemma unindex_removes_pair_witness :
  let t1 : gmap bytes bytes :=
    {[ @ks_encode toyCodec (toy_key 3) kInclusive := @appendRecordId toyCodec 1 ]} in
  unindex (H:=toyCodec) Unique t1 (toy_key 3) 2 true = Some t1 /\
  ~ holds_once (H:=toyCodec) Unique t1 (toy_key 3) 2.
Proof.
  intros t1.
  apply (unindex_removes_pair (H:=toyCodec) Unique two_locs_table t1 (toy_key 3) 2
           eq_refl eq_refl (fun _ => two_locs_table_ok (toy_key 3))).
  vm_compute. reflexivity.
Defined.

(** ** Scans *)

(** The number of rows strictly above a key. *)
Definition count_above (k : bytes) (t : gmap bytes bytes) : nat :=
  length (filter (fun x => lex_ltb k x = true) (keys_of t)).

(** The keys above [k] in ascending order, at most [fuel] of them. *)
Fixpoint keys_from (fuel : nat) (k : bytes) (t : gmap bytes bytes) : list bytes :=
  match fuel with
  | O => []
  | S fuel' =>
      match least_above k t with
      | None => []
      | Some k' => k' :: keys_from fuel' k' t
      end
  end.

Lemma filter_length_mono {A} (P Q : A -> Prop) `{!forall x, Decision (P x)}
    `{!forall x, Decision (Q x)} (l : list A) :
  (forall x, x ∈ l -> P x -> Q x) ->
  (length (filter P l) <= length (filter Q l))%nat.
Proof.
  induction l as [|a l IH]; intros Himp; [reflexivity|].
  rewrite !filter_cons.
  assert (IH' : (length (filter P l) <= length (filter Q l))%nat)
    by (apply IH; intros x Hx; apply Himp; right; exact Hx).
  destruct (decide (P a)) as [Hp|Hp], (decide (Q a)) as [Hq|Hq]; simpl; try lia.
  exfalso. apply Hq, Himp; [left|exact Hp].
Qed.

Lemma filter_length_less {A} (P Q : A -> Prop) `{!forall x, Decision (P x)}
    `{!forall x, Decision (Q x)} (l : list A) (a : A) :
  (forall x, x ∈ l -> P x -> Q x) -> a ∈ l -> Q a -> ~ P a ->
  (length (filter P l) < length (filter Q l))%nat.
Proof.
  induction l as [|b l IH]; intros Himp Hin Hq Hp; [inversion Hin|].
  rewrite !filter_cons.
  assert (Hmono : (length (filter P l) <= length (filter Q l))%nat)
    by (apply filter_length_mono; intros x Hx; apply Himp; right; exact Hx).
  apply elem_of_cons in Hin as [<-|Hin].
  - rewrite decide_False by assumption. rewrite decide_True by assumption.
    simpl. lia.
  - assert (IH' : (length (filter P l) < length (filter Q l))%nat)
      by (apply IH; auto; intros x Hx; apply Himp; right; exact Hx).
    destruct (decide (P b)) as [Hpb|Hpb], (decide (Q b)) as [Hqb|Hqb]; simpl; try lia.
    exfalso. apply Hqb, Himp; [left|exact Hpb].
Qed.

Lemma count_above_step (k k' : bytes) (t : gmap bytes bytes) :
  least_above k t = Some k' -> (count_above k' t < count_above k t)%nat.
Proof.
  intros Hk. apply least_above_Some in Hk as (Hin & Hlt & _).
  unfold count_above. apply (filter_length_less _ _ _ k').
  - intros x _ Hx. apply lex_ltb_Lt. apply lex_ltb_Lt in Hx.
    eapply lex_compare_trans; eassumption.
  - apply elem_of_keys_of, Hin.
  - apply lex_ltb_Lt, Hlt.
  - rewrite lex_ltb_irrefl. discriminate.
Qed.

Lemma count_above_size (k : bytes) (t : gmap bytes bytes) :
  (count_above k t <= size t)%nat.
Proof.
  unfold count_above, keys_of. rewrite <- length_map_to_list.
  rewrite <- (length_fmap fst (map_to_list t)). apply length_filter.
Qed.

(** With enough fuel, [keys_from] lists the keys above [k], each once, in
    ascending order. *)
Lemma keys_from_spec (t : gmap bytes bytes) (fuel : nat) :
  forall k, (count_above k t <= fuel)%nat ->
    StronglySorted (fun a b => lex_compare a b = Lt) (keys_from fuel k t) /\
    (forall x, x ∈ keys_from fuel k t <-> is_Some (t !! x) /\ lex_compare k x = Lt) /\
    length (keys_from fuel k t) = count_above k t.
Proof.
  induction fuel as [|fuel IH]; intros k Hfuel.
  - simpl. split; [constructor|]. split.
    + intros x. split; [intros Hx; inversion Hx|]. intros [Hx Hlt]. exfalso.
      assert (Hin : x ∈ filter (fun y => lex_ltb k y = true) (keys_of t)).
      { apply list_elem_of_filter. split; [apply lex_ltb_Lt, Hlt|apply elem_of_keys_of, Hx]. }
      unfold count_above in Hfuel.
      destruct (filter (fun y => lex_ltb k y = true) (keys_of t)); [inversion Hin|simpl in Hfuel; lia].
    + lia.
  - simpl. destruct (least_above k t) as [k'|] eqn:Hk.
    + pose proof (count_above_step k k' t Hk) as Hstep.
      destruct (IH k') as (Hsorted & Hmem & Hlen); [lia|].
      pose proof (least_above_Some k t k' Hk) as (Hin & Hlt & Hmin).
      split; [|split].
      * constructor; [exact Hsorted|]. apply Forall_forall. intros x Hx.
        apply Hmem in Hx. apply Hx.
      * intros x. rewrite elem_of_cons, Hmem. split.
        -- intros [->|[Hx Hlt']]; [auto|]. split; [exact Hx|].
           eapply lex_compare_trans; eassumption.
        -- intros [Hx Hlt']. destruct (lex_compare_total k' x) as [?|[?|Hxk]]; auto.
           exfalso. specialize (Hmin x Hx Hlt'). apply lex_le_antisym_lt in Hmin.
           contradiction.
      * simpl. rewrite Hlen.
        (* the keys above k are k' and the keys above k' *)
        unfold count_above.
        assert (Hperm : filter (fun y => lex_ltb k y = true) (keys_of t)
                        ≡ₚ k' :: filter (fun y => lex_ltb k' y = true) (keys_of t)).
        { apply NoDup_Permutation.
          - apply NoDup_filter, NoDup_fst_map_to_list.
          - constructor; [|apply NoDup_filter, NoDup_fst_map_to_list].
            rewrite list_elem_of_filter, lex_ltb_irrefl. intros [? _]. discriminate.
          - intros x. rewrite elem_of_cons, !list_elem_of_filter, !lex_ltb_Lt,
              !elem_of_keys_of. split.
            + intros [Hlt' Hx]. destruct (lex_compare_total k' x) as [?|[?|Hxk]]; auto.
              exfalso. specialize (Hmin x Hx Hlt'). apply lex_le_antisym_lt in Hmin.
              contradiction.
            + intros [->|[Hlt' Hx]]; [auto|]. split; [|exact Hx].
              eapply lex_compare_trans; eassumption. }
        rewrite Hperm. reflexivity.
    + split; [constructor|]. split.
      * intros x. split; [intros Hx; inversion Hx|]. intros [Hx Hlt].
        exfalso. exact (least_above_None k t Hk x Hx Hlt).
      * unfold count_above. simpl.
        destruct (filter (fun y => lex_ltb k y = true) (keys_of t)) as [|x l] eqn:Hfil;
          [reflexivity|].
        exfalso. assert (Hx : x ∈ filter (fun y => lex_ltb k y = true) (keys_of t))
          by (rewrite Hfil; left).
        apply list_elem_of_filter in Hx as [Hlt Hx].
        apply lex_ltb_Lt in Hlt. apply elem_of_keys_of in Hx.
        exact (least_above_None k t Hk x Hx Hlt).
Qed.

Section Scan.
Context `{KeyStringCodec}.
Import Cursor.

(** The loop [for (kv = seek(...); kv; kv = next())] after its first entry:
    the entries [next] returns until it returns none. *)
Fixpoint scan_rest (fuel : nat) (fl : Flavor) (t : gmap bytes bytes) (c : State)
    (wantKey : bool) : option (list IndexKeyEntry) :=
  match fuel with
  | O => None
  | S fuel' =>
      match next fl t c wantKey with
      | None => None
      | Some (_, None) => Some []
      | Some (c', Some e) =>
          match scan_rest fuel' fl t c' wantKey with
          | Some out => Some (e :: out)
          | None => None
          end
      end
  end.

(** A forward scan of the whole index, from a seek for the empty key. *)
Definition full_scan (fuel : nat) (fl : Flavor) (t : gmap bytes bytes)
    (wantKey preferBelow : bool) : option (list IndexKeyEntry) :=
  match seek fl t (init true) [] true wantKey preferBelow with
  | None => None
  | Some (_, None) => Some []
  | Some (c, Some e) =>
      match scan_rest fuel fl t c wantKey with
      | Some out => Some (e :: out)
      | None => None
      end
  end.

(** The cursor is on the row [k]: the engine cursor and the cached key are
    there, and no end position is set. *)
Definition on_row (c : State) (k : bytes) : Prop :=
  _cursor c = Some k /\ _key c = k /\ _eof c = false /\
  _lastMoveWasRestore c = false /\ _endPosition c = None.

(** The entry of the row [k]. *)
Definition entry_at (fl : Flavor) (t : gmap bytes bytes) (wantKey : bool)
    (k : bytes) (e : IndexKeyEntry) : Prop :=
  exists v K, t !! k = Some v /\ wf_entry fl k v K e.2 /\
              e.1 = (if wantKey then K else []).

Lemma seek_target_Some (forward : bool) (q k : bytes) (t : gmap bytes bytes) :
  seek_target forward q t = Some k -> is_Some (t !! k).
Proof.
  unfold seek_target. destruct forward; intros Hk.
  - apply least_above_Some in Hk. apply Hk.
  - apply greatest_below_Some in Hk. apply Hk.
Qed.

(** From an engine cursor placed by a move: the entry of the row it is on,
    or the end. *)
Lemma emit_at_target (fl : Flavor) (t : gmap bytes bytes) (c : State)
    (target : option bytes) (wantKey : bool) :
  wf_table fl t -> _endPosition c = None ->
  (forall k, target = Some k -> is_Some (t !! k)) ->
  let c1 := set_engine c target (bool_decide (target = None)) in
  match target with
  | None =>
      exists c', updatePosition fl t c1 = Some c' /\ curr c' wantKey = Some None
  | Some k =>
      exists c' e,
        updatePosition fl t c1 = Some c' /\ curr c' wantKey = Some (Some e) /\
        entry_at fl t wantKey k e /\ on_row c' k /\ _forward c' = _forward c
  end.
Proof.
  intros Hwf Hend Hin c1. destruct target as [k|].
  - destruct (Hin k eq_refl) as [v Hv]. destruct (Hwf k v Hv) as (K & L & Hent).
    assert (Hb : bool_decide (Some k = @None bytes) = false)
      by (apply bool_decide_eq_false_2; discriminate).
    subst c1. rewrite Hb.
    set (c1 := set_engine c (Some k) false).
    assert (Hat : atOrPastEndPointAfterSeeking (at_key c1 k) = Some false).
    { unfold atOrPastEndPointAfterSeeking. simpl. rewrite Hend. reflexivity. }
    rewrite (updatePosition_on_row fl t c1 k v K L eq_refl eq_refl Hv Hent Hat).
    eexists _, _. split; [reflexivity|]. split.
    + apply (curr_on_row fl c1 k v K L wantKey Hent Hat).
    + split; [exists v, K; auto|]. split; [|reflexivity].
      repeat split; simpl; auto.
  - subst c1. rewrite bool_decide_eq_true_2 by reflexivity.
    rewrite updatePosition_at_eof by reflexivity. eexists. split; reflexivity.
Qed.

(** [next] from a row goes to the next row in the direction of the cursor. *)
Lemma next_from_row (fl : Flavor) (t : gmap bytes bytes) (c : State) (k : bytes)
    (wantKey : bool) :
  wf_table fl t -> on_row c k ->
  match seek_target (_forward c) k t with
  | None => exists c', next fl t c wantKey = Some (c', None)
  | Some k' =>
      exists c' e,
        next fl t c wantKey = Some (c', Some e) /\
        entry_at fl t wantKey k' e /\ on_row c' k' /\ _forward c' = _forward c
  end.
Proof.
  intros Hwf (Hcur & Hkey & Heof & Hlast & Hend).
  unfold next. rewrite Heof, Hlast. simpl.
  assert (Hadv : advanceWTCursor t c
                 = set_engine c (seek_target (_forward c) k t)
                     (bool_decide (seek_target (_forward c) k t = None))).
  { unfold advanceWTCursor, seek_target. rewrite Hcur. simpl.
    destruct (_forward c);
      [destruct (least_above k t)|destruct (greatest_below k t)]; reflexivity. }
  rewrite Hadv.
  pose proof (emit_at_target fl t c (seek_target (_forward c) k t) wantKey Hwf Hend
                (fun k0 => seek_target_Some _ _ k0 t)) as Hemit.
  simpl in Hemit. destruct (seek_target (_forward c) k t) as [k'|].
  - destruct Hemit as (c' & e & -> & -> & He & Hrow & Hf). eauto 6.
  - destruct Hemit as (c' & -> & ->). eauto.
Qed.

(** A seek without end position lands on the target of its query. *)
Lemma seek_lands (fl : Flavor) (t : gmap bytes bytes) (c : State) (key : BSONObj)
    (inclusive wantKey preferBelow : bool) :
  wf_table fl t -> _endPosition c = None ->
  let q := ks_encode (stripFieldNames key) (seek_discriminator (_forward c) inclusive) in
  match seek_target (_forward c) q t with
  | None => exists c', seek fl t c key inclusive wantKey preferBelow = Some (c', None)
  | Some k =>
      exists c' e,
        seek fl t c key inclusive wantKey preferBelow = Some (c', Some e) /\
        entry_at fl t wantKey k e /\ on_row c' k /\ _forward c' = _forward c
  end.
Proof.
  intros Hwf Hend q.
  assert (Hq : t !! q = None).
  { apply (exclusive_not_in_table fl); [assumption|apply hasFieldNames_strip|].
    unfold seek_discriminator. destruct inclusive, (_forward c); discriminate. }
  unfold seek. rewrite seek_discriminator_eqb. fold q.
  change (_query (set_query c q)) with q.
  rewrite (seekWTCursor_missing t (set_query c q) q preferBelow Hq).
  change (_forward (set_query c q)) with (_forward c).
  pose proof (emit_at_target fl t (set_query c q) (seek_target (_forward c) q t)
                wantKey Hwf Hend (fun k0 => seek_target_Some _ _ k0 t)) as Hemit.
  simpl in Hemit. destruct (seek_target (_forward c) q t) as [k|].
  - destruct Hemit as (c' & e & -> & -> & He & Hrow & Hf). eauto 6.
  - destruct Hemit as (c' & -> & ->). eauto.
Qed.

Lemma scan_rest_keys (fl : Flavor) (t : gmap bytes bytes) (wantKey : bool) :
  wf_table fl t ->
  forall fuel c k,
    on_row c k -> _forward c = true -> (count_above k t < fuel)%nat ->
    exists out,
      scan_rest fuel fl t c wantKey = Some out /\
      Forall2 (entry_at fl t wantKey) (keys_from fuel k t) out.
Proof.
  intros Hwf. induction fuel as [|fuel IH]; intros c k Hrow Hf Hfuel; [lia|].
  simpl. pose proof (next_from_row fl t c k wantKey Hwf Hrow) as Hnext.
  rewrite Hf in Hnext. simpl in Hnext.
  destruct (least_above k t) as [k'|] eqn:Hk.
  - destruct Hnext as (c' & e & -> & He & Hrow' & Hf').
    pose proof (count_above_step k k' t Hk) as Hstep.
    destruct (IH c' k' Hrow') as (out & -> & Hout); [congruence|lia|].
    exists (e :: out). split; [reflexivity|]. constructor; assumption.
  - destruct Hnext as (c' & ->). exists []. split; [reflexivity|constructor].
Qed.

(** When the empty key is the least key, every row is above the query of a
    forward inclusive seek for the empty key. *)
Lemma all_rows_above_empty (fl : Flavor) (t : gmap bytes bytes) (k : bytes) :
  wf_table fl t ->
  (forall K : BSONObj, hasFieldNames K = false -> woCompare K [] <> Lt) ->
  is_Some (t !! k) ->
  lex_compare (ks_encode [] kExclusiveBefore) k = Lt.
Proof.
  intros Hwf Hleast [v Hv]. destruct (Hwf k v Hv) as (K & L & Hent).
  destruct (wf_entry_legal _ _ _ _ _ Hent) as [s ->].
  assert (HK : hasFieldNames K = false) by apply Hent.
  apply (in_seek_range_lex true true [] K s eq_refl HK). simpl. apply Hleast, HK.
Qed.

Lemma count_above_all (fl : Flavor) (t : gmap bytes bytes) :
  wf_table fl t ->
  (forall K : BSONObj, hasFieldNames K = false -> woCompare K [] <> Lt) ->
  count_above (ks_encode [] kExclusiveBefore) t = size t.
Proof.
  intros Hwf Hleast. unfold count_above.
  rewrite <- length_map_to_list. rewrite <- (length_fmap fst (map_to_list t)).
  f_equal. fold (keys_of t).
  assert (Hall : Forall (fun x => lex_ltb (ks_encode [] kExclusiveBefore) x = true)
                        (keys_of t)).
  { apply Forall_forall. intros x Hx. apply lex_ltb_Lt.
    apply (all_rows_above_empty fl t x Hwf Hleast), elem_of_keys_of, Hx. }
  induction Hall as [|x l Hx Hl IH]; [reflexivity|].
  rewrite filter_cons, decide_True by assumption. f_equal. exact IH.
Qed.

(** Cursor exhaustiveness: on a well-formed table of either flavor, a
    forward scan that starts with a seek for the empty key and calls [next]
    until it returns nothing emits the entry of every row exactly once, in
    ascending order of the engine keys.  (The empty key is assumed least in
    the order of keys.) *)
Theorem forward_scan_exhaustive (fl : Flavor) (t : gmap bytes bytes) (fuel : nat)
    (wantKey preferBelow : bool) :
  wf_table fl t ->
  (forall K : BSONObj, hasFieldNames K = false -> woCompare K [] <> Lt) ->
  (size t <= fuel)%nat ->
  exists out ks,
    full_scan fuel fl t wantKey preferBelow = Some out /\
    Forall2 (entry_at fl t wantKey) ks out /\
    StronglySorted (fun a b => lex_compare a b = Lt) ks /\
    (forall k, k ∈ ks <-> is_Some (t !! k)) /\
    length out = size t.
Proof.
  intros Hwf Hleast Hfuel.
  set (q := ks_encode [] kExclusiveBefore).
  pose proof (count_above_all fl t Hwf Hleast) as Hcount. fold q in Hcount.
  destruct (keys_from_spec t (S fuel) q) as (Hsorted & Hmem & Hlen); [lia|].
  pose proof (seek_lands fl t (init true) [] true wantKey preferBelow Hwf eq_refl)
    as Hseek.
  simpl in Hseek. change (stripFieldNames []) with (@nil (string * BSONValue)) in Hseek.
  fold q in Hseek. unfold full_scan. simpl in Hsorted, Hmem, Hlen.
  destruct (least_above q t) as [k|] eqn:Hk.
  - destruct Hseek as (c' & e & -> & He & Hrow & Hf).
    pose proof (count_above_step q k t Hk) as Hstep.
    destruct (scan_rest_keys fl t wantKey Hwf fuel c' k Hrow Hf) as (out & -> & Hout);
      [lia|].
    exists (e :: out), (k :: keys_from fuel k t).
    split; [reflexivity|]. split; [constructor; assumption|].
    split; [exact Hsorted|]. split.
    + intros x. rewrite Hmem. split; [tauto|]. intros Hx. split; [exact Hx|].
      apply (all_rows_above_empty fl t x Hwf Hleast Hx).
    + rewrite <- Hcount, <- Hlen. simpl. f_equal.
      symmetry. eapply Forall2_length. exact Hout.
  - destruct Hseek as (c' & ->). exists [], [].
    split; [reflexivity|]. split; [constructor|]. split; [constructor|]. split.
    + intros x. split; [intros Hx; inversion Hx|]. intros Hx. exfalso.
      exact (least_above_None q t Hk x Hx (all_rows_above_empty fl t x Hwf Hleast Hx)).
    + rewrite <- Hcount, <- Hlen. reflexivity.
Qed.
End Scan.

Lemma toy_empty_key_least (K : list (string * Toy.Value)) :
  @hasFieldNames (@BSONValue toyCodec) K = false -> @woCompare toyCodec K [] <> Lt.
Proof. intros _. destruct K; discriminate. Qed.

Lemma forward_scan_exhaustive_witness :
  exists out ks,
    full_scan (H:=toyCodec) 5 Standard S4_table true false = Some out /\
    Forall2 (entry_at (H:=toyCodec) Standard S4_table true) ks out /\
    length out = 5%nat.
Proof.
  destruct (forward_scan_exhaustive (H:=toyCodec) Standard S4_table 5 true false
              S4_table_wf toy_empty_key_least)
    as (out & ks & Hscan & Hentries & _ & _ & Hlen).
  - vm_compute. lia.
  - exists out, ks. split; [exact Hscan|]. split; [exact Hentries|].
    rewrite Hlen. vm_compute. reflexivity.
Defined.

(** The scan of the table of scenario S4. *)
Example full_scan_S4 :
  full_scan (H:=toyCodec) 5 Standard S4_table true false
  = Some [(toy_key 1, 1); (toy_key 2, 1); (toy_key 3, 1); (toy_key 4, 1); (toy_key 5, 1)].
Proof. vm_compute. reflexivity. Qed.

(** ** Validation *)

(** Modelled from the spec: what [WiredTigerUtil::verifyTable] returns, no
    error, EBUSY, or another error with its text. *)
Inductive VerifyResult :=
| VerifyOk
| VerifyBusy
| VerifyError (strerror : string).

(** The fields [fullValidate] appends to its output document. *)
Inductive OutputField :=
| OutErrors (errors : list string)
| OutWarning (msg : string)
| OutValid (valid : bool).

Definition busy_msg : string := "verify() returned EBUSY. Not treating as invalid.".

Definition damage_msg (strerror : string) : string :=
  ("verify() returned " ++ strerror ++ ". "
   ++ "This indicates structural damage. "
   ++ "Not examining individual index entries.")%string.

Section Validate.
Context `{KeyStringCodec}.
Import Cursor.

(** The body of the counting loop after an entry was returned: the count is
    incremented and [next()] is called with its default [kKeyAndLoc]. *)
Fixpoint count_rest (fuel : nat) (fl : Flavor) (t : gmap bytes bytes) (c : State)
    (count : Z) : option Z :=
  match fuel with
  | O => None
  | S fuel' =>
      match next fl t c true with
      | None => None
      | Some (_, None) => Some (count + 1)
      | Some (c', Some _) => count_rest fuel' fl t c' (count + 1)
      end
  end.

(** The loop [for (kv = seek(BSONObj(), true, kJustExistance); kv;
    kv = next()) count++] on a new forward cursor. *)
Definition count_entries (fuel : nat) (fl : Flavor) (t : gmap bytes bytes)
    (preferBelow : bool) : option Z :=
  match seek fl t (init true) [] true false preferBelow with
  | None => None
  | Some (_, None) => Some 0
  | Some (c, Some _) => count_rest fuel fl t c 0
  end.

(** [WiredTigerIndex::fullValidate]: [verify] and [errors] are what
    [verifyTable] returned, [output] is the output document when there is
    one, [wantNumKeys] tells whether [numKeysOut] is given.  The result is the
    value written to [numKeysOut], if any, and the output document; [None] is
    the failed invariant at the end of a full validation without output. *)
Definition fullValidate (fuel : nat) (fl : Flavor) (t : gmap bytes bytes)
    (verify : VerifyResult) (errors : list string) (full wantNumKeys : bool)
    (output : option (list OutputField)) (preferBelow : bool)
  : option (option Z * option (list OutputField)) :=
  let checked : option (list OutputField) + option (list OutputField) :=
    match verify with
    | VerifyBusy =>
        inl (match output with
             | Some out =>
                 Some ((if negb (empty_b errors) then out ++ [OutErrors errors] else out)
                       ++ [OutWarning busy_msg])
             | None => None
             end)
    | VerifyError strerror =>
        inr (match output with
             | Some out =>
                 Some (out ++ [OutErrors (errors ++ [damage_msg strerror]);
                               OutValid false])
             | None => None
             end)
    | VerifyOk => inl output
    end in
  match checked with
  | inr output => Some (None, output)
  | inl output =>
      let output :=
        match output with
        | Some out => Some (out ++ [OutValid true])
        | None => None
        end in
      match count_entries fuel fl t preferBelow with
      | None => None
      | Some count =>
          let numKeys := if wantNumKeys then Some count else None in
          if negb full then Some (numKeys, output)
          else
            match output with
            | Some _ => Some (numKeys, output)
            | None => None
            end
      end
  end.

Lemma count_rest_rows (fl : Flavor) (t : gmap bytes bytes) :
  wf_table fl t ->
  forall fuel c k count,
    on_row c k -> _forward c = true -> (count_above k t < fuel)%nat ->
    count_rest fuel fl t c count = Some (count + 1 + Z.of_nat (count_above k t)).
Proof.
  intros Hwf. induction fuel as [|fuel IH]; intros c k count Hrow Hf Hfuel; [lia|].
  simpl. pose proof (next_from_row fl t c k true Hwf Hrow) as Hnext.
  rewrite Hf in Hnext. simpl in Hnext.
  destruct (least_above k t) as [k'|] eqn:Hk.
  - destruct Hnext as (c' & e & -> & He & Hrow' & Hf').
    pose proof (count_above_step k k' t Hk) as Hstep.
    rewrite (IH c' k' (count + 1) Hrow') by (congruence || lia).
    destruct (keys_from_spec t (S (count_above k t)) k) as (_ & _ & Hlen); [lia|].
    simpl in Hlen. rewrite Hk in Hlen. simpl in Hlen.
    destruct (keys_from_spec t (count_above k t) k') as (_ & _ & Hlen'); [lia|].
    f_equal. lia.
  - destruct Hnext as (c' & ->).
    destruct (keys_from_spec t (S (count_above k t)) k) as (_ & _ & Hlen); [lia|].
    simpl in Hlen. rewrite Hk in Hlen. simpl in Hlen. f_equal. lia.
Qed.

Lemma count_entries_size (fl : Flavor) (t : gmap bytes bytes) (fuel : nat)
    (preferBelow : bool) :
  wf_table fl t ->
  (forall K : BSONObj, hasFieldNames K = false -> woCompare K [] <> Lt) ->
  (size t <= fuel)%nat ->
  count_entries fuel fl t preferBelow = Some (Z.of_nat (size t)).
Proof.
  intros Hwf Hleast Hfuel.
  set (q := ks_encode [] kExclusiveBefore).
  pose proof (count_above_all fl t Hwf Hleast) as Hcount. fold q in Hcount.
  pose proof (seek_lands fl t (init true) [] true false preferBelow Hwf eq_refl)
    as Hseek.
  simpl in Hseek. change (stripFieldNames []) with (@nil (string * BSONValue)) in Hseek.
  fold q in Hseek. unfold count_entries.
  destruct (keys_from_spec t (S (count_above q t)) q) as (_ & _ & Hlen); [lia|].
  simpl in Hlen.
  destruct (least_above q t) as [k|] eqn:Hk.
  - destruct Hseek as (c' & e & -> & He & Hrow & Hf).
    pose proof (count_above_step q k t Hk) as Hstep.
    rewrite (count_rest_rows fl t Hwf fuel c' k 0 Hrow Hf) by lia.
    destruct (keys_from_spec t (count_above q t) k) as (_ & _ & Hlen'); [lia|].
    simpl in Hlen. f_equal. lia.
  - destruct Hseek as (c' & ->). simpl in Hlen. f_equal. lia.
Qed.

(** [fullValidate] counts every entry: unless [verifyTable] reported damage,
    the number written to [numKeysOut] is the number of rows of the table and
    the output says valid (with a warning after EBUSY); when it reported
    damage nothing is counted and the output gets the error and valid =
    false.  A full validation needs an output document. *)
Theorem fullValidate_counts_rows (fl : Flavor) (t : gmap bytes bytes) (fuel : nat)
    (errors : list string) (full wantNumKeys preferBelow : bool)
    (output : option (list OutputField)) :
  wf_table fl t ->
  (forall K : BSONObj, hasFieldNames K = false -> woCompare K [] <> Lt) ->
  (size t <= fuel)%nat ->
  let numKeys := if wantNumKeys then Some (Z.of_nat (size t)) else None in
  (forall verify, verify = VerifyOk \/ verify = VerifyBusy ->
     forall out, output = Some out ->
       exists out',
         fullValidate fuel fl t verify errors full wantNumKeys output preferBelow
         = Some (numKeys, Some (out' ++ [OutValid true])) /\
         (verify = VerifyOk -> out' = out) /\
         (verify = VerifyBusy -> exists mid, out' = out ++ mid ++ [OutWarning busy_msg])) /\
  (forall verify, verify = VerifyOk \/ verify = VerifyBusy ->
     output = None ->
     fullValidate fuel fl t verify errors full wantNumKeys output preferBelow
     = if full then None else Some (numKeys, None)) /\
  (forall strerror,
     fullValidate fuel fl t (VerifyError strerror) errors full wantNumKeys output
       preferBelow
     = Some (None, match output with
                   | Some out =>
                       Some (out ++ [OutErrors (errors ++ [damage_msg strerror]);
                                     OutValid false])
                   | None => None
                   end)).
Proof.
  intros Hwf Hleast Hfuel numKeys.
  pose proof (count_entries_size fl t fuel preferBelow Hwf Hleast Hfuel) as Hcount.
  split; [|split].
  - intros verify Hv out ->. unfold fullValidate.
    destruct Hv as [-> | ->]; rewrite Hcount.
    + exists out. split; [destruct full; reflexivity|]. split; [auto|discriminate].
    + eexists. split; [destruct full; reflexivity|]. split; [discriminate|].
      intros _. destruct (empty_b errors); simpl.
      * exists []. reflexivity.
      * exists [OutErrors errors]. rewrite <- app_assoc. reflexivity.
  - intros verify Hv ->. unfold fullValidate.
    destruct Hv as [-> | ->]; rewrite Hcount; destruct full; reflexivity.
  - intros strerror. reflexivity.
Qed.
End Validate.

Lemma fullValidate_counts_rows_witness :
  fullValidate (H:=toyCodec) 5 Standard S4_table VerifyOk [] true true (Some []) false
  = Some (Some 5, Some [OutValid true]).
Proof.
  destruct (fullValidate_counts_rows (H:=toyCodec) Standard S4_table 5 [] true true
              false (Some []) S4_table_wf toy_empty_key_least) as (Hok & _ & _).
  - vm_compute. lia.
  - destruct (Hok VerifyOk (or_introl eq_refl) [] eq_refl) as (out' & Hval & Hout & _).
    rewrite Hval, (Hout eq_refl). vm_compute. reflexivity.
Defined.

(** ** Saving and restoring a cursor *)

Lemma lex_le_antisym (a b : bytes) : lex_le a b -> lex_le b a -> a = b.
Proof.
  intros Hab Hba. destruct (lex_compare_total a b) as [Hlt|[?|Hlt]]; [|assumption|].
  - apply lex_le_antisym_lt in Hba. contradiction.
  - apply lex_le_antisym_lt in Hab. contradiction.
Qed.

(** The searches depend only on the rows on the side they look at. *)
Lemma least_above_same_rows (k : bytes) (t1 t2 : gmap bytes bytes) :
  (forall x, lex_compare k x = Lt -> (is_Some (t1 !! x) <-> is_Some (t2 !! x))) ->
  least_above k t1 = least_above k t2.
Proof.
  intros Hsame.
  destruct (least_above k t1) as [a|] eqn:H1, (least_above k t2) as [b|] eqn:H2;
    try reflexivity.
  - apply least_above_Some in H1 as (Ha & Hka & Hmin1).
    apply least_above_Some in H2 as (Hb & Hkb & Hmin2).
    f_equal. apply lex_le_antisym.
    + apply Hmin1; [apply Hsame; assumption|assumption].
    + apply Hmin2; [apply Hsame; assumption|assumption].
  - apply least_above_Some in H1 as (Ha & Hka & _). exfalso.
    apply (least_above_None k t2 H2 a); [apply Hsame; assumption|assumption].
  - apply least_above_Some in H2 as (Hb & Hkb & _). exfalso.
    apply (least_above_None k t1 H1 b); [apply Hsame; assumption|assumption].
Qed.

Lemma greatest_below_same_rows (k : bytes) (t1 t2 : gmap bytes bytes) :
  (forall x, lex_compare x k = Lt -> (is_Some (t1 !! x) <-> is_Some (t2 !! x))) ->
  greatest_below k t1 = greatest_below k t2.
Proof.
  intros Hsame.
  destruct (greatest_below k t1) as [a|] eqn:H1, (greatest_below k t2) as [b|] eqn:H2;
    try reflexivity.
  - apply greatest_below_Some in H1 as (Ha & Hka & Hmax1).
    apply greatest_below_Some in H2 as (Hb & Hkb & Hmax2).
    f_equal. apply lex_le_antisym.
    + apply Hmax2; [apply Hsame; assumption|assumption].
    + apply Hmax1; [apply Hsame; assumption|assumption].
  - apply greatest_below_Some in H1 as (Ha & Hka & _). exfalso.
    apply (greatest_below_None k t2 H2 a); [apply Hsame; assumption|assumption].
  - apply greatest_below_Some in H2 as (Hb & Hkb & _). exfalso.
    apply (greatest_below_None k t1 H1 b); [apply Hsame; assumption|assumption].
Qed.

Section SaveRestore.
Context `{KeyStringCodec}.
Import Cursor.

(** The cursor is positioned: not at its end, and the engine cursor is on
    the cached key. *)
Definition positioned (c : State) : Prop :=
  _eof c = false /\ _lastMoveWasRestore c = false /\ _cursor c = Some (_key c).

Lemma seek_target_delete (forward : bool) (k : bytes) (t : gmap bytes bytes) :
  seek_target forward k (delete k t) = seek_target forward k t.
Proof.
  assert (Hsame : forall x, x <> k -> is_Some (delete k t !! x) <-> is_Some (t !! x))
    by (intros x Hx; rewrite lookup_delete_ne by congruence; reflexivity).
  unfold seek_target. destruct forward.
  - apply least_above_same_rows. intros x Hlt. apply Hsame.
    intros ->. rewrite lex_compare_refl in Hlt. discriminate.
  - apply greatest_below_same_rows. intros x Hlt. apply Hsame.
    intros ->. rewrite lex_compare_refl in Hlt. discriminate.
Qed.

Lemma advanceWTCursor_target (t : gmap bytes bytes) (c : State) (k : bytes) :
  _cursor c = Some k ->
  advanceWTCursor t c
  = set_engine c (seek_target (_forward c) k t)
      (bool_decide (seek_target (_forward c) k t = None)).
Proof.
  intros Hcur. unfold advanceWTCursor, seek_target. rewrite Hcur. simpl.
  destruct (_forward c);
    [destruct (least_above k t)|destruct (greatest_below k t)]; reflexivity.
Qed.

Lemma updatePosition_same_row (fl : Flavor) (t1 t2 : gmap bytes bytes) (c : State) :
  (forall k, _cursor c = Some k -> t1 !! k = t2 !! k) ->
  updatePosition fl t1 c = updatePosition fl t2 c.
Proof.
  intros Hsame. unfold updatePosition. simpl.
  destruct (_cursorAtEof c); [reflexivity|].
  destruct (_cursor c) as [item|] eqn:Hcur; [|reflexivity].
  destruct (atOrPastEndPointAfterSeeking _) as [[|]|]; try reflexivity.
  unfold updateLocAndTypeBits, get_value. simpl. rewrite Hcur.
  rewrite (Hsame item eq_refl). reflexivity.
Qed.

(** Deleting the row the cursor is on does not change what [next] does. *)
Lemma next_after_delete (fl : Flavor) (t : gmap bytes bytes) (c : State)
    (wantKey : bool) :
  positioned c ->
  next fl (delete (_key c) t) c wantKey = next fl t c wantKey.
Proof.
  intros (Heof & Hlast & Hcur). unfold next. rewrite Heof, Hlast. simpl.
  rewrite !(advanceWTCursor_target _ c (_key c) Hcur), seek_target_delete.
  rewrite (updatePosition_same_row fl (delete (_key c) t) t); [reflexivity|].
  simpl. intros k Hk. apply lookup_delete_ne. intros <-.
  unfold seek_target in Hk. destruct (_forward c).
  - apply least_above_Some in Hk as (_ & Hlt & _).
    rewrite lex_compare_refl in Hlt. discriminate.
  - apply greatest_below_Some in Hk as (_ & Hlt & _).
    rewrite lex_compare_refl in Hlt. discriminate.
Qed.

(** Save/restore stability.  For a positioned cursor of a standard index
    that is saved and restored over a table [t'], whatever has changed:
    [next] after the restore does what [next] does on [t'] for a cursor that
    was never saved.  In particular, when the entry the cursor was on has
    been deleted, [next] returns what it would have returned on the old
    table, the successor of the deleted entry.  When the table has not
    changed, the restore of a saved cursor of either flavor gives back the
    state before the save. *)
Theorem restore_continues (t t' : gmap bytes bytes) (c : State)
    (wantKey preferBelow : bool) :
  positioned c ->
  (exists c1,
     restore Standard t' (savePositioned c) preferBelow = Some c1 /\
     next Standard t' c1 wantKey = next Standard t' c wantKey) /\
  (exists c1,
     restore Standard (delete (_key c) t) (savePositioned c) preferBelow = Some c1 /\
     next Standard (delete (_key c) t) c1 wantKey = next Standard t c wantKey) /\
  (forall fl v K,
     _cursorAtEof c = false ->
     t !! _key c = Some v -> wf_entry fl (_key c) v K (_loc c) ->
     restore fl t (savePositioned c) preferBelow = Some c).
Proof.
  intros Hpos.
  assert (Hany : forall t0 : gmap bytes bytes,
            exists c1,
              restore Standard t0 (savePositioned c) preferBelow = Some c1 /\
              next Standard t0 c1 wantKey = next Standard t0 c wantKey).
  { intros t0. destruct Hpos as (Heof & Hlast & Hcur).
    unfold restore, restoreBase. simpl. rewrite Heof. simpl.
    eexists. split; [reflexivity|].
    destruct (t0 !! _key c) as [v|] eqn:Hrow.
    - unfold seekWTCursor, wt_search_near. simpl. rewrite Hrow. simpl.
      unfold next. simpl. rewrite Heof, Hlast. simpl.
      rewrite (advanceWTCursor_target t0 c (_key c) Hcur).
      rewrite (advanceWTCursor_target t0
                 (set_lastMoveWasRestore
                    (set_engine (savePositioned c) (Some (_key c)) false) false)
                 (_key c) eq_refl).
      reflexivity.
    - rewrite (seekWTCursor_missing t0 (savePositioned c) (_key c) preferBelow Hrow).
      unfold next. simpl. rewrite Heof, Hlast. simpl.
      rewrite (advanceWTCursor_target t0 c (_key c) Hcur). reflexivity. }
  split; [apply Hany|]. split.
  - destruct (Hany (delete (_key c) t)) as (c1 & Hr & Hn).
    exists c1. split; [exact Hr|]. rewrite Hn. apply next_after_delete, Hpos.
  - intros fl v K Hat Hrow Hent. destruct Hpos as (Heof & Hlast & Hcur).
    assert (Hbase : restoreBase t (savePositioned c) preferBelow = c).
    { unfold restoreBase. simpl. rewrite Heof. simpl.
      unfold seekWTCursor, wt_search_near. simpl. rewrite Hrow. simpl.
      destruct c. simpl in *. subst. reflexivity. }
    destruct fl; unfold restore; [rewrite Hbase; reflexivity|].
    unfold restoreUnique. rewrite Hbase, Hlast, Heof.
    unfold get_value. rewrite Hcur, Hrow.
    destruct Hent as (_ & _ & _ & ->).
    destruct (decodeRecordId_single (_loc c) (ks_typeBits K)) as [rest ->].
    rewrite Z.eqb_refl. reflexivity.
Qed.
End SaveRestore.

(** The cursor of scenario S4 on key 2; key 3 is then deleted. *)
Definition S4_cursor : Cursor.State (H:=toyCodec) :=
  match Cursor.seek (H:=toyCodec) Standard S4_table (Cursor.init true)
          (toy_key 2) true true false with
  | Some (c, _) => c
  | None => Cursor.init true
  end.

Lemma restore_continues_witness :
  exists c1,
    Cursor.restore (H:=toyCodec) Standard
      (delete (Cursor._key S4_cursor) S4_table) (Cursor.savePositioned S4_cursor) false
    = Some c1 /\
    snd <$> Cursor.next (H:=toyCodec) Standard
              (delete (Cursor._key S4_cursor) S4_table) c1 true
    = Some (Some (toy_key 3, 1)).
Proof.
  destruct (restore_continues (H:=toyCodec) S4_table S4_table S4_cursor true false)
    as (_ & (c1 & Hr & Hn) & _).
  - repeat split; vm_compute; reflexivity.
  - exists c1. split; [exact Hr|]. rewrite Hn. vm_compute. reflexivity.
Defined.

(** ** Exact seeks in a unique index *)

Section SeekExact.
Context `{KeyStringCodec}.
Import Cursor.

(** [WiredTigerIndexUniqueCursor::seekExact]: an engine [search] for the
    inclusive encoding of the key; the debug assertion that the cursor is at
    its end or on the query aborts. *)
Definition seekExact (t : gmap bytes bytes) (c : State) (key : BSONObj)
    (wantKey : bool) : option (State * option IndexKeyEntry) :=
  let c := set_query c (ks_encode (stripFieldNames key) kInclusive) in
  let c :=
    match t !! _query c with
    | Some _ => set_engine c (Some (_query c)) false
    | None => set_engine c None true
    end in
  match updatePosition Unique t c with
  | None => None
  | Some c2 =>
      if negb (_eof c2 || match lex_compare (_key c2) (_query c2) with
                          | Eq => true
                          | _ => false
                          end)
      then None
      else
        match curr c2 wantKey with
        | Some r => Some (c2, r)
        | None => None
        end
  end.

(** On a cursor without end position, [seekExact(K)] returns the entry of
    the key when the key has a row, with a key that compares equal to K, and
    nothing otherwise; it never lands on a neighbouring key. *)
Theorem seekExact_finds_key (t : gmap bytes bytes) (c : State) (key : BSONObj)
    (wantKey : bool) :
  wf_table Unique t -> _endPosition c = None ->
  let Q := stripFieldNames key in
  match t !! ks_encode Q kInclusive with
  | None => exists c', seekExact t c key wantKey = Some (c', None)
  | Some v =>
      exists c' K L,
        seekExact t c key wantKey = Some (c', Some (if wantKey then K else [], L)) /\
        wf_entry Unique (ks_encode Q kInclusive) v K L /\
        woCompare K Q = Eq /\
        _key c' = ks_encode Q kInclusive
  end.
Proof.
  intros Hwf Hend Q. unfold seekExact. fold Q.
  change (_query (set_query c (ks_encode Q kInclusive))) with (ks_encode Q kInclusive).
  destruct (t !! ks_encode Q kInclusive) as [v|] eqn:Hrow.
  - destruct (Hwf _ _ Hrow) as (K & L & Hent).
    set (q := ks_encode Q kInclusive) in *.
    set (c1 := set_engine (set_query c q) (Some q) false).
    assert (Hat : atOrPastEndPointAfterSeeking (at_key c1 q) = Some false).
    { unfold atOrPastEndPointAfterSeeking. simpl. rewrite Hend. reflexivity. }
    rewrite (updatePosition_on_row Unique t c1 q v K L eq_refl eq_refl Hrow Hent Hat).
    simpl. rewrite lex_compare_refl. simpl.
    rewrite (curr_on_row Unique c1 q v K L wantKey Hent Hat).
    exists (set_typeBits (set_loc (at_key c1 q) L) (ks_typeBits K)), K, L.
    split; [reflexivity|]. split; [exact Hent|]. split; [|reflexivity].
    destruct Hent as (HK & _ & Hq & _).
    rewrite <- ks_compare by (assumption || apply hasFieldNames_strip).
    fold q. rewrite <- Hq. apply lex_compare_refl.
  - rewrite updatePosition_at_eof by reflexivity. simpl.
    eexists. reflexivity.
Qed.
End SeekExact.

Lemma seekExact_finds_key_witness :
  exists c',
    seekExact (H:=toyCodec) restore_table (Cursor.init true)
      [("a"%string, (4%nat, false))] true
    = Some (c', Some (toy_key 4, 7)).
Proof.
  pose proof (seekExact_finds_key (H:=toyCodec) restore_table (Cursor.init true)
                [("a"%string, (4%nat, false))] true) as Hseek.
  assert (Hwf : wf_table (H:=toyCodec) Unique restore_table).
  { unfold restore_table.
    apply (wf_table_insert_entry (H:=toyCodec) Unique _ _ _ (toy_key 3) 1);
      [|repeat split; discriminate].
    apply (wf_table_insert_entry (H:=toyCodec) Unique _ _ _ (toy_key 4) 7);
      [|repeat split; discriminate].
    apply wf_table_empty. }
  specialize (Hseek Hwf eq_refl). simpl in Hseek.
  destruct (restore_table !! @ks_encode toyCodec (stripFieldNames [("a"%string, (4%nat, false))])
                               kInclusive) as [v|] eqn:Hrow;
    [|vm_compute in Hrow; discriminate].
  destruct Hseek as (c' & K & L & Hs & _ & _ & _).
  assert (Hc : snd <$> seekExact (H:=toyCodec) restore_table (Cursor.init true)
                         [("a"%string, (4%nat, false))] true
               = Some (Some (toy_key 4, 7))) by (vm_compute; reflexivity).
  rewrite Hs in Hc. simpl in Hc. inversion Hc; subst.
  exists c'. exact Hs.
Defined.

(** ** Index options and the create string *)

Lemma string_app_assoc (a b c : string) : (a +:+ b) +:+ c = a +:+ (b +:+ c).
Proof.
  induction a as [|x a IH]; [reflexivity|].
  change (String x ((a +:+ b) +:+ c) = String x (a +:+ (b +:+ c))).
  f_equal. exact IH.
Qed.

Lemma string_app_nil_r (a : string) : a +:+ "" = a.
Proof.
  induction a as [|x a IH]; [reflexivity|].
  change (String x (a +:+ "") = String x a). f_equal. exact IH.
Qed.

Section IndexOptions.
(** The values of the option elements, the error statuses of
    [WiredTigerUtil::checkTableCreationOptions] (none when it returns Ok) and
    the string data of a value are those of the callers. *)
Context {V E : Type}.
Variable checkTableCreationOptions : string * V -> option E.
Variable valueStringData : V -> string.

(** The result of [parseIndexOptions]: the configuration string, the error
    status of the check, or InvalidOptions with its message. *)
Inductive ParseResult :=
| Parsed (config : string)
| CheckFailed (status : E)
| InvalidOptions (msg : string).

Definition unsupported_msg (fieldName : string) : string :=
  ("'" +:+ fieldName +:+ "'" +:+ " is not a supported option.")%string.

(** The loop of [parseIndexOptions] over the elements, [ss] being the
    string built so far. *)
Fixpoint parse_options (ss : string) (options : list (string * V)) : ParseResult :=
  match options with
  | [] => Parsed ss
  | elem :: rest =>
      if String.eqb elem.1 "configString" then
        match checkTableCreationOptions elem with
        | Some status => CheckFailed status
        | None => parse_options (ss +:+ valueStringData elem.2 +:+ ",") rest
        end
      else InvalidOptions (unsupported_msg elem.1)
  end.

Definition parseIndexOptions (options : list (string * V)) : ParseResult :=
  parse_options "" options.

(** An element [parseIndexOptions] accepts. *)
Definition accepted (elem : string * V) : Prop :=
  elem.1 = "configString"%string /\ checkTableCreationOptions elem = None.

(** The values of the elements, each followed by a comma. *)
Definition joined (options : list (string * V)) : string :=
  foldr (fun elem acc => valueStringData elem.2 +:+ "," +:+ acc)%string
        ""%string options.

Lemma parse_options_accepted (options : list (string * V)) :
  Forall accepted options ->
  forall ss rest,
    parse_options ss (options ++ rest)
    = parse_options (ss +:+ joined options) rest.
Proof.
  induction 1 as [|elem options [Hname Hcheck] Hrest IH]; intros ss rest; simpl.
  - rewrite string_app_nil_r. reflexivity.
  - rewrite Hname, Hcheck. simpl. rewrite IH. f_equal.
    rewrite !string_app_assoc. reflexivity.
Qed.

Lemma parse_options_Parsed (options : list (string * V)) :
  forall ss config, parse_options ss options = Parsed config -> Forall accepted options.
Proof.
  induction options as [|elem options IH]; intros ss config Hp; [constructor|].
  simpl in Hp. destruct (String.eqb_spec elem.1 "configString") as [Hname|];
    [|discriminate].
  destruct (checkTableCreationOptions elem) eqn:Hcheck; [discriminate|].
  constructor; [split; assumption|]. eapply IH. exact Hp.
Qed.

(** [parseIndexOptions] returns a configuration string exactly when every
    element is named configString and passes the check; the string is then
    the values of the elements, each followed by a comma (the empty string
    for no options).  Otherwise the first element that is not accepted
    decides: InvalidOptions for another field name, the status of the check
    for a configString that fails it; the elements after it are not looked
    at. *)
Theorem parseIndexOptions_result (options : list (string * V)) :
  (forall config,
     parseIndexOptions options = Parsed config <->
     Forall accepted options /\ config = joined options) /\
  (forall good elem rest,
     options = good ++ elem :: rest -> Forall accepted good ->
     elem.1 <> "configString"%string ->
     parseIndexOptions options = InvalidOptions (unsupported_msg elem.1)) /\
  (forall good elem rest status,
     options = good ++ elem :: rest -> Forall accepted good ->
     elem.1 = "configString"%string ->
     checkTableCreationOptions elem = Some status ->
     parseIndexOptions options = CheckFailed status).
Proof.
  unfold parseIndexOptions. split; [|split].
  - intros config. split.
    + intros Hp. pose proof (parse_options_Parsed options _ _ Hp) as Hacc.
      split; [exact Hacc|].
      rewrite <- (app_nil_r options), (parse_options_accepted options Hacc) in Hp.
      simpl in Hp. inversion Hp. reflexivity.
    + intros [Hacc ->].
      rewrite <- (app_nil_r options) at 1.
      rewrite (parse_options_accepted options Hacc). reflexivity.
  - intros good elem rest -> Hgood Hname.
    rewrite (parse_options_accepted good Hgood). simpl.
    destruct (String.eqb_spec elem.1 "configString"); [contradiction|reflexivity].
  - intros good elem rest status -> Hgood Hname Hcheck.
    rewrite (parse_options_accepted good Hgood). simpl.
    rewrite Hname, Hcheck. reflexivity.
Qed.
End IndexOptions.

Lemma parseIndexOptions_result_witness :
  parseIndexOptions (fun _ : string * string => @None unit) (fun v => v)
    [("configString"%string, "a=1"%string); ("other"%string, "x"%string);
     ("configString"%string, "b=2"%string)]
  = InvalidOptions (unsupported_msg "other").
Proof.
  destruct (parseIndexOptions_result (fun _ : string * string => @None unit) (fun v => v)
              [("configString"%string, "a=1"%string); ("other"%string, "x"%string);
               ("configString"%string, "b=2"%string)]) as (_ & Hinvalid & _).
  apply (Hinvalid [("configString"%string, "a=1"%string)] ("other"%string, "x"%string)
           [("configString"%string, "b=2"%string)]).
  - reflexivity.
  - repeat constructor.
  - discriminate.
Defined.

(** ** Bulk building and inserting *)

Section BulkAndInsert.
Context `{KeyStringCodec}.

(** A sequence of inserts, as long as each returns Ok. *)
Fixpoint insert_pairs (fl : Flavor) (t : gmap bytes bytes)
    (kvs : list (BSONObj * RecordId)) (dupsAllowed : bool) : option (gmap bytes bytes) :=
  match kvs with
  | [] => Some t
  | kl :: kvs' =>
      match insert fl t kl.1 kl.2 dupsAllowed with
      | Some (OK, t1) => insert_pairs fl t1 kvs' dupsAllowed
      | _ => None
      end
  end.


(** Within each key, every loc is greater than the locs supplied before. *)
Fixpoint locs_ascending (done rest : list (BSONObj * RecordId)) : Prop :=
  match rest with
  | [] => True
  | kl :: rest' =>
      Forall (fun r => r.1 < kl.2) (records_for (ks_encode kl.1 kInclusive) done) /\
      locs_ascending (done ++ [kl]) rest'
  end.

Lemma insert_sorted_last (L : RecordId) (tb : TypeBits)
    (records : list (RecordId * TypeBits)) :
  Forall (fun r => r.1 < L) records ->
  insert_sorted L tb records = records ++ [(L, tb)].
Proof.
  induction 1 as [|[l b] rs Hl Hrs IH]; simpl; [reflexivity|].
  simpl in Hl. destruct (Z.ltb_spec L l); [lia|]. rewrite IH. reflexivity.
Qed.

Lemma row_of_snoc_other (t0 : gmap bytes bytes) (e : bytes)
    (done : list (BSONObj * RecordId)) (K : BSONObj) (L : RecordId) :
  e <> ks_encode K kInclusive ->
  row_of t0 e (done ++ [(K, L)]) = row_of t0 e done.
Proof.
  intros Hne. unfold row_of. rewrite records_for_snoc, decide_False by congruence.
  rewrite app_nil_r. reflexivity.
Qed.

(** The rows a sequence of inserts with dups allowed leaves. *)
Lemma insert_pairs_rows (t0 : gmap bytes bytes) (rest : list (BSONObj * RecordId)) :
  forall (done : list (BSONObj * RecordId)) (t : gmap bytes bytes),
    Forall (fun kl => legal_key kl.1 /\ isNormal kl.2 = true) rest ->
    (forall kl, kl ∈ done ++ rest -> t0 !! ks_encode kl.1 kInclusive = None) ->
    locs_ascending done rest ->
    (forall e, t !! e = row_of t0 e done) ->
    exists t',
      insert_pairs Unique t rest true = Some t' /\
      forall e, t' !! e = row_of t0 e (done ++ rest).
Proof.
  induction rest as [|[K L] rest IH]; intros done t Hlegal Hfresh Hasc Hrows.
  - exists t. rewrite app_nil_r. auto.
  - apply Forall_cons in Hlegal as [[(Hf & _ & Hs) Hn] Hlegal].
    simpl in Hf, Hs, Hn, Hasc. destruct Hasc as [Hlt Hasc].
    assert (Hk0 : t0 !! ks_encode K kInclusive = None)
      by (apply (Hfresh (K, L)), elem_of_app; right; left).
    assert (Hstep : exists t1,
              insert Unique t K L true = Some (OK, t1) /\
              forall e, t1 !! e = row_of t0 e (done ++ [(K, L)])).
    { destruct (records_for (ks_encode K kInclusive) done) as [|r rs] eqn:Hrec.
      - assert (Hrow : t !! ks_encode K kInclusive = None)
          by (rewrite Hrows; unfold row_of; rewrite Hrec; exact Hk0).
        rewrite insert_legal by assumption. simpl.
        rewrite unique_insert_fresh by assumption.
        eexists. split; [reflexivity|]. intros e.
        destruct (decide (e = ks_encode K kInclusive)) as [->|Hne].
        + rewrite lookup_insert_eq. unfold row_of.
          rewrite records_for_snoc, Hrec, decide_True by reflexivity.
          reflexivity.
        + rewrite lookup_insert_ne by congruence.
          rewrite row_of_snoc_other by assumption. apply Hrows.
      - assert (Hrow : t !! ks_encode K kInclusive = Some (encode_records (r :: rs)))
          by (rewrite Hrows; unfold row_of; rewrite Hrec; reflexivity).
        rewrite (unique_insert_step t K L (r :: rs)) by (assumption || discriminate).
        rewrite bool_decide_eq_false_2.
        + eexists. split; [reflexivity|]. intros e.
          destruct (decide (e = ks_encode K kInclusive)) as [->|Hne].
          * rewrite lookup_insert_eq. unfold row_of.
            rewrite records_for_snoc, Hrec, decide_True by reflexivity.
            rewrite insert_sorted_last by assumption.
            destruct (rs ++ [(L, ks_typeBits K)]); reflexivity.
          * rewrite lookup_insert_ne by congruence.
            rewrite row_of_snoc_other by assumption. apply Hrows.
        + intros Hin. apply list_elem_of_fmap in Hin as (x & -> & Hx).
          rewrite Forall_forall in Hlt. specialize (Hlt x Hx). lia. }
    destruct Hstep as (t1 & Hins & Hrows1).
    destruct (IH (done ++ [(K, L)]) t1 Hlegal) as (t' & Hrest & Hrows').
    + intros kl Hkl. apply Hfresh. rewrite <- app_assoc in Hkl. exact Hkl.
    + exact Hasc.
    + exact Hrows1.
    + exists t'. simpl. rewrite Hins. split; [exact Hrest|].
      intros e. rewrite Hrows', <- app_assoc. reflexivity.
Qed.

Lemma build_rows (t0 : gmap bytes bytes) (kvs : list (BSONObj * RecordId)) :
  Forall (fun kl => legal_key kl.1) kvs -> non_decreasing kvs ->
  exists t', build t0 true kvs = Some (OK, t') /\
             forall e, t' !! e = row_of t0 e kvs.
Proof.
  intros Hlegal Hsorted.
  destruct (addKeys_inv t0 kvs Hlegal [] t0 (UniqueBulkBuilder.init true))
    as (t & b & Hadds & Hinv).
  { split; [reflexivity|]. simpl. auto. }
  { exact Hsorted. }
  simpl in Hinv. destruct Hinv as [Hdups Hinv].
  unfold build. rewrite Hadds. unfold UniqueBulkBuilder.commit.
  destruct (last kvs) as [[kd ld]|] eqn:Hlast; simpl in Hinv.
  - destruct Hinv as (Hkey & Hks & Hkd & Hrec & Htab & Hle).
    assert (Hrne : records_for (ks_encode kd kInclusive) kvs <> []).
    { apply last_Some in Hlast as [l' ->]. rewrite records_for_snoc.
      rewrite decide_True by reflexivity. intros E. apply app_eq_nil in E as [_ E].
      discriminate. }
    unfold UniqueBulkBuilder.doInsert, wt_bulk_insert. rewrite Hrec.
    destruct (records_for (ks_encode kd kInclusive) kvs) as [|r rs] eqn:Hr;
      [congruence|]. simpl.
    eexists. split; [reflexivity|]. intros e. rewrite Hks.
    destruct (decide (e = ks_encode kd kInclusive)) as [->|Hne].
    + rewrite lookup_insert_eq. unfold row_of. rewrite Hr. reflexivity.
    + rewrite lookup_insert_ne by congruence. rewrite Htab.
      rewrite decide_False by assumption. reflexivity.
  - destruct Hinv as [-> ->]. simpl. apply last_None in Hlast as ->.
    exists t0. split; reflexivity.
Qed.

(** The bulk builder and the inserts build the same unique index: for legal
    keys in non-decreasing order whose locs ascend within each key, on a
    table without rows at these keys, feeding the pairs to the unique bulk
    builder (dups allowed) and committing leaves the table that inserting
    them one by one with dups allowed leaves. *)
Theorem unique_bulk_equals_inserts (t0 : gmap bytes bytes)
    (kvs : list (BSONObj * RecordId)) :
  Forall (fun kl => legal_key kl.1 /\ isNormal kl.2 = true) kvs ->
  non_decreasing kvs ->
  locs_ascending [] kvs ->
  (forall kl, kl ∈ kvs -> t0 !! ks_encode kl.1 kInclusive = None) ->
  exists t',
    build t0 true kvs = Some (OK, t') /\
    insert_pairs Unique t0 kvs true = Some t'.
Proof.
  intros Hlegal Hsorted Hasc Hfresh.
  destruct (build_rows t0 kvs) as (t1 & Hbuild & Hrows1);
    [eapply Forall_impl; [exact Hlegal|]; intros kl [Hk _]; exact Hk|assumption|].
  destruct (insert_pairs_rows t0 kvs [] t0 Hlegal Hfresh Hasc) as (t2 & Hins & Hrows2).
  { intros e. reflexivity. }
  exists t1. split; [exact Hbuild|]. rewrite Hins. f_equal.
  apply map_eq. intros e. rewrite Hrows1, Hrows2. reflexivity.
Qed.

End BulkAndInsert.

Lemma unique_bulk_equals_inserts_witness :
  exists t',
    build (H:=toyCodec) ∅ true S6_keys = Some (OK, t') /\
    insert_pairs (H:=toyCodec) Unique ∅ S6_keys true = Some t'.
Proof.
  apply (unique_bulk_equals_inserts (H:=toyCodec) ∅ S6_keys).
  - repeat constructor.
  - vm_compute. repeat split; discriminate.
  - vm_compute. repeat split; repeat constructor.
  - intros kl _. apply lookup_empty.
Defined.

